(** * BBInsider web tool: report script and request handler

    A shallow embedding of [web_tool.py]: the JavaScript of the report
    page (shot classification, slot resolution, period labels, the shot
    tables) and the Python side (serialize_game and the /report handler). *)

From Stdlib Require Import ZArith Lia Ascii QArith Qcanon Qround.
From stdpp Require Import base decidable option list strings pretty gmap sorting.

Local Open Scope string_scope.
Local Open Scope Z_scope.

(** ** JavaScript values

    The report script reads event fields out of the JSON payload.  In the
    payload model of this part the fields it coerces ([attacker],
    [defender], [shot_type], [shot_result], [gameclock], [attacking_team],
    [defending_team]) are integers or null; an absent field reads as
    undefined.  Finite numbers are integers here, and the non-finite
    numbers are kept so that the script's [Number.isFinite] test has both
    outcomes.  Slots of every other kind - fractions, booleans, strings -
    are the subject of [Wide] further down, which has the script's
    behaviour on them and agrees with this part on the payload model. *)
Module JS.

Inductive num :=
| Fin (z : Z)
| NaN
| Infinity (negative : bool).

Inductive val :=
| Num (n : num)
| Null
| Undefined.

#[global] Instance num_eq_dec : EqDecision num.
Proof. solve_decision. Defined.
#[global] Instance val_eq_dec : EqDecision val.
Proof. solve_decision. Defined.

(** [Number(v)] *)
Definition Number (v : val) : num :=
  match v with
  | Num n => n
  | Null => Fin 0
  | Undefined => NaN
  end.

(** [String(v)] *)
Definition String (v : val) : string :=
  match v with
  | Num (Fin z) => pretty z
  | Num NaN => "NaN"
  | Num (Infinity false) => "Infinity"
  | Num (Infinity true) => "-Infinity"
  | Null => "null"
  | Undefined => "undefined"
  end.

(** [typeof v === "number"] *)
Definition is_number (v : val) : bool :=
  match v with Num _ => true | _ => false end.

(** [Number.isFinite(n)] *)
Definition isFinite (n : num) : bool :=
  match n with Fin _ => true | _ => false end.

(** [a < b] on numbers; every comparison with NaN is false. *)
Definition lt (a b : num) : bool :=
  match a, b with
  | Fin x, Fin y => bool_decide (x < y)
  | NaN, _ | _, NaN => false
  | Infinity true, Infinity true => false
  | Infinity true, _ => true
  | _, Infinity false => match a with Infinity false => false | _ => true end
  | Infinity false, _ => false
  | Fin _, Infinity true => false
  end.

(** [a <= b] and [a >= b] *)
Definition le (a b : num) : bool :=
  match a, b with
  | Fin x, Fin y => bool_decide (x <= y)
  | NaN, _ | _, NaN => false
  | Infinity true, _ => true
  | _, Infinity false => true
  | Infinity false, _ => false
  | Fin _, Infinity true => false
  end.
Definition ge (a b : num) : bool := le b a.

(** [a === b] on numbers *)
Definition seq (a b : num) : bool :=
  match a, b with
  | Fin x, Fin y => bool_decide (x = y)
  | Infinity s, Infinity t => bool_decide (s = t)
  | _, _ => false
  end.

(** [a - b] with a finite integer [b] *)
Definition sub (a : num) (b : Z) : num :=
  match a with
  | Fin x => Fin (x - b)
  | other => other
  end.

(** [a - b] on numbers *)
Definition minus (a b : num) : num :=
  match a, b with
  | Fin x, Fin y => Fin (x - y)
  | NaN, _ | _, NaN => NaN
  | Infinity s, Infinity t => if bool_decide (s = t) then NaN else Infinity s
  | Infinity s, Fin _ => Infinity s
  | Fin _, Infinity t => Infinity (negb t)
  end.

(** The value of a run of decimal digits, most significant first. *)
Fixpoint digits_value (acc : Z) (s : string) : option Z :=
  match s with
  | EmptyString => Some acc
  | String.String c s' =>
      match Ascii.is_nat c with
      | Some d => digits_value (10 * acc + Z.of_nat d) s'
      | None => None
      end
  end.

Definition unsigned_str (s : string) : num :=
  if decide (s = "Infinity") then Infinity false
  else match s with
       | EmptyString => NaN
       | _ => match digits_value 0 s with Some z => Fin z | None => NaN end
       end.

(** [Number(s)] for a string [s]: the empty string is 0, a run of decimal
    digits with an optional sign is its value, the infinities are read by
    name, and any other text is NaN.  The strings read this way are codes
    written by [String] and the values of the page's team selects ("all",
    "0", "1"); white space, fractions, exponents and radix prefixes occur
    in none of them and are not read. *)
Definition Number_str (s : string) : num :=
  match s with
  | EmptyString => Fin 0
  | String.String "-" s' =>
      match unsigned_str s' with
      | Fin z => Fin (- z)
      | Infinity b => Infinity (negb b)
      | NaN => NaN
      end
  | String.String "+" s' => unsigned_str s'
  | _ => unsigned_str s
  end.

(** What [sort] makes of a comparator's result: its sign, with NaN as 0. *)
Definition cmp_result (v : num) : Z :=
  match v with
  | Fin z => z
  | NaN => 0
  | Infinity false => 1
  | Infinity true => -1
  end.

(** [s.includes(t)] *)
Fixpoint includes (s t : string) : bool :=
  String.prefix t s ||
  match s with
  | EmptyString => false
  | String.String _ s' => includes s' t
  end.

(** [a || b] on strings: the empty string is falsy. *)
Definition or_str (a : option string) (b : string) : string :=
  match a with
  | Some (String.String c s) => String.String c s
  | _ => b
  end.

(** [obj[key]] on an object literal, as an ordered list of entries. *)
Fixpoint prop {A} (obj : list (string * A)) (key : string) : option A :=
  match obj with
  | [] => None
  | (k, v) :: rest => if decide (k = key) then Some v else prop rest key
  end.

(** [arr[i]] for a numeric index; anything off the array is undefined. *)
Definition index {A} (arr : list A) (i : num) : option A :=
  match i with
  | Fin z => if decide (0 <= z) then arr !! Z.to_nat z else None
  | _ => None
  end.

End JS.

(** ** The report script *)

(** [arr.sort(cmp)]: the sort is stable, so for a consistent comparator
    the result is the one of a stable insertion sort.  (For a comparator
    that is not consistent the script's order is left to the engine; the
    model then gives one order, and nothing proved below depends on
    which.) *)
Fixpoint sortInsert {A} (cmp : A → A → Z) (x : A) (l : list A) : list A :=
  match l with
  | [] => [x]
  | y :: l' => if decide (0 < cmp x y) then y :: sortInsert cmp x l' else x :: y :: l'
  end.

Definition jsSort {A} (cmp : A → A → Z) (l : list A) : list A :=
  foldr (sortInsert cmp) [] l.

(** [a || b] on numbers that are integers: 0 is falsy. *)
Definition or_num (a b : Z) : Z := if decide (a = 0) then b else a.


Definition shotTypeLabel : list (string * string) :=
  [ ("100", "3PT Default"); ("101", "3PT Top Key"); ("102", "3PT Wing");
    ("103", "3PT Corner"); ("104", "3PT Long"); ("105", "3PT Halfcourt");
    ("200", "2PT Default"); ("201", "2PT Elbow"); ("202", "2PT Wing");
    ("203", "2PT Baseline"); ("204", "2PT Top Key");
    ("401", "Dunk"); ("402", "Layup"); ("403", "Post Move");
    ("404", "Fade Away"); ("405", "Hook"); ("406", "Off Dribble J");
    ("407", "Putback Dunk"); ("408", "Tip-in"); ("409", "Rebound Shot");
    ("410", "Dunk"); ("411", "Driving Layup") ].

Definition shotResultLabel : list (string * string) :=
  [ ("0", "Missed"); ("1", "Scored"); ("2", "Goaltend"); ("3", "Blocked");
    ("4", "Missed + Foul"); ("5", "Scored + Foul") ].

Definition madeResults : gset string := {[ "1"; "2"; "5" ]}.
Definition missedResults : gset string := {[ "0"; "4" ]}.
Definition blockedResults : gset string := {[ "3" ]}.

(** One event of [data.events], with the fields the shot views read. *)
Record event := {
  event_type : string;
  gameclock : JS.val;
  attacking_team : JS.val;
  defending_team : JS.val;
  attacker : JS.val;
  defender : JS.val;
  shot_type : JS.val;
  shot_result : JS.val
}.

Record player := { player_name : string; player_starter : bool }.
Record team := { team_name : string; players : list player }.

Definition periodFromClock (gameclock : JS.val) : string :=
  if negb (JS.is_number gameclock) then "?"
  else
    let g := JS.Number gameclock in
    if JS.lt g (JS.Fin 0) then "End"
    else if JS.lt g (JS.Fin 720) then "Q1"
    else if JS.lt g (JS.Fin 1440) then "Q2"
    else if JS.lt g (JS.Fin 2160) then "Q3"
    else if JS.lt g (JS.Fin 2880) then "Q4"
    else "OT".

(** [{ a, m, mi, b }]: attempts, made, missed, blocked. *)
Module Off.
Record cell := { a : nat; m : nat; mi : nat; b : nat }.
End Off.
Abbreviation offCell := Off.cell.

Definition zeroOffCell : offCell := {| Off.a := 0; Off.m := 0; Off.mi := 0; Off.b := 0 |}.

Definition addOffStat (cell : offCell) (resultCode : JS.val) : offCell :=
  let rc := JS.String resultCode in
  let cell := {| Off.a := S (Off.a cell); Off.m := Off.m cell;
                 Off.mi := Off.mi cell; Off.b := Off.b cell |} in
  if decide (rc ∈ madeResults)
  then {| Off.a := Off.a cell; Off.m := S (Off.m cell);
          Off.mi := Off.mi cell; Off.b := Off.b cell |}
  else if decide (rc ∈ blockedResults)
  then {| Off.a := Off.a cell; Off.m := Off.m cell;
          Off.mi := Off.mi cell; Off.b := S (Off.b cell) |}
  else if decide (rc ∈ missedResults)
  then {| Off.a := Off.a cell; Off.m := Off.m cell;
          Off.mi := S (Off.mi cell); Off.b := Off.b cell |}
  else {| Off.a := Off.a cell; Off.m := Off.m cell;
          Off.mi := S (Off.mi cell); Off.b := Off.b cell |}.

Definition getShotRange (code : JS.val) : string :=
  let label := JS.or_str (JS.prop shotTypeLabel (JS.String code)) (JS.String code) in
  if JS.includes label "3PT" then "three"
  else if JS.includes label "2PT" then "jump"
  else "paint".

(** The slot index, or [None] for the script's [null]; on the payload
    model a slot that is resolved is an integer.  [Wide.normalizeSlot] is
    the function on every raw value. *)
Definition normalizeSlot (rawSlot : JS.val) (playersLen : nat) : option Z :=
  let n := JS.Number rawSlot in
  if negb (JS.isFinite n) then None
  else if JS.ge n (JS.Fin 1) && JS.le n (JS.Fin (Z.of_nat playersLen))
  then match JS.sub n 1 with JS.Fin i => Some i | _ => None end
  else if JS.seq n (JS.Fin 0) then None
  else None.

Definition resolvePlayerName (teamObj : option team) (rawSlot : JS.val)
    (fallback : string) : string :=
  match teamObj with
  | None => fallback
  | Some t =>
      match normalizeSlot rawSlot (length (players t)) with
      | None => fallback
      | Some idx =>
          JS.or_str (player_name <$> JS.index (players t) (JS.Fin idx)) fallback
      end
  end.


(** [data.events.filter(ev => ev.event_type === "shot")] *)
Definition shotEvents (events : list event) : list event :=
  filter (λ ev, event_type ev = "shot") events.

(** [side === 0 ? home : away] *)
Definition getTeamBySide (home away : team) (side : JS.num) : team :=
  if JS.seq side (JS.Fin 0) then home else away.

(** *** Offense shot profile *)

(** [(a, b) => Number(a) - Number(b)] on two codes *)
Definition cmpCodes (a b : string) : Z :=
  JS.cmp_result (JS.minus (JS.Number_str a) (JS.Number_str b)).

(** The distinct [String(ev.shot_type)] of the shot events, sorted by
    numeric value. *)
Definition typeCodes (shots : list event) : list string :=
  jsSort cmpCodes
    (remove_dups (filter (λ s, s ≠ "") (map (λ ev, JS.String (shot_type ev)) shots))).

(** [Object.fromEntries(typeCodes.map(code => [code, zeroOffCell()]))] *)
Definition zeroCounts (codes : list string) : gmap string offCell :=
  list_to_map (map (λ code, (code, zeroOffCell)) codes).

Definition addCell (x y : offCell) : offCell :=
  {| Off.a := Off.a x + Off.a y; Off.m := Off.m x + Off.m y;
     Off.mi := Off.mi x + Off.mi y; Off.b := Off.b x + Off.b y |}.

(** Reading a cell of a table built from [typeCodes]; every code that is
    read was entered by [zeroCounts]. *)
Definition cellAt (cells : gmap string offCell) (code : string) : offCell :=
  default zeroOffCell (cells !! code).

Definition sumOffCells (cellsByType : gmap string offCell) (codes : list string) : offCell :=
  foldl (λ out code, addCell out (cellAt cellsByType code)) zeroOffCell codes.

(** The body of [shotEvents.forEach] for the player at [playerIdx] of the
    team on [side], whose roster has [len] players. *)
Definition countShot (side : Z) (len playerIdx : nat)
    (counts : gmap string offCell) (ev : event) : gmap string offCell :=
  if negb (JS.seq (JS.Number (attacking_team ev)) (JS.Fin side)) then counts
  else
    match normalizeSlot (attacker ev) len with
    | Some idx =>
        if decide (idx = Z.of_nat playerIdx) then
          let code := JS.String (shot_type ev) in
          match counts !! code with
          | Some cell => <[code := addOffStat cell (shot_result ev)]> counts
          | None => counts
          end
        else counts
    | None => counts
    end.

Definition playerCounts (codes : list string) (side : Z) (len playerIdx : nat)
    (shots : list event) : gmap string offCell :=
  foldl (countShot side len playerIdx) (zeroCounts codes) shots.

(** [teamCounts[side][code] += counts[code]], for every code *)
Definition addCounts (codes : list string)
    (teamCounts counts : gmap string offCell) : gmap string offCell :=
  foldl (λ acc code, <[code := addCell (cellAt acc code) (cellAt counts code)]> acc)
        teamCounts codes.

Record playerRow := {
  row_side : Z;
  row_name : string;
  row_team : string;
  row_counts : gmap string offCell;
  row_total : offCell
}.

(** The body of [teamObj.players.forEach] for the player [ip.2] at index
    [ip.1]: the row pushed, and the team's counts after it. *)
Definition teamPassStep (codes : list string) (teamObj : team) (side : Z)
    (shots : list event) (acc : list playerRow * gmap string offCell)
    (ip : nat * player) : list playerRow * gmap string offCell :=
  let counts := playerCounts codes side (length (players teamObj)) ip.1 shots in
  ((acc.1 ++ [ {| row_side := side; row_name := player_name ip.2;
                  row_team := team_name teamObj; row_counts := counts;
                  row_total := sumOffCells counts codes |} ])%list,
   addCounts codes acc.2 counts).

(** One pass of [teamObj.players.forEach]: the rows pushed for the team
    and its [teamCounts[side]]. *)
Definition teamPass (codes : list string) (teamObj : team) (side : Z)
    (shots : list event) : list playerRow * gmap string offCell :=
  foldl (teamPassStep codes teamObj side shots) ([], zeroCounts codes)
        (imap pair (players teamObj)).

Record offenseShotProfile := {
  osp_typeCodes : list string;
  osp_playerRowsData : list playerRow;
  osp_teamCounts0 : gmap string offCell;
  osp_teamCounts1 : gmap string offCell;
  osp_homeTotal : offCell;
  osp_awayTotal : offCell;
  osp_gameTotal : offCell
}.

(** What [renderOffenseShotProfile] computes before it writes the two
    tables; the rows of the player table are [visiblePlayers] of
    [osp_playerRowsData]. *)
Definition renderOffenseShotProfile (home away : team) (events : list event)
    : offenseShotProfile :=
  let shots := shotEvents events in
  let codes := typeCodes shots in
  let h := teamPass codes home 0 shots in
  let w := teamPass codes away 1 shots in
  let homeTotal := sumOffCells h.2 codes in
  let awayTotal := sumOffCells w.2 codes in
  {| osp_typeCodes := codes;
     osp_playerRowsData := (h.1 ++ w.1)%list;
     osp_teamCounts0 := h.2;
     osp_teamCounts1 := w.2;
     osp_homeTotal := homeTotal;
     osp_awayTotal := awayTotal;
     osp_gameTotal := addCell homeTotal awayTotal |}.

(** [(a, b) => b.total.a - a.total.a || a.name.localeCompare(b.name)];
    [localeCompare] is the string method of that name. *)
Definition cmpVisible (localeCompare : string → string → Z) (a b : playerRow) : Z :=
  or_num (Z.of_nat (Off.a (row_total b)) - Z.of_nat (Off.a (row_total a)))
         (localeCompare (row_name a) (row_name b)).

(** [visiblePlayers], the rows the player table shows: those of the team
    chosen in the select ("all", "0" or "1"), by attempts, the most
    first, then by name. *)
Definition visiblePlayers (localeCompare : string → string → Z) (teamFilterVal : string)
    (playerRowsData : list playerRow) : list playerRow :=
  jsSort (cmpVisible localeCompare)
    (filter (λ row, bool_decide (teamFilterVal = "all")
                    || JS.seq (JS.Number_str teamFilterVal) (JS.Fin (row_side row)))
            playerRowsData).

(** *** Shot range charts *)

Record rangeCounts := { three : nat; jump : nat; paint : nat }.

Definition emptyRangeCounts : rangeCounts := {| three := 0; jump := 0; paint := 0 |}.

Definition sumRangeCounts (counts : rangeCounts) : nat :=
  three counts + jump counts + paint counts.

(** [counts[range] += 1] for a key of the object *)
Definition bumpRange (counts : rangeCounts) (range : string) : rangeCounts :=
  if decide (range = "three")
  then {| three := S (three counts); jump := jump counts; paint := paint counts |}
  else if decide (range = "jump")
  then {| three := three counts; jump := S (jump counts); paint := paint counts |}
  else if decide (range = "paint")
  then {| three := three counts; jump := jump counts; paint := S (paint counts) |}
  else counts.

(** The player chart of [renderRangeCharts], for the selected [pside:pslot]. *)
Definition playerRangeCounts (home away : team) (pside pslot : JS.num)
    (events : list event) : rangeCounts :=
  let pTeam := getTeamBySide home away pside in
  foldl (λ counts ev,
           if negb (JS.seq (JS.Number (attacking_team ev)) pside) then counts
           else
             match normalizeSlot (attacker ev) (length (players pTeam)) with
             | Some idx =>
                 if JS.seq (JS.Fin idx) pslot
                 then bumpRange counts (getShotRange (shot_type ev))
                 else counts
             | None => counts
             end)
        emptyRangeCounts (shotEvents events).

(** The team chart of [renderRangeCharts], for the selected [tside]. *)
Definition teamRangeCounts (tside : JS.num) (events : list event) : rangeCounts :=
  foldl (λ counts ev,
           if negb (JS.seq (JS.Number (attacking_team ev)) tside) then counts
           else bumpRange counts (getShotRange (shot_type ev)))
        emptyRangeCounts (shotEvents events).

(** *** Strengths and weaknesses by range *)

Record rangeEntry := { re_name : string; re_a : nat; re_m : nat }.

Definition ranges : list string := ["three"; "jump"; "paint"].

Definition emptyByRange (teamObj : team) : gmap string (list rangeEntry) :=
  list_to_map
    (map (λ range,
            (range, map (λ p, {| re_name := player_name p; re_a := 0; re_m := 0 |})
                        (players teamObj)))
         ranges).

Definition bumpEntry (made : bool) (e : rangeEntry) : rangeEntry :=
  {| re_name := re_name e; re_a := S (re_a e);
     re_m := if made then S (re_m e) else re_m e |}.

(** The table on the payload model, where a resolved slot is always an
    index of the roster and [out[range][idx]] is defined.
    [Wide.buildOffenseByRange] is the function on raw slots, with the
    TypeError of an index that is no roster index. *)
Definition buildOffenseByRange (home away : team) (teamSide : Z)
    (events : list event) : gmap string (list rangeEntry) :=
  let teamObj := getTeamBySide home away (JS.Fin teamSide) in
  foldl (λ out ev,
           if negb (JS.seq (JS.Number (attacking_team ev)) (JS.Fin teamSide)) then out
           else
             match normalizeSlot (attacker ev) (length (players teamObj)) with
             | None => out
             | Some idx =>
                 let range := getShotRange (shot_type ev) in
                 if decide (is_Some (out !! range)) then
                   alter (alter (bumpEntry
                                   (bool_decide (JS.String (shot_result ev) ∈ madeResults)))
                                (Z.to_nat idx))
                         range out
                 else out
             end)
        (emptyByRange teamObj) (shotEvents events).

(** *** Defender shot panel *)

(** The counts of the summary cards; the FG% card is a formatted ratio of
    two of them and is left out. *)
Record defenderSummary := {
  ds_defenderShots : list event;
  ds_filtered : list event;
  ds_madeCount : nat;
  ds_missedCount : nat;
  ds_blockedCount : nat;
  ds_foulCount : nat
}.

(** [[..].includes(String(ev.shot_result))] *)
Definition resultIn (codes : list string) (ev : event) : bool :=
  bool_decide (JS.String (shot_result ev) ∈ codes).

(** The predicate of [shotEvents.filter] that keeps the shots of the
    selected defenders. *)
Definition defendedBySelected (home away : team) (selectedDefenders : gset string)
    (ev : event) : bool :=
  let side := JS.Number (defending_team ev) in
  let defTeam := getTeamBySide home away side in
  match normalizeSlot (defender ev) (length (players defTeam)) with
  | None => false
  | Some idx =>
      if decide (size selectedDefenders = 0%nat) then true
      else bool_decide (JS.String (JS.Num side) +:+ ":" +:+ pretty idx ∈ selectedDefenders)
  end.

(** The predicate of [defenderShots.filter]: shot type and result choices. *)
Definition passesFilters (selectedShotTypes selectedResults : gset string)
    (ev : event) : bool :=
  if bool_decide (0 < size selectedShotTypes)%nat
     && negb (bool_decide (JS.String (shot_type ev) ∈ selectedShotTypes))
  then false
  else if bool_decide (0 < size selectedResults)%nat
          && negb (bool_decide (JS.String (shot_result ev) ∈ selectedResults))
  then false
  else true.

Definition renderDefenderShotPanel (home away : team)
    (selectedDefenders selectedShotTypes selectedResults : gset string)
    (events : list event) : defenderSummary :=
  let defenderShots :=
    filter (λ ev, defendedBySelected home away selectedDefenders ev) (shotEvents events) in
  let filtered :=
    filter (λ ev, passesFilters selectedShotTypes selectedResults ev) defenderShots in
  {| ds_defenderShots := defenderShots;
     ds_filtered := filtered;
     ds_madeCount := length (filter (λ ev, resultIn ["1"; "2"; "5"] ev) filtered);
     ds_missedCount := length (filter (λ ev, resultIn ["0"; "3"; "4"] ev) filtered);
     ds_blockedCount :=
       length (filter (λ ev, bool_decide (JS.String (shot_result ev) = "3")) filtered);
     ds_foulCount := length (filter (λ ev, resultIn ["4"; "5"] ev) filtered) |}.

(** ** The Python side *)

Module Py.

(** Python values that reach the JSON payload. *)
#[warnings="-register-all"]
Inductive value :=
| VNone
| VBool (b : bool)
| VInt (z : Z)
| VStr (s : string)
| VList (l : list value)
| VDict (d : list (string * value)).

(** A [dict] keeps its keys in insertion order; [d[k] = v] overwrites in
    place when [k] is already there. *)
Fixpoint dict_set (d : list (string * value)) (k : string) (v : value)
    : list (string * value) :=
  match d with
  | [] => [(k, v)]
  | (k', v') :: rest =>
      if decide (k' = k) then (k, v) :: rest else (k', v') :: dict_set rest k v
  end.

Fixpoint dict_get (d : list (string * value)) (k : string) : option value :=
  match d with
  | [] => None
  | (k', v) :: rest => if decide (k' = k) then Some v else dict_get rest k
  end.

Definition keys (d : list (string * value)) : list string := map fst d.

(** [v[k]] on a value that is a dict *)
Definition item (v : value) (k : string) : option value :=
  match v with
  | VDict d => dict_get d k
  | _ => None
  end.

(** [enumerate(xs, start=1)] *)
Definition enumerate1 {A} (xs : list A) : list (nat * A) :=
  imap (λ i x, (S i, x)) xs.

(** A Python [str] as its code points, for the text of a request. *)
Definition str := list N.

Definition lit (s : string) : str :=
  map (λ c, N.of_nat (Ascii.nat_of_ascii c)) (String.list_ascii_of_string s).

End Py.

Import Py.

Section WebTool.

(** The classes of [game.py], [bbapi.py] and [main.py] that the web tool
    drives, and the two character classes of Python's [str]. *)
Variable Stat : Type.
Variable player_stats team_stats : Stat → value.
Variable BaseEvent : Type.
Variable to_json : BaseEvent → value.

(** [player.stats] and [team.stats]: a sheet per quarter and one for the
    full game. *)
Record Stats := { qtr : list Stat; full : Stat }.

Record Player := {
  p_id : value;
  p_name : value;
  p_starter : value;
  p_stats : Stats
}.

Record Team := {
  t_id : value;
  t_name : value;
  t_players : list Player;
  t_stats : Stats
}.

Record Game := {
  teams : list Team;
  baseevents : list BaseEvent
}.

(** The loop that fills [stats] / [team_stats], then the "total" entry. *)
Definition stats_dict (sheet : Stat → value) (s : Stats) : list (string * value) :=
  dict_set
    (foldl (λ d qs, dict_set d ("q" +:+ pretty qs.1) (sheet qs.2)) [] (enumerate1 (qtr s)))
    "total" (sheet (full s)).

Definition serialize_player (p : Player) : value :=
  VDict [ ("id", p_id p); ("name", p_name p); ("starter", p_starter p);
          ("stats", VDict (stats_dict player_stats (p_stats p))) ].

Definition serialize_team (t : Team) : value :=
  let players := map serialize_player (t_players t) in
  let team_stats := stats_dict team_stats (t_stats t) in
  VDict [ ("id", t_id t); ("name", t_name t); ("players", VList players);
          ("stats", VDict team_stats) ].

(** [None] is the [IndexError] of [teams[0]] / [teams[1]]. *)
Definition serialize_game (game : Game) : option value :=
  let teams := map serialize_team (teams game) in
  let events := map to_json (baseevents game) in
  match teams !! 0%nat, teams !! 1%nat with
  | Some h, Some w =>
      Some (VDict [ ("teamHome", h); ("teamAway", w); ("events", VList events) ])
  | _, _ => None
  end.

(** *** Request handling *)

Variable isspace isdigit_char : N → bool.

Fixpoint lstrip (s : str) : str :=
  match s with
  | [] => []
  | c :: rest => if isspace c then lstrip rest else s
  end.

(** [s.strip()] *)
Definition strip (s : str) : str := rev (lstrip (rev (lstrip s))).

(** [s.isdigit()] *)
Definition isdigit (s : str) : bool :=
  match s with
  | [] => false
  | _ => forallb isdigit_char s
  end.

(** What the handler and [generate_report] ask of the outside: each
    call is logged, and returns a result or raises. *)
Inductive call :=
| CBBApi (username password : str)
| CBoxscore (matchid : Z)
| CGetXml (matchid : str)
| CParseXml
| CGame (matchid : str)
| CPlay.

(** A raised exception: whether its class derives from [Exception] (what
    [except Exception] catches; [SystemExit] and [KeyboardInterrupt] do
    not), and its text [str(exc)]. *)
Record exn := { is_Exception : bool; exn_str : str }.

(** [ValueError(text)], [IndexError(text)]: subclasses of [Exception]. *)
Definition ValueError (text : str) : exn := {| is_Exception := true; exn_str := text |}.
Definition IndexError (text : str) : exn := {| is_Exception := true; exn_str := text |}.

Definition M (A : Type) : Type := list call * (exn + A).

Definition ret {A} (x : A) : M A := ([], inr x).
Definition raise {A} (e : exn) : M A := ([], inl e).
Definition bind {A B} (c : M A) (k : A → M B) : M B :=
  match c with
  | (log, inl e) => (log, inl e)
  | (log, inr x) => let r := k x in ((log ++ r.1)%list, r.2)
  end.
Definition perform {A} (c : call) (r : exn + A) : M A := ([c], r).
(** A [try] body with the [except Exception as exc] after it: the body's
    value, or the exception caught; an exception that is not an
    [Exception] is not caught and goes on to the caller. *)
Definition attempt {A} (c : M A) : M (exn + A) :=
  match c.2 with
  | inr x => (c.1, inr (inr x))
  | inl exc => if is_Exception exc then (c.1, inr (inl exc)) else (c.1, inl exc)
  end.

#[local] Instance M_ret : MRet M := @ret.
#[local] Instance M_bind : MBind M := λ A B k c, bind c k.

Variable Api Xml Parsed : Type.
Variable BBApi : str → str → exn + Api.
Variable logged_in : Api → bool.
Variable boxscore : Api → Z → exn + unit.
Variable int : str → exn + Z.
Variable get_xml_text : str → exn + Xml.
Variable parse_xml : Xml → exn + Parsed.
Variable new_Game : str → Parsed → exn + Game.
Variable play : Game → exn + Game.

Definition generate_report (matchid username password : str) : M value :=
  api ← perform (CBBApi username password) (BBApi username password);
  if negb (logged_in api)
  then raise (ValueError (lit "BBAPI login failed. Check username/password."))
  else
    n ← ([], int matchid);
    _ ← perform (CBoxscore n) (boxscore api n);
    text ← perform (CGetXml matchid) (get_xml_text matchid);
    parsed ← perform CParseXml (parse_xml text);
    game ← perform (CGame matchid) (new_Game matchid parsed);
    game ← perform CPlay (play game);
    match serialize_game game with
    | Some v => ret v
    | None => raise (IndexError (lit "list index out of range"))
    end.

(** [request.form.get(key, "")] *)
Fixpoint form_get (form : list (string * str)) (key : string) : str :=
  match form with
  | [] => []
  | (k, v) :: rest => if decide (k = key) then v else form_get rest key
  end.

(** [render_template_string] with its template and context: the page is
    kept as the template and what it is rendered with.  The report
    template writes [report_json] through the [tojson] filter; that is the
    last call of the handler, after the [try], and a [value] is data that
    the filter serializes. *)
Inductive page :=
| FORM_HTML (error username password matchid : str)
| REPORT_HTML (report_json : value) (matchid username : str).

Definition response : Type := page * Z.

Definition report (form : list (string * str)) : M response :=
  let username := strip (form_get form "username") in
  let password := strip (form_get form "password") in
  let matchid := strip (form_get form "matchid") in
  if bool_decide (username = []) || bool_decide (password = [])
     || bool_decide (matchid = [])
  then ret (FORM_HTML (lit "All fields are required.") username password matchid, 400)
  else if negb (isdigit matchid)
  then ret (FORM_HTML (lit "Match ID must be numeric.") username password matchid, 400)
  else
    r ← attempt (generate_report matchid username password);
    match r with
    | inl exc =>
        ret (FORM_HTML (lit "Failed to generate report: " ++ exn_str exc)%list
                       username [] matchid, 500)
    | inr report_json => ret (REPORT_HTML report_json matchid username, 200)
    end.

End WebTool.

Arguments qtr {Stat} _.
Arguments full {Stat} _.
Arguments Build_Stats {Stat} _ _.
Arguments p_id {Stat} _.
Arguments p_name {Stat} _.
Arguments p_starter {Stat} _.
Arguments p_stats {Stat} _.
Arguments Build_Player {Stat} _ _ _ _.
Arguments t_id {Stat} _.
Arguments t_name {Stat} _.
Arguments t_players {Stat} _.
Arguments t_stats {Stat} _.
Arguments Build_Team {Stat} _ _ _ _.
Arguments teams {Stat BaseEvent} _.
Arguments baseevents {Stat BaseEvent} _.
Arguments Build_Game {Stat BaseEvent} _ _.

(** ** The stat accumulators of the engine *)

(** Modelled from the spec: the stat sheets and the replay of [game.py],
    which is not part of [web_tool.py].  A sheet holds the counted fields
    (and, for players, the seconds at each position); every increment goes
    to the entity's current-quarter sheet and to its full-game sheet in
    the same step.  The field names are the ones the report script reads.
    The derived [mins] value is not modelled, nor is the bucketing of
    overtime, both of which the spec leaves open. *)
Module Engine.

Inductive field :=
| f_pts | f_fgm | f_fga | f_tpm | f_tpa | f_ftm | f_fta
| f_tr | f_or | f_dr | f_ast | f_to | f_stl | f_blk | f_pf | f_plus_minus
| f_secs_pg | f_secs_sg | f_secs_sf | f_secs_pf | f_secs_c.

Definition field_name (f : field) : string :=
  match f with
  | f_pts => "pts" | f_fgm => "fgm" | f_fga => "fga" | f_tpm => "tpm"
  | f_tpa => "tpa" | f_ftm => "ftm" | f_fta => "fta" | f_tr => "tr"
  | f_or => "or" | f_dr => "dr" | f_ast => "ast" | f_to => "to"
  | f_stl => "stl" | f_blk => "blk" | f_pf => "pf" | f_plus_minus => "+/-"
  | f_secs_pg => "secs_pg" | f_secs_sg => "secs_sg" | f_secs_sf => "secs_sf"
  | f_secs_pf => "secs_pf" | f_secs_c => "secs_c"
  end.

Definition team_fields : list field :=
  [ f_pts; f_fgm; f_fga; f_tpm; f_tpa; f_ftm; f_fta; f_tr; f_or; f_dr;
    f_ast; f_to; f_stl; f_blk; f_pf; f_plus_minus ].

Definition player_fields : list field :=
  (team_fields ++ [ f_secs_pg; f_secs_sg; f_secs_sf; f_secs_pf; f_secs_c ])%list.

#[local] Instance field_eq_dec : EqDecision field.
Proof. solve_decision. Defined.

(** Modelled from the spec: a stat accumulator (the sheet class of
    [game.py]), as the value of every field. *)
Definition Stat : Type := field → Z.

Definition zero : Stat := λ _, 0.

Definition add (f : field) (delta : Z) (s : Stat) : Stat :=
  λ g, if decide (g = f) then s g + delta else s g.

Definition sheet (fields : list field) (s : Stat) : value :=
  VDict (map (λ f, (field_name f, VInt (s f))) fields).

Definition player_stats : Stat → value := sheet player_fields.
Definition team_stats : Stat → value := sheet team_fields.

Inductive quarter := Q1 | Q2 | Q3 | Q4.

Definition quarter_index (q : quarter) : nat :=
  match q with Q1 => 0 | Q2 => 1 | Q3 => 2 | Q4 => 3 end.

(** The entity an increment is credited to: a team, or one of its players. *)
Inductive entity :=
| TeamOf (side : nat)
| PlayerOf (side : nat) (slot : nat).

Record increment := {
  inc_entity : entity;
  inc_quarter : quarter;
  inc_field : field;
  inc_delta : Z
}.

(** Modelled from the spec: the increment of [game.py], mirrored into the
    current-quarter sheet and the full-game sheet in the same step. *)
Definition bump (q : quarter) (f : field) (delta : Z) (s : Stats Stat) : Stats Stat :=
  {| qtr := alter (add f delta) (quarter_index q) (qtr s);
     full := add f delta (full s) |}.

Definition bump_player (q : quarter) (f : field) (delta : Z) (p : Player Stat)
    : Player Stat :=
  {| p_id := p_id p; p_name := p_name p; p_starter := p_starter p;
     p_stats := bump q f delta (p_stats p) |}.

Definition bump_team (e : entity) (side : nat) (q : quarter) (f : field) (delta : Z)
    (t : Team Stat) : Team Stat :=
  match e with
  | TeamOf _ =>
      {| t_id := t_id t; t_name := t_name t; t_players := t_players t;
         t_stats := bump q f delta (t_stats t) |}
  | PlayerOf _ slot =>
      {| t_id := t_id t; t_name := t_name t;
         t_players := alter (bump_player q f delta) slot (t_players t);
         t_stats := t_stats t |}
  end.

Definition entity_side (e : entity) : nat :=
  match e with TeamOf side => side | PlayerOf side _ => side end.

Section Replay.
Variable BaseEvent : Type.

Definition apply_increment (g : Game Stat BaseEvent) (i : increment)
    : Game Stat BaseEvent :=
  let side := entity_side (inc_entity i) in
  {| teams := alter (bump_team (inc_entity i) side (inc_quarter i)
                               (inc_field i) (inc_delta i))
                    side (teams g);
     baseevents := baseevents g |}.

Definition fresh_stats : Stats Stat :=
  {| qtr := [zero; zero; zero; zero]; full := zero |}.

(** A roster entry: id, name, starter flag. *)
Definition fresh_player (r : value * value * value) : Player Stat :=
  {| p_id := r.1.1; p_name := r.1.2; p_starter := r.2; p_stats := fresh_stats |}.

Definition fresh_team (id name : value) (roster : list (value * value * value))
    : Team Stat :=
  {| t_id := id; t_name := name; t_players := map fresh_player roster;
     t_stats := fresh_stats |}.

Definition fresh_game (home away : Team Stat) (events : list BaseEvent)
    : Game Stat BaseEvent :=
  {| teams := [home; away]; baseevents := events |}.

(** Modelled from the spec: the replay of [game.py], one pass over the
    events in order, each event turned into its increments by the
    dispatch on its type. *)
Definition replay (dispatch : Game Stat BaseEvent → BaseEvent → list increment)
    (g : Game Stat BaseEvent) : Game Stat BaseEvent :=
  foldl (λ g ev, foldl apply_increment g (dispatch g ev)) g (baseevents g).
End Replay.

(** Reading the serialized output: [entity["stats"][window][name]]. *)
Definition stat_of (ent : value) (window name : string) : option Z :=
  st ← item ent "stats";
  sh ← item st window;
  v ← item sh name;
  match v with VInt z => Some z | _ => None end.

Definition reconciles (ent : value) (f : field) : Prop :=
  ∃ v1 v2 v3 v4 vt,
    stat_of ent "q1" (field_name f) = Some v1 ∧
    stat_of ent "q2" (field_name f) = Some v2 ∧
    stat_of ent "q3" (field_name f) = Some v3 ∧
    stat_of ent "q4" (field_name f) = Some v4 ∧
    stat_of ent "total" (field_name f) = Some vt ∧
    v1 + v2 + v3 + v4 = vt.

End Engine.

(** ** The three outcome buckets, in the spec's words *)

Inductive outcome := Made | Missed | Blocked.

#[global] Instance outcome_eq_dec : EqDecision outcome.
Proof. solve_decision. Defined.

(** made = scored (1), goaltend (2), scored+foul (5); blocked = blocked (3);
    missed = missed (0), missed+foul (4) and every other code. *)
Definition outcome_of (shot_result : JS.val) : outcome :=
  match shot_result with
  | JS.Num (JS.Fin 1) | JS.Num (JS.Fin 2) | JS.Num (JS.Fin 5) => Made
  | JS.Num (JS.Fin 3) => Blocked
  | _ => Missed
  end.

(** One attempt, credited to the bucket. *)
Definition credit (o : outcome) (cell : offCell) : offCell :=
  match o with
  | Made => {| Off.a := S (Off.a cell); Off.m := S (Off.m cell);
               Off.mi := Off.mi cell; Off.b := Off.b cell |}
  | Missed => {| Off.a := S (Off.a cell); Off.m := Off.m cell;
                 Off.mi := S (Off.mi cell); Off.b := Off.b cell |}
  | Blocked => {| Off.a := S (Off.a cell); Off.m := Off.m cell;
                  Off.mi := Off.mi cell; Off.b := S (Off.b cell) |}
  end.

Definition has_outcome (o : outcome) (ev : event) : bool :=
  bool_decide (outcome_of (shot_result ev) = o).

Definition has_code (k : Z) (ev : event) : bool :=
  bool_decide (shot_result ev = JS.Num (JS.Fin k)).

(** ** Auxiliary definitions for the statements *)

Definition decimal_char (c : ascii) : bool :=
  bool_decide (c ∈ ["0"; "1"; "2"; "3"; "4"; "5"; "6"; "7"; "8"; "9"; "-"]%char).

Fixpoint decimal_string (s : string) : bool :=
  match s with
  | EmptyString => true
  | String.String c s' => decimal_char c && decimal_string s'
  end.

(** The shots the profile credits to the player at [playerIdx]. *)
Definition attributed (side : Z) (len playerIdx : nat) (ev : event) : bool :=
  JS.seq (JS.Number (attacking_team ev)) (JS.Fin side)
  && bool_decide (normalizeSlot (attacker ev) len = Some (Z.of_nat playerIdx)).

(** Two rows of the offense shot profile with the same player and the
    same counts: the second may have more columns, all of them zero. *)
Definition same_counts (rb ra : playerRow) : Prop :=
  row_side ra = row_side rb ∧ row_name ra = row_name rb ∧ row_team ra = row_team rb ∧
  row_total ra = row_total rb ∧
  row_counts rb ⊆ row_counts ra ∧
  ∀ code, cellAt (row_counts ra) code = cellAt (row_counts rb) code.

(** The shots of a side whose attacker resolves to some player. *)
Definition resolved (side : Z) (len : nat) (ev : event) : bool :=
  JS.seq (JS.Number (attacking_team ev)) (JS.Fin side)
  && bool_decide (is_Some (normalizeSlot (attacker ev) len)).

Definition has_type (code : string) (ev : event) : bool :=
  bool_decide (JS.String (shot_type ev) = code).

(** Attempts and outcomes of a list of shots. *)
Definition tally (shots : list event) : offCell :=
  foldl (λ cell ev, addOffStat cell (shot_result ev)) zeroOffCell shots.

Definition cellSum (cells : list offCell) : offCell := foldr addCell zeroOffCell cells.

Definition unitCell (ev : event) : offCell :=
  credit (outcome_of (shot_result ev)) zeroOffCell.

Definition reconciled_stats (s : Stats Engine.Stat) : Prop :=
  ∃ s1 s2 s3 s4,
    qtr s = [s1; s2; s3; s4] ∧ ∀ f, s1 f + s2 f + s3 f + s4 f = full s f.

Definition team_inv (n : nat) (t : Team Engine.Stat) : Prop :=
  reconciled_stats (t_stats t) ∧
  Forall (λ p, reconciled_stats (p_stats p)) (t_players t) ∧
  length (t_players t) = n.

Definition game_inv {BaseEvent} (n0 n1 : nat) (g : Game Engine.Stat BaseEvent) : Prop :=
  ∃ h w, teams g = [h; w] ∧ team_inv n0 h ∧ team_inv n1 w.

(** What the reconciliation says of a serialized team: its own fields, and
    the fields of each of its [n] players. *)
Definition team_reconciles (n : nat) (tv : value) : Prop :=
  (∀ f, f ∈ Engine.team_fields → Engine.reconciles tv f) ∧
  ∃ ps, item tv "players" = Some (VList ps) ∧ length ps = n ∧
        ∀ pv f, pv ∈ ps → f ∈ Engine.player_fields → Engine.reconciles pv f.

Definition window_keys : list string := ["q1"; "q2"; "q3"; "q4"; "total"].

Section Shapes.

Context {Stat BaseEvent : Type}.

(** The data model has four quarter sheets for every player and team,
    and a home and an away team. *)
Definition four_quarters (s : Stats Stat) : Prop := length (qtr s) = 4%nat.

Definition team_wf (t : Team Stat) : Prop :=
  four_quarters (t_stats t) ∧ Forall (λ p, four_quarters (p_stats p)) (t_players t).

Definition game_wf (g : Game Stat BaseEvent) : Prop :=
  ∃ h w, teams g = [h; w] ∧ team_wf h ∧ team_wf w.

Definition player_shape (p : Player Stat) (v : value) : Prop :=
  ∃ st, v = VDict [ ("id", p_id p); ("name", p_name p); ("starter", p_starter p);
                    ("stats", VDict st) ]
        ∧ keys st = window_keys.

Definition team_shape (t : Team Stat) (v : value) : Prop :=
  ∃ ps st, v = VDict [ ("id", t_id t); ("name", t_name t); ("players", VList ps);
                       ("stats", VDict st) ]
           ∧ keys st = window_keys
           ∧ Forall2 player_shape (t_players t) ps.

End Shapes.

(** ** Concrete inputs *)

(** A shot whose attacking team is null. *)
Definition null_team_shot : event :=
  {| event_type := "shot"; gameclock := JS.Num (JS.Fin 100);
     attacking_team := JS.Null; defending_team := JS.Num (JS.Fin 1);
     attacker := JS.Num (JS.Fin 1); defender := JS.Num (JS.Fin 1);
     shot_type := JS.Num (JS.Fin 200); shot_result := JS.Num (JS.Fin 1) |}.

(** A [localeCompare] that orders strings by their character codes. *)
Definition compareCodes (a b : string) : Z :=
  if String.leb a b then (if String.leb b a then 0 else -1) else 1.

Definition one_man (name : string) : team :=
  {| team_name := name;
     players := [ {| player_name := "P1"; player_starter := true |} ] |}.

Definition blocked_shot : event :=
  {| event_type := "shot"; gameclock := JS.Num (JS.Fin 30);
     attacking_team := JS.Num (JS.Fin 0); defending_team := JS.Num (JS.Fin 1);
     attacker := JS.Num (JS.Fin 1); defender := JS.Num (JS.Fin 1);
     shot_type := JS.Num (JS.Fin 401); shot_result := JS.Num (JS.Fin 3) |}.

Definition trio : team :=
  {| team_name := "H";
     players := [ {| player_name := "A"; player_starter := true |};
                  {| player_name := "B"; player_starter := true |};
                  {| player_name := "C"; player_starter := false |} ] |}.

Definition unresolved_shot : event :=
  {| event_type := "shot"; gameclock := JS.Num (JS.Fin 45);
     attacking_team := JS.Num (JS.Fin 0); defending_team := JS.Num (JS.Fin 1);
     attacker := JS.Num (JS.Fin 9); defender := JS.Num (JS.Fin 1);
     shot_type := JS.Num (JS.Fin 100); shot_result := JS.Num (JS.Fin 0) |}.

Definition ascii_space (c : N) : bool := bool_decide (c ∈ [32; 9; 10; 11; 12; 13]%N).
Definition ascii_digit (c : N) : bool := bool_decide (48 ≤ c ≤ 57)%N.

(** A world in which the BBAPI login is refused. *)
Definition refused_report (form : list (string * str)) : M response :=
  report Z VInt VInt unit (λ _, VNone) ascii_space ascii_digit unit unit unit
         (λ _ _, inr ()) (λ _, false) (λ _ _, inr ()) (λ _, inr 0)
         (λ _, inr ()) (λ _, inr ())
         (λ _ _, inr {| teams := []; baseevents := [] |}) (λ g, inr g)
         form.

(** A world in which the BBAPI request fails with an error that quotes
    the request it made, login and code included. *)
Definition leaky_report (form : list (string * str)) : M response :=
  report Z VInt VInt unit (λ _, VNone) ascii_space ascii_digit unit unit unit
         (λ username password,
            inl {| is_Exception := true;
                   exn_str := (lit "GET /login.aspx?login=" ++ username
                               ++ lit "&code=" ++ password)%list |})
         (λ _, false) (λ _ _, inr ()) (λ _, inr 0)
         (λ _, inr ()) (λ _, inr ())
         (λ _ _, inr {| teams := []; baseevents := [] |}) (λ g, inr g)
         form.

Definition good_form : list (string * str) :=
  [ ("username", lit " bob "); ("password", lit "secret"); ("matchid", lit "138595249") ].

Definition bad_form : list (string * str) :=
  [ ("username", lit "bob"); ("password", lit "secret"); ("matchid", lit "12a") ].

Definition four_sheets (s1 s2 s3 s4 total : Z) : Stats Z :=
  {| qtr := [s1; s2; s3; s4]; full := total |}.

Definition small_team (id : Z) (name : string) : Team Z :=
  {| t_id := VInt id; t_name := VStr name;
     t_players := [ {| p_id := VInt (id + 1); p_name := VStr "P1"; p_starter := VBool true;
                       p_stats := four_sheets 2 0 3 0 5 |} ];
     t_stats := four_sheets 2 0 3 0 5 |}.

Definition small_game : Game Z unit :=
  {| teams := [small_team 10 "H"; small_team 20 "A"]; baseevents := [()] |}.


(** ** Auxiliary definitions for the further properties *)

(** A cell whose attempts are its made, missed and blocked shots. *)
Definition balanced (c : offCell) : Prop :=
  Off.a c = (Off.m c + Off.mi c + Off.b c)%nat.

(** The (side, roster length, index) of every player, in the order of the
    rows of the offense shot profile: home roster, then away roster. *)
Definition roster_slots (home away : team) : list (Z * nat * nat) :=
  (imap (λ i _, (0, length (players home), i)) (players home)
   ++ imap (λ i _, (1, length (players away), i)) (players away))%list.

(** Likewise for the defenders, on the payload model;
    [Wide.buildDefenseByRange] is the function on raw slots. *)
Definition buildDefenseByRange (home away : team) (teamSide : Z)
    (events : list event) : gmap string (list rangeEntry) :=
  let teamObj := getTeamBySide home away (JS.Fin teamSide) in
  foldl (λ out ev,
           if negb (JS.seq (JS.Number (defending_team ev)) (JS.Fin teamSide)) then out
           else
             match normalizeSlot (defender ev) (length (players teamObj)) with
             | None => out
             | Some idx =>
                 let range := getShotRange (shot_type ev) in
                 if decide (is_Some (out !! range)) then
                   alter (alter (bumpEntry
                                   (bool_decide (JS.String (shot_result ev) ∈ madeResults)))
                                (Z.to_nat idx))
                         range out
                 else out
             end)
        (emptyByRange teamObj) (shotEvents events).

(** The shots a by-range table credits to the player at index [i], in the
    range [range]: the side and the slot are read by [side_of] and
    [slot_of] (attacking team and attacker, or defending team and
    defender). *)
Definition credited (side_of slot_of : event → JS.val) (teamSide : Z) (len i : nat)
    (range : string) (ev : event) : bool :=
  JS.seq (JS.Number (side_of ev)) (JS.Fin teamSide)
  && bool_decide (normalizeSlot (slot_of ev) len = Some (Z.of_nat i))
  && bool_decide (getShotRange (shot_type ev) = range).

Definition is_made (ev : event) : bool :=
  bool_decide (JS.String (shot_result ev) ∈ madeResults).

(** The entries of one range of a by-range table, as counts of shots. *)
Definition rangeEntries (side_of slot_of : event → JS.val) (teamSide : Z)
    (teamObj : team) (range : string) (shots : list event) : list rangeEntry :=
  imap (λ i p,
          {| re_name := player_name p;
             re_a := length (filter (λ ev, credited side_of slot_of teamSide
                                             (length (players teamObj)) i range ev)
                                    shots);
             re_m := length (filter (λ ev, credited side_of slot_of teamSide
                                             (length (players teamObj)) i range ev
                                           && is_made ev)
                                    shots) |})
       (players teamObj).

(** The body of the loop over the shots that the two by-range tables share. *)
Definition creditRange (side_of slot_of : event → JS.val) (teamSide : Z) (len : nat)
    (out : gmap string (list rangeEntry)) (ev : event) : gmap string (list rangeEntry) :=
  if negb (JS.seq (JS.Number (side_of ev)) (JS.Fin teamSide)) then out
  else
    match normalizeSlot (slot_of ev) len with
    | None => out
    | Some idx =>
        let range := getShotRange (shot_type ev) in
        if decide (is_Some (out !! range)) then
          alter (alter (bumpEntry (bool_decide (JS.String (shot_result ev) ∈ madeResults)))
                       (Z.to_nat idx))
                range out
        else out
    end.

(** The slices of a range chart as counts of the shots selected by [P]. *)
Definition rangeSlices (P : event → bool) (shots : list event) : rangeCounts :=
  {| three := length (filter (λ ev, P ev && bool_decide (getShotRange (shot_type ev) = "three"))
                             shots);
     jump := length (filter (λ ev, P ev && bool_decide (getShotRange (shot_type ev) = "jump"))
                            shots);
     paint := length (filter (λ ev, P ev && bool_decide (getShotRange (shot_type ev) = "paint"))
                             shots) |}.

(** The shots of a side. *)
Definition by_side (tside : JS.num) (ev : event) : bool :=
  JS.seq (JS.Number (attacking_team ev)) tside.

(** *** The filters of the defender shot panel *)

(** [{ value, label }] of a check box. *)
Record filterOption := { opt_value : string; opt_label : string }.

(** The three option lists of [setupDefenderFilters]. *)
Definition defenderOptions (home away : team) : list filterOption :=
  (imap (λ i p, {| opt_value := "0:" +:+ pretty i;
                   opt_label := player_name p +:+ " (" +:+ team_name home +:+ ")" |})
        (players home)
   ++ imap (λ i p, {| opt_value := "1:" +:+ pretty i;
                      opt_label := player_name p +:+ " (" +:+ team_name away +:+ ")" |})
           (players away))%list.

Definition shotTypeOptions (events : list event) : list filterOption :=
  map (λ code, {| opt_value := code;
                  opt_label := JS.or_str (JS.prop shotTypeLabel code) code |})
      (typeCodes (shotEvents events)).

Definition resultOptions : list filterOption :=
  map (λ kv, {| opt_value := kv.1; opt_label := kv.2 |}) shotResultLabel.

(** [selectedValues] right after [initMultiDropdown]: every box is ticked. *)
Definition allSelected (options : list filterOption) : gset string :=
  list_to_set (opt_value <$> options).

Fixpoint no_colon (s : string) : bool :=
  match s with
  | EmptyString => true
  | String.String c s' => negb (Ascii.eqb c ":") && no_colon s'
  end.

(** The shots defended by the player at index [i] of side [s]. *)
Definition defended_by (home away : team) (s : Z) (i : nat) (ev : event) : bool :=
  JS.seq (JS.Number (defending_team ev)) (JS.Fin s)
  && bool_decide (normalizeSlot (defender ev)
                    (length (players (getTeamBySide home away (JS.Fin s))))
                  = Some (Z.of_nat i)).

(** The shots whose defender resolves to a player of the defending team. *)
Definition defender_resolved (home away : team) (ev : event) : bool :=
  bool_decide (is_Some (normalizeSlot (defender ev)
                          (length (players (getTeamBySide home away
                                              (JS.Number (defending_team ev))))))).

Definition known_result (ev : event) : bool :=
  bool_decide (JS.String (shot_result ev) ∈ ["0"; "1"; "2"; "3"; "4"; "5"]).

(** *** Player tables and the event feed *)

(** [v === n] for a number [n]: no coercion, so only a number can match. *)
Definition strictEqNum (v : JS.val) (n : JS.num) : bool :=
  match v with
  | JS.Num m => JS.seq m n
  | _ => false
  end.

Definition eventSide (teamId : JS.val) : string :=
  if strictEqNum teamId (JS.Fin 0) then "home" else "away".

(** [comments] of an event: [None] when it is not an array. *)
Definition formatComments (comments : option (list string)) : string :=
  match comments with
  | None | Some [] => "(no commentary)"
  | Some cs => String.concat " " cs
  end.

(** An event of the feed: the fields of [event], and its comments. *)
Record feedEvent := { fe_event : event; fe_comments : option (list string) }.

(** The predicate of [data.events.filter] in [renderEvents], for the
    chosen team ("all", "home" or "away") and the search text [textVal]
    (already trimmed and in lower case); [toLowerCase] is the string
    method of the same name. *)
Definition eventShown (toLowerCase : string → string) (teamVal textVal : string)
    (fe : feedEvent) : bool :=
  let side := eventSide (attacking_team (fe_event fe)) in
  if bool_decide (teamVal ≠ "all") && bool_decide (side ≠ teamVal) then false
  else if bool_decide (textVal = "") then true
  else JS.includes
         (toLowerCase (formatComments (fe_comments fe) +:+ " "
                       +:+ event_type (fe_event fe)))
         textVal.

Definition shownEvents (toLowerCase : string → string) (teamVal textVal : string)
    (events : list feedEvent) : list feedEvent :=
  filter (λ fe, eventShown toLowerCase teamVal textVal fe) events.

(** The articles of the feed, newest first, each with its number
    [filtered.length - idx]. *)
Definition renderEvents (toLowerCase : string → string) (teamVal textVal : string)
    (events : list feedEvent) : list (nat * feedEvent) :=
  let filtered := shownEvents toLowerCase teamVal textVal events in
  imap (λ idx fe, ((length filtered - idx)%nat, fe)) (reverse filtered).

(** A row of [playerRows] with the columns the sorters read; the stats are
    integers. *)
Record scoreRow := {
  sr_team : string;
  sr_name : string;
  sr_pts : Z;
  sr_tr : Z;
  sr_ast : Z
}.

Definition cmpTopScorers (a b : scoreRow) : Z :=
  or_num (sr_pts b - sr_pts a) (sr_ast b - sr_ast a).

Definition cmpPlayersTable (a b : scoreRow) : Z :=
  or_num (or_num (sr_pts b - sr_pts a) (sr_tr b - sr_tr a)) (sr_ast b - sr_ast a).

Definition renderTopScorers (allPlayers : list scoreRow) : list scoreRow :=
  take 12 (jsSort cmpTopScorers allPlayers).

Definition renderPlayersTable (allPlayers : list scoreRow) : list scoreRow :=
  jsSort cmpPlayersTable allPlayers.

(** [String(s).padStart(2, "0")] *)
Definition padStart2 (s : string) : string :=
  match String.length s with
  | 0%nat => "00"
  | 1%nat => "0" +:+ s
  | _ => s
  end.

(** The integers that a double holds exactly: those below 2^53 in size. *)
Definition safe_integer (z : Z) : Prop := - 2 ^ 53 < z < 2 ^ 53.

(** [secsToMin]: minutes and seconds of a number of seconds; a falsy
    argument (0, NaN, null, undefined) counts as 0.  The script divides
    doubles: for a safe integer the floor of that quotient is the integer
    quotient, and the remainder is exact.  Beyond the safe integers the
    quotient is rounded before the floor is taken; the model has no answer
    there ([None]). *)
Definition secsToMin (secs : JS.val) : option string :=
  let s := match secs with
           | JS.Num (JS.Fin z) => JS.Fin z
           | JS.Num (JS.Infinity sg) => JS.Infinity sg
           | _ => JS.Fin 0
           end in
  match s with
  | JS.Fin z =>
      if decide (safe_integer z)
      then Some (pretty (z `div` 60) +:+ ":" +:+ padStart2 (pretty (Z.rem z 60)))
      else None
  | other => Some (JS.String (JS.Num other) +:+ ":" +:+ padStart2 "NaN")
  end.

(** The seconds past the minute, as [secsToMin] writes them. *)
Definition twoDigits (r : nat) : string := padStart2 (pretty (Z.of_nat r)).

(** The order of the rows shown in the player table of the offense shot
    profile: more attempts first, then by name. *)
Definition shownOrder (localeCompare : string → string → Z) (a b : playerRow) : Prop :=
  (Off.a (row_total b) < Off.a (row_total a))%nat ∨
  (Off.a (row_total b) = Off.a (row_total a) ∧ localeCompare (row_name a) (row_name b) ≤ 0).

(** Better or level by points, then assists. *)
Definition topScorerOrder (a b : scoreRow) : Prop :=
  sr_pts b < sr_pts a ∨ (sr_pts b = sr_pts a ∧ sr_ast b ≤ sr_ast a).

(** Better or level by points, then rebounds, then assists. *)
Definition playersTableOrder (a b : scoreRow) : Prop :=
  sr_pts b < sr_pts a ∨
  (sr_pts b = sr_pts a ∧
   (sr_tr b < sr_tr a ∨ (sr_tr b = sr_tr a ∧ sr_ast b ≤ sr_ast a))).

(** *** Auxiliary definitions for the Python side *)

(** The calls of a run of [generate_report] that returns. *)
Definition full_run (matchid username password : str) (n : Z) : list call :=
  [ CBBApi username password; CBoxscore n; CGetXml matchid; CParseXml;
    CGame matchid; CPlay ].

(** ** Raw slot values

    [normalizeSlot], [resolvePlayerName] and the two tables by range once
    more, with a slot being any value that the JSON payload can hold: a
    number with any finite value (a rational here, where the payload
    model above has integers only), the numbers that are not finite,
    null, an absent field (undefined), a boolean, and a string or an
    array or object, each of these with the number that [Number] reads
    from it. *)
Module Wide.

Inductive num :=
| Fin (q : Qc)
| NaN
| Infinity (negative : bool).

Inductive val :=
| Num (n : num)
| Null
| Undefined
| Bool (b : bool)
| Str (s : string) (reading : num)
| Obj (reading : num).

#[global] Instance num_eq_dec : EqDecision num.
Proof. solve_decision. Defined.
#[global] Instance val_eq_dec : EqDecision val.
Proof. solve_decision. Defined.

(** An integer among the numbers. *)
Definition of_Z (z : Z) : num := Fin (Qc_of_Z z).

(** [Number(v)]: true is 1, false and null are 0, undefined is NaN; a
    string or an object gives its reading ("3" gives 3, "" and [[]] give
    0, "x" and [{}] give NaN). *)
Definition Number (v : val) : num :=
  match v with
  | Num n => n
  | Null => of_Z 0
  | Undefined => NaN
  | Bool true => of_Z 1
  | Bool false => of_Z 0
  | Str _ n => n
  | Obj n => n
  end.

Definition isFinite (n : num) : bool :=
  match n with Fin _ => true | _ => false end.

Definition le (a b : num) : bool :=
  match a, b with
  | Fin x, Fin y => bool_decide (x ≤ y)%Qc
  | NaN, _ | _, NaN => false
  | Infinity true, _ => true
  | _, Infinity false => true
  | Infinity false, _ => false
  | Fin _, Infinity true => false
  end.
Definition ge (a b : num) : bool := le b a.

Definition seq (a b : num) : bool :=
  match a, b with
  | Fin x, Fin y => bool_decide (x = y)
  | Infinity s, Infinity t => bool_decide (s = t)
  | _, _ => false
  end.

(** [a - b] with a finite [b] *)
Definition sub (a : num) (b : Qc) : num :=
  match a with
  | Fin x => Fin (x - b)
  | other => other
  end.

(** A number that is an integer. *)
Definition is_integer (q : Qc) : bool := bool_decide (q = Qc_of_Z (Qfloor q)).

(** [arr[i]]: an element for an index 0, 1, ... of the array; undefined
    for any other number, a fraction included. *)
Definition index {A} (arr : list A) (i : num) : option A :=
  match i with
  | Fin q =>
      if is_integer q && bool_decide (0 ≤ Qfloor q)
      then arr !! Z.to_nat (Qfloor q)
      else None
  | _ => None
  end.

(** What the function returns: [None] for [null], else the number
    [n - 1]. *)
Definition normalizeSlot (rawSlot : val) (playersLen : nat) : option num :=
  let n := Number rawSlot in
  if negb (isFinite n) then None
  else if ge n (of_Z 1) && le n (of_Z (Z.of_nat playersLen)) then Some (sub n 1)
  else if seq n (of_Z 0) then None
  else None.

Definition resolvePlayerName (teamObj : option team) (rawSlot : val)
    (fallback : string) : string :=
  match teamObj with
  | None => fallback
  | Some t =>
      match normalizeSlot rawSlot (length (players t)) with
      | None => fallback
      | Some idx => JS.or_str (player_name <$> index (players t) idx) fallback
      end
  end.

(** The values of the payload model among the raw values. *)
Definition widen_num (n : JS.num) : num :=
  match n with
  | JS.Fin z => of_Z z
  | JS.NaN => NaN
  | JS.Infinity sg => Infinity sg
  end.

Definition widen (v : JS.val) : val :=
  match v with
  | JS.Num n => Num (widen_num n)
  | JS.Null => Null
  | JS.Undefined => Undefined
  end.

(** *** The tables by range over raw slots *)

Local Abbreviation payload_event := event.
Local Abbreviation payload_attacker := attacker.
Local Abbreviation payload_defender := defender.

(** A shot event with its two slots as raw values.  The fields that the
    tables by range read through [String], and the two team numbers, are
    those of the payload model: no value of theirs makes the tables
    fail. *)
Record event := { base : payload_event; attacker : val; defender : val }.

(** An event of the payload model as such an event. *)
Definition embed (ev : payload_event) : event :=
  {| base := ev; attacker := widen (payload_attacker ev);
     defender := widen (payload_defender ev) |}.

Definition shotEvents (events : list event) : list event :=
  filter (λ ev, event_type (base ev) = "shot") events.

(** [out[range][idx].a += 1], and [out[range][idx].m += 1] for a made
    shot.  Where [out[range][idx]] is undefined - [idx] is not an index of
    the array - reading its [a] is a TypeError: [None]. *)
Definition bumpAt (made : bool) (idx : num) (entries : list rangeEntry)
    : option (list rangeEntry) :=
  match idx with
  | Fin q =>
      if is_integer q && bool_decide (0 ≤ Qfloor q)
      then e ← entries !! Z.to_nat (Qfloor q);
           Some (<[Z.to_nat (Qfloor q) := bumpEntry made e]> entries)
      else None
  | _ => None
  end.

(** The body of [shotEvents.forEach] in [buildOffenseByRange] and
    [buildDefenseByRange], which differ in the two fields read:
    [side_of] and [slot_of]. *)
Definition creditRange (side_of : payload_event → JS.val) (slot_of : event → val)
    (teamSide : Z) (len : nat) (out : gmap string (list rangeEntry)) (ev : event)
    : option (gmap string (list rangeEntry)) :=
  if negb (JS.seq (JS.Number (side_of (base ev))) (JS.Fin teamSide)) then Some out
  else
    match normalizeSlot (slot_of ev) len with
    | None => Some out
    | Some idx =>
        let range := getShotRange (shot_type (base ev)) in
        match out !! range with
        | None => Some out
        | Some entries =>
            entries' ← bumpAt (bool_decide (JS.String (shot_result (base ev)) ∈ madeResults))
                              idx entries;
            Some (<[range := entries']> out)
        end
    end.

(** The table, or [None] when the loop stops with a TypeError. *)
Definition buildOffenseByRange (home away : team) (teamSide : Z) (events : list event)
    : option (gmap string (list rangeEntry)) :=
  let teamObj := getTeamBySide home away (JS.Fin teamSide) in
  foldl (λ acc ev,
           out ← acc;
           creditRange attacking_team attacker teamSide (length (players teamObj)) out ev)
        (Some (emptyByRange teamObj)) (shotEvents events).

Definition buildDefenseByRange (home away : team) (teamSide : Z) (events : list event)
    : option (gmap string (list rangeEntry)) :=
  let teamObj := getTeamBySide home away (JS.Fin teamSide) in
  foldl (λ acc ev,
           out ← acc;
           creditRange defending_team defender teamSide (length (players teamObj)) out ev)
        (Some (emptyByRange teamObj)) (shotEvents events).

(** A shot of the side [teamSide] whose slot is resolved to a number that
    is not an integer. *)
Definition fractional_slot (side_of : payload_event → JS.val) (slot_of : event → val)
    (teamSide : Z) (len : nat) (ev : event) : bool :=
  JS.seq (JS.Number (side_of (base ev))) (JS.Fin teamSide)
  && match normalizeSlot (slot_of ev) len with
     | Some (Fin q) => negb (is_integer q)
     | _ => false
     end.

(** The shots a table by range credits to the player at index [i], in
    the range [range]. *)
Definition credited (side_of : payload_event → JS.val) (slot_of : event → val)
    (teamSide : Z) (len i : nat) (range : string) (ev : event) : bool :=
  JS.seq (JS.Number (side_of (base ev))) (JS.Fin teamSide)
  && bool_decide (normalizeSlot (slot_of ev) len = Some (of_Z (Z.of_nat i)))
  && bool_decide (getShotRange (shot_type (base ev)) = range).

(** The entries of one range of a table by range, as counts of shots. *)
Definition rangeEntries (side_of : payload_event → JS.val) (slot_of : event → val)
    (teamSide : Z) (teamObj : team) (range : string) (shots : list event)
    : list rangeEntry :=
  imap (λ i p,
          {| re_name := player_name p;
             re_a := length (filter (λ ev, credited side_of slot_of teamSide
                                             (length (players teamObj)) i range ev)
                                    shots);
             re_m := length (filter (λ ev, credited side_of slot_of teamSide
                                             (length (players teamObj)) i range ev
                                           && is_made (base ev))
                                    shots) |})
       (players teamObj).

(** The table by range as counts of shots. *)
Definition tableOf (side_of : payload_event → JS.val) (slot_of : event → val)
    (teamSide : Z) (teamObj : team) (shots : list event)
    : gmap string (list rangeEntry) :=
  list_to_map
    (map (λ range, (range, rangeEntries side_of slot_of teamSide teamObj range shots))
         ranges).

End Wide.

(** The number 2.5. *)
Definition two_and_a_half : Wide.num := Wide.Fin (Q2Qc (5 # 2)).

(** The number 1.5. *)
Definition one_and_a_half : Wide.num := Wide.Fin (Q2Qc (3 # 2)).

(** The blocked shot with its attacker slot read as 2.5. *)
Definition fractional_shot : Wide.event :=
  {| Wide.base := blocked_shot; Wide.attacker := Wide.Num two_and_a_half;
     Wide.defender := Wide.Num (Wide.of_Z 1) |}.

(** * Properties *)

(** ** The definitions on concrete inputs *)

Example periodFromClock_719 : periodFromClock (JS.Num (JS.Fin 719)) = "Q1".
Proof. reflexivity. Qed.

Example periodFromClock_null : periodFromClock JS.Null = "?".
Proof. reflexivity. Qed.

Example getShotRange_204 : getShotRange (JS.Num (JS.Fin 204)) = "jump".
Proof. by vm_compute. Qed.

Example getShotRange_999 : getShotRange (JS.Num (JS.Fin 999)) = "paint".
Proof. by vm_compute. Qed.

Example addOffStat_blocked :
  addOffStat zeroOffCell (JS.Num (JS.Fin 3))
  = {| Off.a := 1; Off.m := 0; Off.mi := 0; Off.b := 1 |}.
Proof. by vm_compute. Qed.

Example addOffStat_unknown :
  addOffStat zeroOffCell (JS.Num (JS.Fin 7))
  = {| Off.a := 1; Off.m := 0; Off.mi := 1; Off.b := 0 |}.
Proof. by vm_compute. Qed.

Example normalizeSlot_3_of_5 : normalizeSlot (JS.Num (JS.Fin 3)) 5 = Some 2.
Proof. reflexivity. Qed.

Example normalizeSlot_6_of_5 : normalizeSlot (JS.Num (JS.Fin 6)) 5 = None.
Proof. reflexivity. Qed.

Example normalizeSlot_undefined : normalizeSlot JS.Undefined 5 = None.
Proof. reflexivity. Qed.

Example typeCodes_two_shots : typeCodes [blocked_shot; unresolved_shot] = ["100"; "401"].
Proof. by vm_compute. Qed.

Example team_chart_counts_unresolved :
  teamRangeCounts (JS.Fin 0) [blocked_shot; unresolved_shot]
  = {| three := 1; jump := 0; paint := 1 |}.
Proof. by vm_compute. Qed.

Example stats_dict_small :
  keys (stats_dict Z VInt (four_sheets 2 0 3 0 5)) = ["q1"; "q2"; "q3"; "q4"; "total"].
Proof. by vm_compute. Qed.

Example refused_report_good_form_log :
  (refused_report good_form).1 = [CBBApi (lit "bob") (lit "secret")].
Proof. by vm_compute. Qed.

Example strip_username : strip ascii_space (lit " bob ") = lit "bob".
Proof. by vm_compute. Qed.

(** ** Decimal strings *)

Lemma pretty_N_char_decimal (x : N) : decimal_char (pretty_N_char x) = true.
Proof. unfold pretty_N_char. by repeat case_match. Qed.

Lemma pretty_N_go_decimal (x : N) (s : string) :
  decimal_string s = true → decimal_string (pretty_N_go x s) = true.
Proof.
  revert s. induction (N.lt_wf_0 x) as [x _ IH]; intros s Hs.
  destruct (decide (x = 0%N)) as [->|Hx].
  - by rewrite pretty_N_go_0.
  - rewrite pretty_N_go_step by lia.
    apply IH; [apply N.div_lt; lia|].
    simpl. by rewrite pretty_N_char_decimal, Hs.
Qed.

Lemma pretty_N_decimal (x : N) : decimal_string (pretty x) = true.
Proof.
  unfold pretty, pretty_N. case_decide; [done|].
  by apply pretty_N_go_decimal.
Qed.

Lemma pretty_Z_decimal (z : Z) : decimal_string (pretty z) = true.
Proof.
  destruct z as [|p|p]; [done|apply pretty_N_decimal|].
  unfold pretty, pretty_Z. simpl.
  apply (pretty_N_decimal (N.pos p)).
Qed.

(** [String] sends no other value to the decimal string of an integer. *)
Lemma String_is_code (v : JS.val) (k : Z) :
  JS.String v = pretty k ↔ v = JS.Num (JS.Fin k).
Proof.
  split; [|by intros ->].
  pose proof (pretty_Z_decimal k) as Hk.
  destruct v as [[z| |[]]| |]; simpl; intros H; rewrite <- H in Hk; try discriminate.
  by apply (inj pretty) in H as ->.
Qed.

Lemma String_made (v : JS.val) :
  JS.String v ∈ madeResults ↔ outcome_of v = Made.
Proof.
  unfold madeResults.
  rewrite !elem_of_union, !elem_of_singleton.
  rewrite (String_is_code v 1), (String_is_code v 2), (String_is_code v 5).
  split.
  - by intros [[->| ->]| ->].
  - destruct v as [[[|p|p]| |]| |]; try done.
    unfold outcome_of.
    repeat (case_match; try done); subst; auto.
Qed.

Lemma String_blocked (v : JS.val) :
  JS.String v ∈ blockedResults ↔ outcome_of v = Blocked.
Proof.
  unfold blockedResults. rewrite elem_of_singleton, (String_is_code v 3).
  split; [by intros ->|].
  destruct v as [[[|p|p]| |]| |]; try done.
  unfold outcome_of. repeat (case_match; try done); subst; auto.
Qed.

(** ** Shot outcomes (C1) *)

Lemma addOffStat_credit (cell : offCell) (rc : JS.val) :
  addOffStat cell rc = credit (outcome_of rc) cell.
Proof.
  unfold addOffStat.
  destruct (decide (JS.String rc ∈ madeResults)) as [Hm|Hm].
  { apply String_made in Hm. by rewrite Hm. }
  destruct (decide (JS.String rc ∈ blockedResults)) as [Hb|Hb].
  { apply String_blocked in Hb. by rewrite Hb. }
  rewrite String_made in Hm. rewrite String_blocked in Hb.
  destruct (outcome_of rc); [done| |done].
  by destruct (decide (JS.String rc ∈ missedResults)).
Qed.

Lemma resultIn_made (ev : event) :
  resultIn ["1"; "2"; "5"] ev ↔ has_outcome Made ev.
Proof.
  unfold resultIn, has_outcome. rewrite !bool_decide_spec.
  rewrite <- String_made. unfold madeResults.
  rewrite !elem_of_cons, elem_of_nil, !elem_of_union, !elem_of_singleton. tauto.
Qed.

Lemma result_3_blocked (ev : event) :
  bool_decide (JS.String (shot_result ev) = "3") ↔ has_outcome Blocked ev.
Proof.
  unfold has_outcome. rewrite !bool_decide_spec.
  rewrite <- String_blocked. unfold blockedResults.
  by rewrite elem_of_singleton.
Qed.

Lemma resultIn_missed (ev : event) :
  resultIn ["0"; "3"; "4"] ev ↔
  has_code 0 ev || has_code 4 ev || has_outcome Blocked ev.
Proof.
  unfold resultIn, has_code, has_outcome.
  rewrite !orb_True, !bool_decide_spec.
  rewrite <- String_blocked, <- (String_is_code _ 0), <- (String_is_code _ 4).
  unfold blockedResults.
  rewrite !elem_of_cons, elem_of_nil, !elem_of_singleton.
  change (pretty 0) with "0". change (pretty 4) with "4". tauto.
Qed.

Lemma length_filter_or {A} (P Q : A → bool) (l : list A) :
  (∀ x, P x → Q x → False) →
  length (filter (λ x, P x || Q x) l)
  = (length (filter (λ x, P x) l) + length (filter (λ x, Q x) l))%nat.
Proof.
  intros Hdisj. induction l as [|x l IH]; [done|].
  rewrite !filter_cons.
  specialize (Hdisj x).
  destruct (P x), (Q x); simpl in *; try (exfalso; by apply Hdisj);
    repeat case_decide; simpl; try done; try lia; naive_solver.
Qed.

Lemma length_filter_iff {A} (P Q : A → bool) (l : list A) :
  (∀ x, P x ↔ Q x) →
  length (filter (λ x, P x) l) = length (filter (λ x, Q x) l).
Proof. intros H. f_equal. by apply list_filter_iff. Qed.

(** C1 (as amended): the offense shot profile credits every shot result to
    exactly one bucket - made for 1, 2, 5, blocked for 3, missed for 0, 4
    and every other code - together with one attempt.  The defender shot
    panel counts made for 1, 2, 5 and blocked for 3, and its missed count
    covers the codes 0, 4 and the blocked shots as well. *)
Theorem shot_result_buckets (cell : offCell) (rc : JS.val) (home away : team)
    (selectedDefenders selectedShotTypes selectedResults : gset string)
    (events : list event) :
  let panel := renderDefenderShotPanel home away selectedDefenders
                 selectedShotTypes selectedResults events in
  addOffStat cell rc = credit (outcome_of rc) cell ∧
  ds_madeCount panel = length (filter (λ ev, has_outcome Made ev) (ds_filtered panel)) ∧
  ds_blockedCount panel
    = length (filter (λ ev, has_outcome Blocked ev) (ds_filtered panel)) ∧
  ds_missedCount panel
    = (length (filter (λ ev, has_code 0 ev || has_code 4 ev) (ds_filtered panel))
       + ds_blockedCount panel)%nat.
Proof.
  intros panel. split; [apply addOffStat_credit|].
  unfold panel, renderDefenderShotPanel; simpl.
  split; [apply length_filter_iff, resultIn_made|].
  split; [apply length_filter_iff, result_3_blocked|].
  rewrite (length_filter_iff _ _ _ resultIn_missed).
  rewrite (length_filter_iff _ _ _ result_3_blocked).
  apply (length_filter_or (λ ev, has_code 0 ev || has_code 4 ev)
                          (λ ev, has_outcome Blocked ev)).
  intros ev. unfold has_code, has_outcome.
  rewrite orb_True, !bool_decide_spec. by intros [->| ->].
Qed.

(** One blocked shot (code 3) in the defender shot panel is counted as
    blocked and as missed. *)
Lemma blocked_shot_counted_twice :
  ds_blockedCount (renderDefenderShotPanel (one_man "H") (one_man "A") ∅ ∅ ∅ [blocked_shot])
    = 1%nat ∧
  ds_missedCount (renderDefenderShotPanel (one_man "H") (one_man "A") ∅ ∅ ∅ [blocked_shot])
    = 1%nat.
Proof. by vm_compute. Qed.

(** ** Slot resolution (C2) *)

Lemma normalizeSlot_Some (s : JS.val) (N : nat) (i : Z) :
  normalizeSlot s N = Some i ↔
  ∃ z, JS.Number s = JS.Fin z ∧ 1 ≤ z ≤ Z.of_nat N ∧ i = z - 1.
Proof.
  unfold normalizeSlot.
  destruct (JS.Number s) as [z| |sg]; simpl;
    [|split; [done|by intros (?&?&?)]..].
  unfold JS.ge, JS.le.
  destruct (bool_decide_reflect (1 ≤ z)), (bool_decide_reflect (z ≤ Z.of_nat N)); simpl.
  - split; [intros [= <-]; eauto|]. by intros (?&[= <-]&?&->).
  - case_match; (split; [done|intros (?&[= <-]&?&?); lia]).
  - case_match; (split; [done|intros (?&[= <-]&?&?); lia]).
  - case_match; (split; [done|intros (?&[= <-]&?&?); lia]).
Qed.

Lemma normalizeSlot_range (s : JS.val) (N : nat) (i : Z) :
  normalizeSlot s N = Some i → 0 ≤ i < Z.of_nat N.
Proof. rewrite normalizeSlot_Some. intros (z&_&?&->). lia. Qed.

Lemma Qfloor_of_Z (z : Z) : Qfloor (Qc_of_Z z) = z.
Proof. apply Qfloor_Z. Qed.

Lemma is_integer_of_Z (z : Z) : Wide.is_integer (Qc_of_Z z) = true.
Proof.
  unfold Wide.is_integer. apply bool_decide_eq_true. by rewrite Qfloor_of_Z.
Qed.

Lemma is_integer_spec (q : Qc) : Wide.is_integer q = true ↔ ∃ z, q = Qc_of_Z z.
Proof.
  unfold Wide.is_integer. rewrite bool_decide_eq_true. split; [eauto|].
  intros [z ->]. by rewrite Qfloor_of_Z.
Qed.

Lemma Wide_index_of_Z {A} (arr : list A) (z : Z) :
  Wide.index arr (Wide.of_Z z) = if decide (0 ≤ z) then arr !! Z.to_nat z else None.
Proof.
  unfold Wide.index, Wide.of_Z. rewrite is_integer_of_Z, Qfloor_of_Z. simpl.
  destruct (decide (0 ≤ z)).
  - by rewrite bool_decide_eq_true_2.
  - by rewrite bool_decide_eq_false_2.
Qed.

Lemma Wide_index_fraction {A} (arr : list A) (i : Wide.num) :
  (∀ z, i ≠ Wide.of_Z z) → Wide.index arr i = None.
Proof.
  intros Hi. destruct i as [q| |sg]; [|done..]. unfold Wide.index.
  destruct (Wide.is_integer q) eqn:E; [|done].
  apply is_integer_spec in E as [z ->]. by destruct (Hi z).
Qed.

Lemma Wide_normalizeSlot_Some (s : Wide.val) (N : nat) (i : Wide.num) :
  Wide.normalizeSlot s N = Some i ↔
  ∃ n : Qc, Wide.Number s = Wide.Fin n ∧ (1 ≤ n)%Qc ∧ (n ≤ Qc_of_Z (Z.of_nat N))%Qc
            ∧ i = Wide.Fin (n - 1)%Qc.
Proof.
  unfold Wide.normalizeSlot.
  destruct (Wide.Number s) as [q| |sg]; simpl;
    [|split; [done|by intros (?&?&?)]..].
  unfold Wide.ge, Wide.le, Wide.of_Z. rewrite Z2Qc_inj_1.
  destruct (bool_decide_reflect (1 ≤ q)%Qc),
           (bool_decide_reflect (q ≤ Qc_of_Z (Z.of_nat N))%Qc); simpl.
  - split; [intros [= <-]; eauto 10|]. by intros (?&[= <-]&?&?&->).
  - case_match; (split; [done|by intros (?&[= <-]&?&?&?)]).
  - case_match; (split; [done|by intros (?&[= <-]&?&?&?)]).
  - case_match; (split; [done|by intros (?&[= <-]&?&?&?)]).
Qed.

Lemma Wide_normalizeSlot_integer (s : Wide.val) (N : nat) (z : Z) :
  Wide.Number s = Wide.of_Z z →
  Wide.normalizeSlot s N
  = if decide (1 ≤ z ≤ Z.of_nat N) then Some (Wide.of_Z (z - 1)) else None.
Proof.
  intros Hs. case_decide as Hz.
  - apply Wide_normalizeSlot_Some. exists (Qc_of_Z z).
    rewrite <- Z2Qc_inj_1, <- !Z2Qc_inj_le, <- Z2Qc_inj_sub.
    repeat split; [done|lia..].
  - destruct (Wide.normalizeSlot s N) as [i|] eqn:E; [|done].
    apply Wide_normalizeSlot_Some in E as (n & Hn & H1 & H2 & _).
    rewrite Hs in Hn. injection Hn as <-.
    rewrite <- Z2Qc_inj_1, <- Z2Qc_inj_le in H1. rewrite <- Z2Qc_inj_le in H2. lia.
Qed.

(** On the values of the payload model the two embeddings agree. *)
Lemma Number_widen (v : JS.val) : Wide.Number (Wide.widen v) = Wide.widen_num (JS.Number v).
Proof. by destruct v. Qed.

Lemma normalizeSlot_widen (v : JS.val) (N : nat) :
  Wide.normalizeSlot (Wide.widen v) N = Wide.of_Z <$> normalizeSlot v N.
Proof.
  destruct (JS.Number v) as [z| |sg] eqn:Hv.
  - rewrite (Wide_normalizeSlot_integer _ _ z) by (by rewrite Number_widen, Hv).
    case_decide as Hz.
    + assert (normalizeSlot v N = Some (z - 1)) as ->; [|done].
      apply normalizeSlot_Some. eauto.
    + destruct (normalizeSlot v N) as [i|] eqn:E; [|done].
      apply normalizeSlot_Some in E as (z' & Hz' & ? & _). rewrite Hv in Hz'.
      injection Hz' as <-. lia.
  - unfold Wide.normalizeSlot, normalizeSlot. by rewrite Number_widen, Hv.
  - unfold Wide.normalizeSlot, normalizeSlot. by rewrite Number_widen, Hv.
Qed.

Lemma resolvePlayerName_widen (t : option team) (v : JS.val) (fallback : string) :
  Wide.resolvePlayerName t (Wide.widen v) fallback = resolvePlayerName t v fallback.
Proof.
  destruct t as [t|]; [|done]. unfold Wide.resolvePlayerName, resolvePlayerName.
  rewrite normalizeSlot_widen.
  destruct (normalizeSlot v (length (players t))) as [i|]; [|done].
  cbn [fmap option_fmap option_map]. rewrite Wide_index_of_Z.
  unfold JS.index. by destruct (decide (0 ≤ i)).
Qed.

(** C2 (as amended): slot resolution reads the raw value through
    [Number].  It gives [n - 1] exactly when that number [n] is finite
    and between 1 and N, and null otherwise: for 0 (also null and false,
    whose number is 0), for negative numbers, numbers above N, NaN and
    the infinities.  When [n] is an integer in 1..N the result is the
    roster index [n - 1]; when [n] is a fraction the result is no roster
    index, no player is read and [resolvePlayerName] answers with the
    fallback, as it does for null.  Slot 3 of a roster with at least
    three players names the player at index 2. *)
Theorem normalizeSlot_resolves (s : Wide.val) (N : nat) (t : team) (fallback : string) :
  (∀ i, Wide.normalizeSlot s N = Some i ↔
        ∃ n : Qc, Wide.Number s = Wide.Fin n ∧ (1 ≤ n)%Qc ∧ (n ≤ Qc_of_Z (Z.of_nat N))%Qc
                  ∧ i = Wide.Fin (n - 1)%Qc) ∧
  (∀ z : Z, Wide.Number s = Wide.of_Z z → 1 ≤ z ≤ Z.of_nat N →
            Wide.normalizeSlot s N = Some (Wide.of_Z (z - 1))) ∧
  (Wide.Number s = Wide.of_Z 0 → Wide.normalizeSlot s N = None) ∧
  (Wide.normalizeSlot s (length (players t)) = None →
   Wide.resolvePlayerName (Some t) s fallback = fallback) ∧
  (∀ i, Wide.normalizeSlot s (length (players t)) = Some i →
        (∀ z : Z, i ≠ Wide.of_Z z) →
        Wide.index (players t) i = None ∧
        Wide.resolvePlayerName (Some t) s fallback = fallback) ∧
  (∀ p, players t !! 2%nat = Some p → player_name p ≠ "" →
        Wide.normalizeSlot (Wide.Num (Wide.of_Z 3)) (length (players t))
        = Some (Wide.of_Z 2) ∧
        Wide.resolvePlayerName (Some t) (Wide.Num (Wide.of_Z 3)) fallback = player_name p).
Proof.
  split; [intros i; apply Wide_normalizeSlot_Some|].
  split.
  { intros z Hs Hz. rewrite (Wide_normalizeSlot_integer _ _ z Hs). by rewrite decide_True. }
  split.
  { intros Hs. rewrite (Wide_normalizeSlot_integer _ _ 0 Hs). by rewrite decide_False by lia. }
  split.
  { intros Hnone. unfold Wide.resolvePlayerName. by rewrite Hnone. }
  split.
  { intros i Hi Hfrac. pose proof (Wide_index_fraction (players t) i Hfrac) as Hidx.
    split; [done|]. unfold Wide.resolvePlayerName. by rewrite Hi, Hidx. }
  intros p Hp Hname.
  assert (Wide.normalizeSlot (Wide.Num (Wide.of_Z 3)) (length (players t))
          = Some (Wide.of_Z 2)) as E.
  { rewrite (Wide_normalizeSlot_integer _ _ 3) by done.
    apply lookup_lt_Some in Hp. by rewrite decide_True by lia. }
  split; [done|].
  unfold Wide.resolvePlayerName. rewrite E, Wide_index_of_Z. simpl.
  change (Z.to_nat 2) with 2%nat. rewrite Hp. simpl.
  by destruct (player_name p).
Qed.

Lemma normalizeSlot_resolves_witness :
  Wide.normalizeSlot (Wide.Num (Wide.of_Z 2)) 3 = Some (Wide.of_Z 1) ∧
  Wide.normalizeSlot (Wide.Num (Wide.of_Z 0)) 3 = None ∧
  Wide.resolvePlayerName (Some trio) (Wide.Num (Wide.of_Z 3)) "#3" = "C".
Proof.
  destruct (normalizeSlot_resolves (Wide.Num (Wide.of_Z 2)) 3 trio "#2")
    as (_ & H2 & _).
  destruct (normalizeSlot_resolves (Wide.Num (Wide.of_Z 0)) 3 trio "#0")
    as (_ & _ & H3 & _).
  destruct (normalizeSlot_resolves (Wide.Num (Wide.of_Z 3)) 3 trio "#3")
    as (_ & _ & _ & _ & _ & H6).
  split; [apply (H2 2); [reflexivity|lia]|].
  split; [apply H3; reflexivity|].
  apply (H6 {| player_name := "C"; player_starter := false |});
    [reflexivity|discriminate].
Defined.

(** Raw values that are not slot numbers and are resolved all the same:
    true is slot 1 and the string "3" is slot 3; and 2.5, between 1 and 3,
    gives 1.5, at which the roster has no player. *)
Lemma raw_slots_that_resolve :
  Wide.normalizeSlot (Wide.Bool true) 5 = Some (Wide.of_Z 0) ∧
  Wide.normalizeSlot (Wide.Str "3" (Wide.of_Z 3)) 5 = Some (Wide.of_Z 2) ∧
  Wide.normalizeSlot (Wide.Num two_and_a_half) 3 = Some one_and_a_half ∧
  Wide.index (players trio) one_and_a_half = None.
Proof.
  split; [by rewrite (Wide_normalizeSlot_integer _ _ 1)|].
  split; [by rewrite (Wide_normalizeSlot_integer _ _ 3)|].
  split.
  - apply Wide_normalizeSlot_Some. exists (Q2Qc (5 # 2)).
    repeat split; by vm_compute.
  - apply Wide_index_fraction. intros z Hz. discriminate Hz.
Qed.

(** ** Period labels (C4) *)

Lemma periodFromClock_Fin (g : Z) :
  periodFromClock (JS.Num (JS.Fin g)) =
    if decide (g < 0) then "End"
    else if decide (g < 720) then "Q1"
    else if decide (g < 1440) then "Q2"
    else if decide (g < 2160) then "Q3"
    else if decide (g < 2880) then "Q4"
    else "OT".
Proof.
  unfold periodFromClock; simpl.
  repeat (case_bool_decide; case_decide; try lia; try done).
Qed.

(** C4 (as amended): for an integer gameclock the label is Q1 on [0,720),
    Q2 on [720,1440), Q3 on [1440,2160), Q4 on [2160,2880), and the one
    label OT for every clock from 2880 on. *)
Theorem periodFromClock_quarters (g : Z) :
  (periodFromClock (JS.Num (JS.Fin g)) = "Q1" ↔ 0 ≤ g < 720) ∧
  (periodFromClock (JS.Num (JS.Fin g)) = "Q2" ↔ 720 ≤ g < 1440) ∧
  (periodFromClock (JS.Num (JS.Fin g)) = "Q3" ↔ 1440 ≤ g < 2160) ∧
  (periodFromClock (JS.Num (JS.Fin g)) = "Q4" ↔ 2160 ≤ g < 2880) ∧
  (periodFromClock (JS.Num (JS.Fin g)) = "OT" ↔ 2880 ≤ g).
Proof.
  rewrite periodFromClock_Fin.
  repeat case_decide; repeat split; intros; try discriminate; try lia; done.
Qed.

(** No overtime length separates successive overtime periods: the clocks
    2880 and 2880 + L lie in different periods of length L and carry the
    same label. *)
Lemma overtime_periods_not_distinct :
  ¬ ∃ L : Z, 0 < L ∧
      ∀ g1 g2 : Z, 2880 ≤ g1 → 2880 ≤ g2 →
        (periodFromClock (JS.Num (JS.Fin g1)) = periodFromClock (JS.Num (JS.Fin g2))
         ↔ (g1 - 2880) `div` L = (g2 - 2880) `div` L).
Proof.
  intros (L & HL & H).
  specialize (H 2880 (2880 + L)).
  rewrite !periodFromClock_Fin in H.
  repeat case_decide; try lia.
  destruct H as [H _]; [lia..|].
  specialize (H eq_refl).
  replace (2880 + L - 2880) with (1 * L) in H by lia.
  rewrite Z.div_mul in H by lia. simpl in H. rewrite Z.div_0_l in H by lia. lia.
Qed.

(** ** Shot ranges (C8) *)

Lemma getShotRange_total (code : JS.val) :
  getShotRange code ∈ ["three"; "jump"; "paint"].
Proof.
  unfold getShotRange. simpl.
  repeat case_match; rewrite !elem_of_cons; auto.
Qed.

(** C8: the range is computed from the shot type code alone and is always
    one of three, jump, paint; the codes 100..105 give three, 200..204
    give jump, and 401..411 give paint. *)
Theorem getShotRange_by_code (code : JS.val) (z : Z) :
  getShotRange code ∈ ["three"; "jump"; "paint"] ∧
  (100 ≤ z ≤ 105 → getShotRange (JS.Num (JS.Fin z)) = "three") ∧
  (200 ≤ z ≤ 204 → getShotRange (JS.Num (JS.Fin z)) = "jump") ∧
  (401 ≤ z ≤ 411 → getShotRange (JS.Num (JS.Fin z)) = "paint").
Proof.
  split; [apply getShotRange_total|].
  split; [|split].
  - intros Hz.
    assert (z = 100 ∨ z = 101 ∨ z = 102 ∨ z = 103 ∨ z = 104 ∨ z = 105)
      as Hcase by lia.
    repeat (destruct Hcase as [->|Hcase]; [by vm_compute|]). by subst.
  - intros Hz.
    assert (z = 200 ∨ z = 201 ∨ z = 202 ∨ z = 203 ∨ z = 204) as Hcase by lia.
    repeat (destruct Hcase as [->|Hcase]; [by vm_compute|]). by subst.
  - intros Hz.
    assert (z = 401 ∨ z = 402 ∨ z = 403 ∨ z = 404 ∨ z = 405 ∨ z = 406 ∨ z = 407
            ∨ z = 408 ∨ z = 409 ∨ z = 410 ∨ z = 411) as Hcase by lia.
    repeat (destruct Hcase as [->|Hcase]; [by vm_compute|]). by subst.
Qed.

Lemma getShotRange_by_code_witness :
  getShotRange (JS.Num (JS.Fin 103)) = "three" ∧
  getShotRange (JS.Num (JS.Fin 202)) = "jump" ∧
  getShotRange (JS.Num (JS.Fin 407)) = "paint".
Proof.
  split; [|split].
  - apply (getShotRange_by_code JS.Null 103). lia.
  - apply (getShotRange_by_code JS.Null 202). lia.
  - apply (getShotRange_by_code JS.Null 407). lia.
Defined.

(** ** The offense shot profile (C3) *)

Lemma cell_eq (x y : offCell) :
  Off.a x = Off.a y → Off.m x = Off.m y → Off.mi x = Off.mi y → Off.b x = Off.b y →
  x = y.
Proof. destruct x, y; simpl; congruence. Qed.

Lemma addCell_comm (x y : offCell) : addCell x y = addCell y x.
Proof. apply cell_eq; simpl; lia. Qed.

Lemma addCell_assoc (x y z : offCell) :
  addCell x (addCell y z) = addCell (addCell x y) z.
Proof. apply cell_eq; simpl; lia. Qed.

Lemma addCell_zero_l (x : offCell) : addCell zeroOffCell x = x.
Proof. by apply cell_eq. Qed.

Lemma addCell_zero_r (x : offCell) : addCell x zeroOffCell = x.
Proof. apply cell_eq; simpl; lia. Qed.

Lemma credit_addCell (o : outcome) (x : offCell) :
  credit o x = addCell x (credit o zeroOffCell).
Proof. destruct o; apply cell_eq; simpl; lia. Qed.

Lemma foldl_addCell {A} (f : A → offCell) (init : offCell) (l : list A) :
  foldl (λ out x, addCell out (f x)) init l = addCell init (cellSum (map f l)).
Proof.
  revert init. induction l as [|x l IH]; intros init; simpl.
  - by rewrite addCell_zero_r.
  - by rewrite IH, addCell_assoc.
Qed.

Lemma foldl_pointwise {A B} (f g : A → B → A) (init : A) (l : list B) :
  (∀ x y, f x y = g x y) → foldl f init l = foldl g init l.
Proof.
  intros H. revert init. induction l as [|y l IH]; intros init; simpl; [done|].
  by rewrite H, IH.
Qed.

Lemma tally_cellSum (shots : list event) : tally shots = cellSum (map unitCell shots).
Proof.
  unfold tally.
  rewrite (foldl_pointwise _ (λ out ev, addCell out (unitCell ev))).
  - by rewrite foldl_addCell, addCell_zero_l.
  - intros cell ev. by rewrite addOffStat_credit, credit_addCell.
Qed.

Lemma cellSum_filter {A} (P : A → bool) (f : A → offCell) (l : list A) :
  cellSum (map f (filter (λ x, P x) l))
  = cellSum (map (λ x, if P x then f x else zeroOffCell) l).
Proof.
  induction l as [|x l IH]; [done|].
  rewrite filter_cons. simpl. destruct (P x); simpl.
  - by rewrite IH.
  - by rewrite IH, addCell_zero_l.
Qed.

Lemma cellSum_add {A} (f g : A → offCell) (l : list A) :
  cellSum (map (λ x, addCell (f x) (g x)) l)
  = addCell (cellSum (map f l)) (cellSum (map g l)).
Proof.
  induction l as [|x l IH]; simpl; [by rewrite addCell_zero_l|].
  rewrite IH. apply cell_eq; simpl; lia.
Qed.

Lemma cellSum_zero {A} (l : list A) :
  cellSum (map (λ _, zeroOffCell) l) = zeroOffCell.
Proof. induction l as [|x l IH]; simpl; [done|]. by rewrite IH. Qed.

Lemma cellSum_ext {A} (f g : A → offCell) (l : list A) :
  (∀ x, x ∈ l → f x = g x) → cellSum (map f l) = cellSum (map g l).
Proof.
  intros H. f_equal. apply map_ext_in. intros x Hx. apply H.
  by apply list_elem_of_In.
Qed.

Lemma cellSum_swap {A B} (F : A → B → offCell) (la : list A) (lb : list B) :
  cellSum (map (λ x, cellSum (map (F x) lb)) la)
  = cellSum (map (λ y, cellSum (map (λ x, F x y) la)) lb).
Proof.
  induction la as [|x la IH]; simpl.
  - by rewrite cellSum_zero.
  - by rewrite IH, <- cellSum_add.
Qed.

(** A sum with one non-zero term: the one at the key [k]. *)
Lemma cellSum_single {K} `{EqDecision K} (k : K) (u : offCell) (l : list K) :
  NoDup l →
  cellSum (map (λ x, if decide (x = k) then u else zeroOffCell) l)
  = if decide (k ∈ l) then u else zeroOffCell.
Proof.
  induction 1 as [|x l Hx _ IH]; simpl; [done|].
  rewrite IH.
  destruct (decide (x = k)) as [->|Hne].
  - destruct (decide (k ∈ l)); [done|]. rewrite addCell_zero_r.
    destruct (decide (k ∈ k :: l)) as [|Hn]; [done|]. destruct Hn. left.
  - rewrite addCell_zero_l.
    destruct (decide (k ∈ l)), (decide (k ∈ x :: l)) as [Hin|Hin]; try done.
    + destruct Hin. by right.
    + apply elem_of_cons in Hin. by destruct Hin as [->|?].
Qed.

Lemma zeroCounts_lookup (codes : list string) (c : string) :
  zeroCounts codes !! c = if decide (c ∈ codes) then Some zeroOffCell else None.
Proof.
  unfold zeroCounts. induction codes as [|c0 codes IH]; simpl; [done|].
  destruct (decide (c0 = c)) as [->|Hne].
  - rewrite lookup_insert_eq. rewrite decide_True; [done|left].
  - rewrite lookup_insert_ne by done. rewrite IH.
    destruct (decide (c ∈ codes)), (decide (c ∈ c0 :: codes)) as [Hin|Hin]; try done.
    + destruct Hin. by right.
    + apply elem_of_cons in Hin. by destruct Hin as [->|?].
Qed.

Lemma countShot_lookup (side : Z) (len i : nat) (counts : gmap string offCell)
    (ev : event) (c : string) :
  countShot side len i counts ev !! c
  = (λ cell, if attributed side len i ev && has_type c ev
             then addOffStat cell (shot_result ev) else cell) <$> counts !! c.
Proof.
  unfold countShot, attributed, has_type.
  destruct (JS.seq _ _); simpl; [|by destruct (counts !! c)].
  destruct (normalizeSlot (attacker ev) len) as [idx|] eqn:E; simpl.
  2:{ by destruct (counts !! c). }
  destruct (decide (idx = Z.of_nat i)) as [->|Hne].
  2:{ rewrite bool_decide_eq_false_2 by congruence. by destruct (counts !! c). }
  rewrite bool_decide_eq_true_2 by done. simpl.
  destruct (decide (JS.String (shot_type ev) = c)) as [->|Hc].
  - rewrite bool_decide_eq_true_2 by done.
    destruct (counts !! c) eqn:Ec; simpl.
    + by rewrite lookup_insert_eq.
    + by rewrite Ec.
  - rewrite bool_decide_eq_false_2 by done.
    destruct (counts !! JS.String (shot_type ev)) eqn:Ec; simpl.
    + rewrite lookup_insert_ne by done. by destruct (counts !! c).
    + by destruct (counts !! c).
Qed.

Lemma foldl_countShot_lookup (side : Z) (len i : nat) (shots : list event)
    (counts : gmap string offCell) (c : string) :
  foldl (countShot side len i) counts shots !! c
  = (λ cell, foldl (λ cell ev, addOffStat cell (shot_result ev)) cell
               (filter (λ ev, attributed side len i ev && has_type c ev) shots))
    <$> counts !! c.
Proof.
  revert counts. induction shots as [|ev shots IH]; intros counts; simpl.
  - by destruct (counts !! c).
  - rewrite IH, countShot_lookup, filter_cons.
    destruct (counts !! c); simpl; [|done].
    by destruct (attributed side len i ev && has_type c ev).
Qed.

(** A cell of a player's row: the tally of the player's shots of that type. *)
Lemma playerCounts_cellAt (codes : list string) (side : Z) (len i : nat)
    (shots : list event) (c : string) :
  cellAt (playerCounts codes side len i shots) c
  = if decide (c ∈ codes)
    then tally (filter (λ ev, attributed side len i ev && has_type c ev) shots)
    else zeroOffCell.
Proof.
  unfold cellAt, playerCounts.
  rewrite foldl_countShot_lookup, zeroCounts_lookup.
  by destruct (decide (c ∈ codes)).
Qed.

(** Sorting permutes. *)
Lemma sortInsert_perm {A} (cmp : A → A → Z) (x : A) (l : list A) :
  sortInsert cmp x l ≡ₚ x :: l.
Proof.
  induction l as [|y l IH]; simpl; [done|].
  case_decide; [|done]. rewrite IH. apply Permutation_swap.
Qed.

Lemma jsSort_perm {A} (cmp : A → A → Z) (l : list A) : jsSort cmp l ≡ₚ l.
Proof.
  unfold jsSort. induction l as [|x l IH]; simpl; [done|].
  by rewrite sortInsert_perm, IH.
Qed.

Lemma typeCodes_NoDup (shots : list event) : NoDup (typeCodes shots).
Proof. unfold typeCodes. rewrite jsSort_perm. apply NoDup_remove_dups. Qed.

Lemma pretty_N_go_nonempty (x : N) (s : string) :
  s ≠ "" → pretty_N_go x s ≠ "".
Proof.
  revert s. induction (N.lt_wf_0 x) as [x _ IH]. intros s Hs.
  destruct (decide (x = 0%N)) as [->|]; [by rewrite pretty_N_go_0|].
  rewrite pretty_N_go_step by lia. apply IH; [apply N.div_lt; lia|done].
Qed.

Lemma pretty_N_nonempty (x : N) : pretty x ≠ "".
Proof.
  unfold pretty, pretty_N. case_decide; [done|].
  rewrite pretty_N_go_step by lia. by apply pretty_N_go_nonempty.
Qed.

Lemma String_nonempty (v : JS.val) : JS.String v ≠ "".
Proof.
  destruct v as [[[|p|p]| |[]]| |]; try done.
  apply (pretty_N_nonempty (N.pos p)).
Qed.

Lemma typeCodes_spec (shots : list event) (code : string) :
  code ∈ typeCodes shots ↔ ∃ ev, ev ∈ shots ∧ JS.String (shot_type ev) = code.
Proof.
  unfold typeCodes. rewrite jsSort_perm.
  rewrite elem_of_remove_dups, list_elem_of_filter, list_elem_of_fmap.
  split.
  - intros (_ & ev & -> & Hev). eauto.
  - intros (ev & Hev & <-). split; [apply String_nonempty|]. eauto.
Qed.

Lemma typeCodes_elem (shots : list event) (ev : event) :
  ev ∈ shots → JS.String (shot_type ev) ∈ typeCodes shots.
Proof. intros Hev. apply typeCodes_spec. eauto. Qed.

Lemma sumOffCells_cellSum (cells : gmap string offCell) (codes : list string) :
  sumOffCells cells codes = cellSum (map (cellAt cells) codes).
Proof. unfold sumOffCells. by rewrite foldl_addCell, addCell_zero_l. Qed.

Lemma tally_filter (P : event → bool) (shots : list event) :
  tally (filter (λ ev, P ev) shots)
  = cellSum (map (λ ev, if P ev then unitCell ev else zeroOffCell) shots).
Proof. by rewrite tally_cellSum, cellSum_filter. Qed.

(** Summing the tallies per shot type gives the tally of all the shots,
    when every shot's type is one of the codes. *)
Lemma tally_by_type (P : event → bool) (codes : list string) (shots : list event) :
  NoDup codes →
  (∀ ev, ev ∈ shots → JS.String (shot_type ev) ∈ codes) →
  cellSum (map (λ c, tally (filter (λ ev, P ev && has_type c ev) shots)) codes)
  = tally (filter (λ ev, P ev) shots).
Proof.
  intros Hnd Hin.
  rewrite (cellSum_ext _
    (λ c, cellSum (map (λ ev, if P ev && has_type c ev
                              then unitCell ev else zeroOffCell) shots)))
    by (intros; apply tally_filter).
  rewrite (cellSum_swap
    (λ c ev, if P ev && has_type c ev then unitCell ev else zeroOffCell)).
  rewrite tally_filter. apply cellSum_ext. intros ev Hev.
  rewrite (cellSum_ext _
    (λ c, if decide (c = JS.String (shot_type ev))
          then (if P ev then unitCell ev else zeroOffCell) else zeroOffCell)).
  - rewrite cellSum_single by done. rewrite decide_True; [done|auto].
  - intros c _. unfold has_type.
    destruct (P ev); simpl; [|by case_decide].
    case_bool_decide; case_decide; congruence.
Qed.

(** The total of a player's row. *)
Lemma row_total_tally (side : Z) (len i : nat) (shots : list event) :
  sumOffCells (playerCounts (typeCodes shots) side len i shots) (typeCodes shots)
  = tally (filter (λ ev, attributed side len i ev) shots).
Proof.
  rewrite sumOffCells_cellSum.
  rewrite <- (tally_by_type _ (typeCodes shots))
    by auto using typeCodes_NoDup, typeCodes_elem.
  apply cellSum_ext. intros c Hc.
  rewrite playerCounts_cellAt. by rewrite decide_True.
Qed.

Lemma cellAt_insert (cells : gmap string offCell) (k c : string) (v : offCell) :
  cellAt (<[k := v]> cells) c = if decide (k = c) then v else cellAt cells c.
Proof.
  unfold cellAt. case_decide as Hk.
  - subst. by rewrite lookup_insert_eq.
  - by rewrite lookup_insert_ne.
Qed.

Lemma addCounts_cellAt (codes : list string) (teamCounts counts : gmap string offCell)
    (c : string) :
  NoDup codes →
  cellAt (addCounts codes teamCounts counts) c
  = if decide (c ∈ codes)
    then addCell (cellAt teamCounts c) (cellAt counts c)
    else cellAt teamCounts c.
Proof.
  unfold addCounts. intros Hnd. revert teamCounts.
  induction Hnd as [|c0 codes Hc0 _ IH]; intros teamCounts; simpl; [done|].
  rewrite IH, !cellAt_insert.
  destruct (decide (c0 = c)) as [->|Hne].
  - rewrite decide_False by done. rewrite decide_True; [done|left].
  - destruct (decide (c ∈ codes)), (decide (c ∈ c0 :: codes)) as [Hin|Hin]; try done.
    + destruct Hin. by right.
    + apply elem_of_cons in Hin. by destruct Hin as [->|?].
Qed.

Lemma cellSum_snoc {A} (f : A → offCell) (l : list A) (x : A) :
  cellSum (map f (l ++ [x])) = addCell (cellSum (map f l)) (f x).
Proof.
  induction l as [|y l IH]; simpl.
  - by rewrite addCell_zero_l, addCell_zero_r.
  - by rewrite IH, addCell_assoc.
Qed.

Lemma teamPass_prefix (codes : list string) (t : team) (side : Z)
    (shots : list event) (l : list player) :
  NoDup codes →
  let r := foldl (teamPassStep codes t side shots) ([], zeroCounts codes)
                 (imap pair l) in
  row_total <$> r.1
    = (λ i, sumOffCells (playerCounts codes side (length (players t)) i shots) codes)
      <$> seq 0 (length l)
  ∧ ∀ c, c ∈ codes →
      cellAt r.2 c
      = cellSum (map (λ i, cellAt (playerCounts codes side (length (players t)) i shots) c)
                     (seq 0 (length l))).
Proof.
  intros Hnd. induction l as [|p l IH] using rev_ind; simpl.
  { split; [done|]. intros c Hc. unfold cellAt.
    rewrite zeroCounts_lookup. by rewrite decide_True. }
  destruct IH as [IHrows IHcounts].
  rewrite imap_app, foldl_app, length_app. simpl.
  rewrite Nat.add_0_r, Nat.add_1_r, seq_S. simpl.
  split.
  - rewrite !fmap_app, IHrows. done.
  - intros c Hc. rewrite addCounts_cellAt by done.
    rewrite decide_True by done.
    rewrite cellSum_snoc, IHcounts by done. done.
Qed.

(** A shot is attributed to at most one index, the one its attacker
    resolves to. *)
Lemma tally_by_player (side : Z) (len : nat) (shots : list event) :
  cellSum (map (λ i, tally (filter (λ ev, attributed side len i ev) shots)) (seq 0 len))
  = tally (filter (λ ev, resolved side len ev) shots).
Proof.
  rewrite (cellSum_ext _
    (λ i, cellSum (map (λ ev, if attributed side len i ev
                              then unitCell ev else zeroOffCell) shots)))
    by (intros; apply tally_filter).
  rewrite (cellSum_swap
    (λ i ev, if attributed side len i ev then unitCell ev else zeroOffCell)).
  rewrite tally_filter. apply cellSum_ext. intros ev _.
  unfold attributed, resolved.
  destruct (JS.seq _ _); simpl; [|apply cellSum_zero].
  destruct (normalizeSlot (attacker ev) len) as [idx|] eqn:E; simpl.
  - pose proof (normalizeSlot_range _ _ _ E) as Hidx.
    rewrite ?bool_decide_eq_true_2 by eauto.
    rewrite (cellSum_ext _
      (λ i, if decide (i = Z.to_nat idx) then unitCell ev else zeroOffCell)).
    + rewrite cellSum_single by apply NoDup_seq.
      rewrite decide_True; [done|]. apply elem_of_seq. lia.
    + intros i _. case_bool_decide as Hi; case_decide as Hi'; try done.
      * destruct Hi'. injection Hi as ->. lia.
      * destruct Hi. f_equal. lia.
  - rewrite ?bool_decide_eq_false_2 by (by intros [? ?]).
    apply cellSum_zero.
Qed.

(** The total of a team's row in the offense shot profile: the tally of
    the shots of that side whose attacker resolves to a player. *)
Lemma team_total_tally (t : team) (side : Z) (shots : list event) :
  sumOffCells (teamPass (typeCodes shots) t side shots).2 (typeCodes shots)
  = tally (filter (λ ev, resolved side (length (players t)) ev) shots).
Proof.
  pose proof (teamPass_prefix (typeCodes shots) t side shots (players t)
                (typeCodes_NoDup shots)) as [_ Hcounts].
  unfold teamPass. rewrite sumOffCells_cellSum.
  rewrite (cellSum_ext _ _ _ Hcounts).
  rewrite (cellSum_swap
    (λ c i, cellAt (playerCounts (typeCodes shots) side (length (players t)) i shots) c)).
  rewrite <- tally_by_player.
  apply cellSum_ext. intros i _.
  by rewrite <- row_total_tally, sumOffCells_cellSum.
Qed.

Lemma team_rows_tally (t : team) (side : Z) (shots : list event) :
  row_total <$> (teamPass (typeCodes shots) t side shots).1
  = (λ i, tally (filter (λ ev, attributed side (length (players t)) i ev) shots))
    <$> seq 0 (length (players t)).
Proof.
  pose proof (teamPass_prefix (typeCodes shots) t side shots (players t)
                (typeCodes_NoDup shots)) as [Hrows _].
  unfold teamPass. rewrite Hrows.
  apply list_fmap_ext. intros _ i _. apply row_total_tally.
Qed.

Lemma filter_insert_rejected {A} (P : A → bool) (l1 l2 : list A) (x : A) :
  P x = false →
  filter (λ y, P y) (l1 ++ x :: l2)%list = filter (λ y, P y) (l1 ++ l2)%list.
Proof.
  intros Hx. rewrite !filter_app, filter_cons. by rewrite Hx.
Qed.

Lemma shotEvents_insert (evs1 evs2 : list event) (ev : event) :
  event_type ev = "shot" →
  shotEvents (evs1 ++ ev :: evs2)%list = (shotEvents evs1 ++ ev :: shotEvents evs2)%list
  ∧ shotEvents (evs1 ++ evs2)%list = (shotEvents evs1 ++ shotEvents evs2)%list.
Proof.
  intros Hev. unfold shotEvents. rewrite !filter_app, filter_cons.
  by rewrite decide_True.
Qed.

Lemma sumRangeCounts_bump (counts : rangeCounts) (code : JS.val) :
  sumRangeCounts (bumpRange counts (getShotRange code)) = S (sumRangeCounts counts).
Proof.
  pose proof (getShotRange_total code) as H.
  rewrite !elem_of_cons, elem_of_nil in H.
  destruct H as [-> | [-> | [-> | []]]]; unfold bumpRange, sumRangeCounts; simpl; lia.
Qed.

Lemma teamRange_fold (tside : JS.num) (shots : list event) (init : rangeCounts) :
  sumRangeCounts
    (foldl (λ counts ev,
              if negb (JS.seq (JS.Number (attacking_team ev)) tside) then counts
              else bumpRange counts (getShotRange (shot_type ev)))
           init shots)
  = (sumRangeCounts init
     + length (filter (λ ev, JS.seq (JS.Number (attacking_team ev)) tside) shots))%nat.
Proof.
  revert init. induction shots as [|ev shots IH]; intros init; simpl; [lia|].
  rewrite IH, filter_cons.
  destruct (JS.seq (JS.Number (attacking_team ev)) tside); simpl.
  - rewrite sumRangeCounts_bump. lia.
  - done.
Qed.

(** The team chart counts every shot of the selected side. *)
Lemma teamRangeCounts_total (tside : JS.num) (events : list event) :
  sumRangeCounts (teamRangeCounts tside events)
  = length (filter (λ ev, JS.seq (JS.Number (attacking_team ev)) tside)
                   (shotEvents events)).
Proof. unfold teamRangeCounts. by rewrite teamRange_fold. Qed.

Lemma getTeamBySide_seq (home away : team) (n : JS.num) (side : Z) :
  JS.seq n (JS.Fin side) = true →
  getTeamBySide home away (JS.Fin side) = getTeamBySide home away n.
Proof.
  destruct n as [z| |sg]; simpl; try done.
  intros H. apply bool_decide_eq_true in H. by subst.
Qed.

Lemma buildOffenseByRange_insert (home away : team) (teamSide : Z)
    (evs1 evs2 : list event) (ev : event) :
  event_type ev = "shot" →
  normalizeSlot (attacker ev)
    (length (players (getTeamBySide home away (JS.Number (attacking_team ev))))) = None →
  buildOffenseByRange home away teamSide (evs1 ++ ev :: evs2)%list
  = buildOffenseByRange home away teamSide (evs1 ++ evs2)%list.
Proof.
  intros Hshot Hnone. unfold buildOffenseByRange.
  destruct (shotEvents_insert evs1 evs2 ev Hshot) as [-> ->].
  rewrite !foldl_app. simpl.
  destruct (JS.seq (JS.Number (attacking_team ev)) (JS.Fin teamSide)) eqn:E; simpl; [|done].
  by rewrite (getTeamBySide_seq _ _ _ _ E), Hnone.
Qed.

Lemma attributed_unresolved (home away : team) (ev : event) (side : Z) (t : team)
    (i : nat) :
  normalizeSlot (attacker ev)
    (length (players (getTeamBySide home away (JS.Number (attacking_team ev))))) = None →
  t = getTeamBySide home away (JS.Fin side) →
  attributed side (length (players t)) i ev = false
  ∧ resolved side (length (players t)) ev = false.
Proof.
  intros Hnone ->. unfold attributed, resolved.
  destruct (JS.seq (JS.Number (attacking_team ev)) (JS.Fin side)) eqn:E; [|done].
  rewrite (getTeamBySide_seq _ _ _ _ E), Hnone. simpl.
  by split.
Qed.

Lemma teamPass_rows (codes : list string) (t : team) (side : Z)
    (shots : list event) (l : list player) :
  (foldl (teamPassStep codes t side shots) ([], zeroCounts codes) (imap pair l)).1
  = imap (λ i p,
            {| row_side := side; row_name := player_name p; row_team := team_name t;
               row_counts := playerCounts codes side (length (players t)) i shots;
               row_total :=
                 sumOffCells (playerCounts codes side (length (players t)) i shots)
                             codes |}) l.
Proof.
  induction l as [|p l IH] using rev_ind; [done|].
  rewrite !imap_app, foldl_app. simpl. rewrite IH.
  by rewrite Nat.add_0_r.
Qed.

Lemma playerCounts_lookup (codes : list string) (side : Z) (len i : nat)
    (shots : list event) (c : string) :
  playerCounts codes side len i shots !! c
  = if decide (c ∈ codes)
    then Some (tally (filter (λ ev, attributed side len i ev && has_type c ev) shots))
    else None.
Proof.
  unfold playerCounts. rewrite foldl_countShot_lookup, zeroCounts_lookup.
  by destruct (decide (c ∈ codes)).
Qed.

Lemma typeCodes_insert (evs1 evs2 : list event) (ev : event) (code : string) :
  code ∈ typeCodes (evs1 ++ evs2)%list → code ∈ typeCodes (evs1 ++ ev :: evs2)%list.
Proof.
  rewrite !typeCodes_spec. intros (e & He & <-). exists e. split; [|done].
  rewrite elem_of_app in He. rewrite elem_of_app, elem_of_cons. tauto.
Qed.

Lemma filter_pointwise_false {A} (P : A → bool) (l : list A) :
  (∀ x, x ∈ l → P x = false) → filter (λ x, P x) l = [].
Proof.
  induction l as [|x l IH]; intros H; [done|].
  rewrite filter_cons, (H x) by left. simpl. apply IH. intros y Hy. apply H. by right.
Qed.

Lemma attributed_cell_insert (side : Z) (len i : nat) (code : string)
    (evs1 evs2 : list event) (ev : event) :
  attributed side len i ev = false →
  tally (filter (λ e, attributed side len i e && has_type code e) (evs1 ++ ev :: evs2)%list)
  = tally (filter (λ e, attributed side len i e && has_type code e) (evs1 ++ evs2)%list).
Proof.
  intros Hev.
  rewrite (filter_insert_rejected (λ e, attributed side len i e && has_type code e));
    [done|]. by rewrite Hev.
Qed.

Lemma profile_pass_insert (home away : team) (t : team) (side : Z)
    (evs1 evs2 : list event) (ev : event) :
  event_type ev = "shot" →
  normalizeSlot (attacker ev)
    (length (players (getTeamBySide home away (JS.Number (attacking_team ev))))) = None →
  t = getTeamBySide home away (JS.Fin side) →
  let after := shotEvents (evs1 ++ ev :: evs2)%list in
  let before := shotEvents (evs1 ++ evs2)%list in
  Forall2 same_counts (teamPass (typeCodes before) t side before).1
                      (teamPass (typeCodes after) t side after).1
  ∧ sumOffCells (teamPass (typeCodes after) t side after).2 (typeCodes after)
    = sumOffCells (teamPass (typeCodes before) t side before).2 (typeCodes before).
Proof.
  intros Hshot Hnone Ht after before.
  assert (∀ i, attributed side (length (players t)) i ev = false) as Hrej.
  { intros i. by eapply attributed_unresolved. }
  split.
  - unfold teamPass. rewrite !teamPass_rows.
    apply Forall2_same_length_lookup. split; [by rewrite !length_imap|].
    intros i rb ra Hb Ha.
    apply list_lookup_imap_Some in Hb as (pb & Hpb & ->).
    apply list_lookup_imap_Some in Ha as (pa & Hpa & ->).
    assert (pa = pb) as -> by congruence.
    unfold same_counts. cbn [row_side row_name row_team row_total row_counts].
    repeat split.
    + rewrite !row_total_tally. unfold after, before.
      destruct (shotEvents_insert evs1 evs2 ev Hshot) as [-> ->].
      by rewrite (filter_insert_rejected (attributed side (length (players t)) i)).
    + apply map_subseteq_spec. intros code cell.
      rewrite !playerCounts_lookup. unfold after, before.
      destruct (shotEvents_insert evs1 evs2 ev Hshot) as [-> ->].
      case_decide as Hin; [|done]. intros <-.
      rewrite decide_True by (by apply typeCodes_insert).
      f_equal. by apply attributed_cell_insert.
    + intros code. rewrite !playerCounts_cellAt. unfold after, before.
      destruct (shotEvents_insert evs1 evs2 ev Hshot) as [-> ->].
      rewrite attributed_cell_insert by done.
      destruct (decide (code ∈ typeCodes (shotEvents evs1 ++ shotEvents evs2)%list))
        as [Hin|Hout].
      * by rewrite decide_True by (by apply typeCodes_insert).
      * case_decide as Hin; [|done].
        rewrite (filter_pointwise_false _ (shotEvents evs1 ++ shotEvents evs2)%list);
          [done|].
        intros e He. apply andb_false_iff. right.
        apply bool_decide_eq_false. intros Hty.
        apply Hout, typeCodes_spec. eauto.
  - rewrite !team_total_tally. unfold after, before.
    destruct (shotEvents_insert evs1 evs2 ev Hshot) as [-> ->].
    rewrite (filter_insert_rejected (resolved side (length (players t)))); [done|].
    by eapply (attributed_unresolved _ _ _ _ _ 0%nat).
Qed.

(** C3 (as amended): a shot whose attacker slot is unresolved changes no
    player's counts: every player row of the offense shot profile keeps
    its total and its cell for every shot type (the shot's own type may
    add a column, zero in every player row), and the table by range of
    either side is the same with and without the shot.  The team chart of
    the shot ranges for a side counts the shot as one more exactly when
    that side is the number of its attacking team.  The team rows of the
    offense shot profile are sums of the player rows and do not count
    it. *)
Theorem unresolved_attacker_team_only (home away : team) (evs1 evs2 : list event)
    (ev : event) :
  event_type ev = "shot" →
  normalizeSlot (attacker ev)
    (length (players (getTeamBySide home away (JS.Number (attacking_team ev))))) = None →
  let after := (evs1 ++ ev :: evs2)%list in
  let before := (evs1 ++ evs2)%list in
  Forall2 same_counts
    (osp_playerRowsData (renderOffenseShotProfile home away before))
    (osp_playerRowsData (renderOffenseShotProfile home away after)) ∧
  (∀ teamSide,
     buildOffenseByRange home away teamSide after
     = buildOffenseByRange home away teamSide before) ∧
  (∀ side : Z,
     sumRangeCounts (teamRangeCounts (JS.Fin side) after)
     = if JS.seq (JS.Number (attacking_team ev)) (JS.Fin side)
       then S (sumRangeCounts (teamRangeCounts (JS.Fin side) before))
       else sumRangeCounts (teamRangeCounts (JS.Fin side) before)) ∧
  osp_homeTotal (renderOffenseShotProfile home away after)
    = osp_homeTotal (renderOffenseShotProfile home away before) ∧
  osp_awayTotal (renderOffenseShotProfile home away after)
    = osp_awayTotal (renderOffenseShotProfile home away before).
Proof.
  intros Hshot Hnone after before.
  destruct (profile_pass_insert home away home 0 evs1 evs2 ev Hshot Hnone eq_refl)
    as [Hrows0 Htot0].
  destruct (profile_pass_insert home away away 1 evs1 evs2 ev Hshot Hnone eq_refl)
    as [Hrows1 Htot1].
  unfold after, before, renderOffenseShotProfile; simpl.
  split; [by apply Forall2_app|].
  split; [intros; by apply buildOffenseByRange_insert|].
  split; [|by split].
  intros side. rewrite !teamRangeCounts_total.
  destruct (shotEvents_insert evs1 evs2 ev Hshot) as [-> ->].
  rewrite !filter_app, filter_cons, !length_app.
  destruct (JS.seq (JS.Number (attacking_team ev)) (JS.Fin side)); simpl; lia.
Qed.

Lemma unresolved_attacker_team_only_witness :
  sumRangeCounts (teamRangeCounts (JS.Fin 0) [blocked_shot; unresolved_shot])
    = S (sumRangeCounts (teamRangeCounts (JS.Fin 0) [blocked_shot])) ∧
  osp_homeTotal
    (renderOffenseShotProfile (one_man "H") (one_man "A") [blocked_shot; unresolved_shot])
  = osp_homeTotal (renderOffenseShotProfile (one_man "H") (one_man "A") [blocked_shot]).
Proof.
  destruct (unresolved_attacker_team_only (one_man "H") (one_man "A")
              [blocked_shot] [] unresolved_shot)
    as (_ & _ & Hteam & Hhome & _); [reflexivity..|].
  split; [exact (Hteam 0)|exact Hhome].
Defined.

(** The home team's attempts in the offense shot profile are the same with
    and without a shot of an unresolved home attacker. *)
Lemma unresolved_shot_not_in_team_row :
  Off.a (osp_homeTotal
           (renderOffenseShotProfile (one_man "H") (one_man "A")
              [blocked_shot; unresolved_shot])) = 1%nat ∧
  Off.a (osp_homeTotal
           (renderOffenseShotProfile (one_man "H") (one_man "A") [blocked_shot])) = 1%nat.
Proof. by vm_compute. Qed.

(** ** Serialization (C5) *)

Section Serialization.

Context {Stat BaseEvent : Type}.
Variable player_stats team_stats : Stat → value.
Variable to_json : BaseEvent → value.

Lemma dict_set_fresh (d : list (string * value)) (k : string) (v : value) :
  k ∉ keys d → dict_set d k v = (d ++ [(k, v)])%list.
Proof.
  induction d as [|[k' v'] d IH]; simpl; [done|].
  rewrite not_elem_of_cons. intros [Hne Hd].
  rewrite decide_False by done. by rewrite IH.
Qed.

Lemma quarter_keys_fold (sheet : Stat → value) (l : list Stat) :
  keys (foldl (λ d qs, dict_set d ("q" +:+ pretty qs.1) (sheet qs.2)) []
              (enumerate1 l))
  = map (λ i : nat, "q" +:+ pretty i) (seq 1 (length l)).
Proof.
  unfold enumerate1. induction l as [|x l IH] using rev_ind; [done|].
  rewrite imap_app, foldl_app, length_app. simpl.
  rewrite Nat.add_0_r, Nat.add_1_r, seq_S, map_app. simpl.
  rewrite dict_set_fresh.
  - unfold keys in *. by rewrite map_app, IH.
  - rewrite IH. intros Hin. apply list_elem_of_fmap in Hin as (i & Heq & Hi).
    apply elem_of_seq in Hi.
    apply (inj (String.app "q")) in Heq. apply pretty_nat_inj in Heq. lia.
Qed.

(** The keys of a stats object: one q<i> per quarter sheet, in order, then
    total. *)
Lemma stats_dict_keys (sheet : Stat → value) (s : Stats Stat) :
  keys (stats_dict Stat sheet s)
  = (map (λ i : nat, "q" +:+ pretty i) (seq 1 (length (qtr s))) ++ ["total"])%list.
Proof.
  unfold stats_dict. rewrite dict_set_fresh.
  - unfold keys in *. rewrite map_app. f_equal. apply quarter_keys_fold.
  - rewrite quarter_keys_fold. intros Hin.
    by apply list_elem_of_fmap in Hin as (i & Heq & _).
Qed.

Lemma stats_dict_four (sheet : Stat → value) (s : Stats Stat) :
  four_quarters s →
  ∃ q1 q2 q3 q4,
    qtr s = [q1; q2; q3; q4] ∧
    stats_dict Stat sheet s
    = [ ("q1", sheet q1); ("q2", sheet q2); ("q3", sheet q3); ("q4", sheet q4);
        ("total", sheet (full s)) ].
Proof.
  unfold four_quarters, stats_dict.
  destruct (qtr s) as [|q1 [|q2 [|q3 [|q4 [|q5 l]]]]]; try done.
  intros _. by exists q1, q2, q3, q4.
Qed.

Lemma serialize_player_shape (p : Player Stat) :
  four_quarters (p_stats p) →
  player_shape p (serialize_player Stat player_stats p).
Proof.
  intros Hq. destruct (stats_dict_four player_stats _ Hq) as (q1&q2&q3&q4&_&E).
  eexists. split; [reflexivity|]. by rewrite E.
Qed.

Lemma serialize_team_shape (t : Team Stat) :
  team_wf t →
  team_shape t (serialize_team Stat player_stats team_stats t).
Proof.
  intros [Hq Hps].
  destruct (stats_dict_four team_stats _ Hq) as (q1&q2&q3&q4&_&E).
  eexists _, _. split; [reflexivity|]. split; [by rewrite E|].
  induction Hps as [|p ps Hp _ IH]; simpl; constructor; [|done].
  by apply serialize_player_shape.
Qed.

(** C5: for a game with its two teams and four quarter sheets per
    entity, [serialize_game] returns the home and the away team object
    (and the events), each with exactly the fields id, name, players,
    stats; the stats keys are q1, q2, q3, q4, total; every player entry
    has exactly id, name, starter, stats with the same keys; the player
    entries follow the roster order. *)
Theorem serialize_game_shape (g : Game Stat BaseEvent) :
  game_wf g →
  ∃ h w hv wv,
    teams g = [h; w] ∧
    serialize_game Stat player_stats team_stats BaseEvent to_json g
    = Some (VDict [ ("teamHome", hv); ("teamAway", wv);
                    ("events", VList (map to_json (baseevents g))) ]) ∧
    team_shape h hv ∧ team_shape w wv.
Proof.
  intros (h & w & Hteams & Hh & Hw).
  exists h, w. eexists _, _. split; [done|].
  unfold serialize_game. rewrite Hteams. simpl.
  split; [reflexivity|].
  split; by apply serialize_team_shape.
Qed.

End Serialization.


(** ** Reconciliation of quarters and totals (C6) *)

Lemma bump_reconciled (q : Engine.quarter) (f : Engine.field) (delta : Z)
    (s : Stats Engine.Stat) :
  reconciled_stats s → reconciled_stats (Engine.bump q f delta s).
Proof.
  intros (s1 & s2 & s3 & s4 & Hq & Hsum). unfold Engine.bump, reconciled_stats.
  simpl. rewrite Hq.
  destruct q; simpl; eexists _, _, _, _; (split; [reflexivity|]);
    intros g; specialize (Hsum g); unfold Engine.add; case_decide; lia.
Qed.

Lemma bump_team_inv (n : nat) (e : Engine.entity) (side : nat) (q : Engine.quarter)
    (f : Engine.field) (delta : Z) (t : Team Engine.Stat) :
  team_inv n t → team_inv n (Engine.bump_team e side q f delta t).
Proof.
  intros (Hs & Hps & Hlen). destruct e as [?|? slot]; unfold Engine.bump_team.
  - split; [by apply bump_reconciled|done].
  - split; [done|]. cbn [t_players]. split; [|by rewrite length_alter].
    apply Forall_alter; [done|]. intros p _ Hp. by apply bump_reconciled.
Qed.

Lemma apply_increment_inv {BaseEvent} (n0 n1 : nat) (g : Game Engine.Stat BaseEvent)
    (i : Engine.increment) :
  game_inv n0 n1 g →
  game_inv n0 n1 (Engine.apply_increment BaseEvent g i)
  ∧ baseevents (Engine.apply_increment BaseEvent g i) = baseevents g.
Proof.
  intros (h & w & Hteams & Hh & Hw). split; [|done].
  unfold game_inv, Engine.apply_increment. simpl. rewrite Hteams.
  destruct (Engine.entity_side (Engine.inc_entity i)) as [|[|side]]; simpl.
  - eexists _, _. split; [reflexivity|]. split; [by apply bump_team_inv|done].
  - eexists _, _. split; [reflexivity|]. split; [done|by apply bump_team_inv].
  - by eexists _, _.
Qed.

Lemma increments_inv {BaseEvent} (n0 n1 : nat) (incs : list Engine.increment)
    (g : Game Engine.Stat BaseEvent) :
  game_inv n0 n1 g →
  game_inv n0 n1 (foldl (Engine.apply_increment BaseEvent) g incs)
  ∧ baseevents (foldl (Engine.apply_increment BaseEvent) g incs) = baseevents g.
Proof.
  revert g. induction incs as [|i incs IH]; intros g Hg; simpl; [done|].
  destruct (apply_increment_inv n0 n1 g i Hg) as [Hg' Hev].
  destruct (IH _ Hg') as [Hinv Hev']. split; [done|congruence].
Qed.

Lemma events_inv {BaseEvent} (n0 n1 : nat)
    (dispatch : Game Engine.Stat BaseEvent → BaseEvent → list Engine.increment)
    (events : list BaseEvent) (g : Game Engine.Stat BaseEvent) :
  game_inv n0 n1 g →
  game_inv n0 n1
    (foldl (λ g ev, foldl (Engine.apply_increment BaseEvent) g (dispatch g ev)) g events)
  ∧ baseevents
      (foldl (λ g ev, foldl (Engine.apply_increment BaseEvent) g (dispatch g ev)) g events)
    = baseevents g.
Proof.
  revert g. induction events as [|ev events IH]; intros g Hg; simpl; [done|].
  destruct (increments_inv n0 n1 (dispatch g ev) g Hg) as [Hg' Hev].
  destruct (IH _ Hg') as [Hinv Hev']. split; [done|congruence].
Qed.

Lemma replay_inv {BaseEvent} (n0 n1 : nat)
    (dispatch : Game Engine.Stat BaseEvent → BaseEvent → list Engine.increment)
    (g : Game Engine.Stat BaseEvent) :
  game_inv n0 n1 g →
  game_inv n0 n1 (Engine.replay BaseEvent dispatch g)
  ∧ baseevents (Engine.replay BaseEvent dispatch g) = baseevents g.
Proof. apply events_inv. Qed.

Lemma fresh_stats_reconciled : reconciled_stats Engine.fresh_stats.
Proof. by exists Engine.zero, Engine.zero, Engine.zero, Engine.zero. Qed.

Lemma fresh_team_inv (id name : value) (roster : list (value * value * value)) :
  team_inv (length roster) (Engine.fresh_team id name roster).
Proof.
  split; [apply fresh_stats_reconciled|]. simpl.
  split; [|by rewrite length_map].
  apply Forall_map, Forall_forall. intros. apply fresh_stats_reconciled.
Qed.

Lemma sheet_item_team (s : Engine.Stat) (f : Engine.field) :
  f ∈ Engine.team_fields →
  item (Engine.sheet Engine.team_fields s) (Engine.field_name f) = Some (VInt (s f)).
Proof.
  intros Hf. destruct f; try reflexivity;
    exfalso; apply list_elem_of_In in Hf; simpl in Hf; intuition discriminate.
Qed.

Lemma sheet_item_player (s : Engine.Stat) (f : Engine.field) :
  item (Engine.sheet Engine.player_fields s) (Engine.field_name f) = Some (VInt (s f)).
Proof. by destruct f. Qed.

Lemma stats_reconcile (fields : list Engine.field) (s : Stats Engine.Stat)
    (ent : value) (f : Engine.field) :
  reconciled_stats s →
  item ent "stats" = Some (VDict (stats_dict Engine.Stat (Engine.sheet fields) s)) →
  (∀ s', item (Engine.sheet fields s') (Engine.field_name f) = Some (VInt (s' f))) →
  Engine.reconciles ent f.
Proof.
  intros (s1 & s2 & s3 & s4 & Hq & Hsum) Hent Hitem.
  exists (s1 f), (s2 f), (s3 f), (s4 f), (full s f).
  assert (stats_dict Engine.Stat (Engine.sheet fields) s
          = [ ("q1", Engine.sheet fields s1); ("q2", Engine.sheet fields s2);
              ("q3", Engine.sheet fields s3); ("q4", Engine.sheet fields s4);
              ("total", Engine.sheet fields (full s)) ]) as E.
  { unfold stats_dict. rewrite Hq. reflexivity. }
  assert (∀ s', dict_get (map (λ g, (Engine.field_name g, VInt (s' g))) fields)
                         (Engine.field_name f) = Some (VInt (s' f))) as Hget
    by exact Hitem.
  unfold Engine.stat_of. rewrite Hent, E.
  repeat split; try (simpl; by rewrite Hget).
  apply Hsum.
Qed.

Lemma serialize_team_reconciles (n : nat) (t : Team Engine.Stat) :
  team_inv n t →
  team_reconciles n (serialize_team Engine.Stat Engine.player_stats Engine.team_stats t).
Proof.
  intros (Hs & Hps & Hlen). split.
  - intros f Hf. apply (stats_reconcile Engine.team_fields (t_stats t)); [done..|].
    intros s'. by apply sheet_item_team.
  - eexists. split; [reflexivity|]. split; [by rewrite length_map|].
    intros pv f Hpv _. apply list_elem_of_fmap in Hpv as (p & -> & Hp).
    rewrite Forall_forall in Hps.
    apply (stats_reconcile Engine.player_fields (p_stats p)); [by apply Hps|done|].
    intros s'. apply sheet_item_player.
Qed.

(** C6: after the replay of any event sequence from fresh accumulators,
    in the serialized output every counted field of every team and of
    every player has q1 + q2 + q3 + q4 equal to the value under total. *)
Theorem quarters_sum_to_total {BaseEvent : Type} (to_json : BaseEvent → value)
    (dispatch : Game Engine.Stat BaseEvent → BaseEvent → list Engine.increment)
    (hid hname wid wname : value) (home_roster away_roster : list (value * value * value))
    (events : list BaseEvent) :
  ∃ hv wv,
    serialize_game Engine.Stat Engine.player_stats Engine.team_stats BaseEvent to_json
      (Engine.replay BaseEvent dispatch
         (Engine.fresh_game BaseEvent
            (Engine.fresh_team hid hname home_roster)
            (Engine.fresh_team wid wname away_roster) events))
    = Some (VDict [ ("teamHome", hv); ("teamAway", wv);
                    ("events", VList (map to_json events)) ]) ∧
    team_reconciles (length home_roster) hv ∧
    team_reconciles (length away_roster) wv.
Proof.
  destruct (replay_inv (length home_roster) (length away_roster) dispatch
              (Engine.fresh_game BaseEvent
                 (Engine.fresh_team hid hname home_roster)
                 (Engine.fresh_team wid wname away_roster) events))
    as [(h & w & Hteams & Hh & Hw) Hev].
  { eexists _, _. split; [reflexivity|]. split; apply fresh_team_inv. }
  eexists _, _. unfold serialize_game. rewrite Hteams, Hev. simpl.
  split; [reflexivity|].
  split; by apply serialize_team_reconciles.
Qed.

(** ** The /report handler (C9, C10) *)

Section Handler.

Context {Stat BaseEvent Api Xml Parsed : Type}.
Variable player_stats team_stats : Stat → value.
Variable to_json : BaseEvent → value.
Variable isspace isdigit_char : N → bool.
Variable BBApi : str → str → exn + Api.
Variable logged_in : Api → bool.
Variable boxscore : Api → Z → exn + unit.
Variable int : str → exn + Z.
Variable get_xml_text : str → exn + Xml.
Variable parse_xml : Xml → exn + Parsed.
Variable new_Game : str → Parsed → exn + Game Stat BaseEvent.
Variable play : Game Stat BaseEvent → exn + Game Stat BaseEvent.

Local Abbreviation the_report :=
  (report Stat player_stats team_stats BaseEvent to_json isspace isdigit_char
          Api Xml Parsed BBApi logged_in boxscore int get_xml_text parse_xml
          new_Game play).

Local Abbreviation the_generate_report :=
  (generate_report Stat player_stats team_stats BaseEvent to_json
                   Api Xml Parsed BBApi logged_in boxscore int get_xml_text
                   parse_xml new_Game play).

Lemma isdigit_non_digit (s : str) (c : N) :
  c ∈ s → isdigit_char c = false → isdigit isdigit_char s = false.
Proof.
  intros Hc Hd. unfold isdigit. destruct s as [|c0 s]; [done|].
  apply not_true_is_false. intros Hall.
  rewrite forallb_forall in Hall.
  apply list_elem_of_In in Hc. specialize (Hall _ Hc). congruence.
Qed.

(** C9: when the trimmed username, password or matchid is empty, or the
    trimmed matchid has a character that is not a digit, the answer is
    the form again (with one of the two validation messages and the
    trimmed fields) under status 400, and no call was made: not to
    BBAPI, not to the feed, not to the engine. *)
Theorem report_rejects_invalid (form : list (string * str)) :
  let username := strip isspace (form_get form "username") in
  let password := strip isspace (form_get form "password") in
  let matchid := strip isspace (form_get form "matchid") in
  username = [] ∨ password = [] ∨ matchid = [] ∨
    (∃ c, c ∈ matchid ∧ isdigit_char c = false) →
  ∃ error,
    error ∈ [lit "All fields are required."; lit "Match ID must be numeric."] ∧
    the_report form = ([], inr (FORM_HTML error username password matchid, 400)).
Proof.
  intros username password matchid Hbad.
  unfold report.
  fold username password matchid.
  destruct (decide (username = [] ∨ password = [] ∨ matchid = [])) as [Hempty|Hfull].
  - exists (lit "All fields are required."). split; [left|].
    assert (bool_decide (username = []) || bool_decide (password = [])
            || bool_decide (matchid = []) = true) as ->; [|done].
    rewrite !orb_true_iff, !bool_decide_eq_true. tauto.
  - exists (lit "Match ID must be numeric."). split; [right; left|].
    assert (bool_decide (username = []) || bool_decide (password = [])
            || bool_decide (matchid = []) = false) as ->.
    { apply not_true_is_false.
      rewrite !orb_true_iff, !bool_decide_eq_true. tauto. }
    destruct Hbad as [?|[?|[?|(c & Hc & Hd)]]]; try tauto.
    by rewrite (isdigit_non_digit _ _ Hc Hd).
Qed.

(** C10 (as amended): when the fields pass validation and
    [generate_report] raises an exception that [except Exception] catches,
    the answer is the form under status 500, with the password field empty
    and the (trimmed) username and matchid as submitted; the message is
    "Failed to generate report: " followed by the text of the exception,
    whatever that text holds. *)
Theorem report_failure_blanks_password (form : list (string * str))
    (log : list call) (exc : exn) :
  let username := strip isspace (form_get form "username") in
  let password := strip isspace (form_get form "password") in
  let matchid := strip isspace (form_get form "matchid") in
  username ≠ [] → password ≠ [] → isdigit isdigit_char matchid = true →
  the_generate_report matchid username password = (log, inl exc) →
  is_Exception exc = true →
  the_report form
  = (log, inr (FORM_HTML (lit "Failed to generate report: " ++ exn_str exc)%list
                         username [] matchid, 500)).
Proof.
  intros username password matchid Hu Hp Hm Hgen Hexc.
  unfold report. fold username password matchid.
  assert (matchid ≠ []) as Hm' by (by intros E; rewrite E in Hm).
  rewrite !bool_decide_eq_false_2 by done. simpl. rewrite Hm. simpl.
  unfold attempt, mbind, M_bind, bind.
  rewrite Hgen. simpl. rewrite Hexc. simpl. by rewrite app_nil_r.
Qed.

End Handler.

(** ** Concrete runs *)

Lemma report_rejects_invalid_witness :
  ∃ error,
    error ∈ [lit "All fields are required."; lit "Match ID must be numeric."] ∧
    refused_report bad_form
    = ([], inr (FORM_HTML error (lit "bob") (lit "secret") (lit "12a"), 400)).
Proof.
  apply (report_rejects_invalid VInt VInt (λ _ : unit, VNone) ascii_space ascii_digit
           (λ _ _, inr ()) (λ _ : unit, false) (λ _ _, inr ()) (λ _, inr 0)
           (λ _, inr ()) (λ _ : unit, inr ())
           (λ _ (_ : unit), inr {| teams := []; baseevents := [] |}) (λ g, inr g)
           bad_form).
  right; right; right. exists 97%N.
  split; [|reflexivity]. vm_compute. apply list_elem_of_In. simpl. tauto.
Defined.

Lemma report_failure_blanks_password_witness :
  refused_report good_form
  = ([CBBApi (lit "bob") (lit "secret")],
     inr (FORM_HTML
            (lit "Failed to generate report: BBAPI login failed. Check username/password.")
            (lit "bob") [] (lit "138595249"), 500)).
Proof.
  apply (report_failure_blanks_password VInt VInt (λ _ : unit, VNone)
           ascii_space ascii_digit
           (λ _ _, inr ()) (λ _ : unit, false) (λ _ _, inr ()) (λ _, inr 0)
           (λ _, inr ()) (λ _ : unit, inr ())
           (λ _ (_ : unit), inr {| teams := []; baseevents := [] |}) (λ g, inr g)
           good_form
           [CBBApi (lit "bob") (lit "secret")]
           (ValueError (lit "BBAPI login failed. Check username/password.")));
    vm_compute; congruence.
Defined.

(** The submitted password in the error page: the BBAPI request fails
    with an error that quotes the request, and the 500 page carries that
    text. *)
Lemma password_echoed_in_error_text :
  ∃ before after,
    leaky_report good_form
    = ([CBBApi (lit "bob") (lit "secret")],
       inr (FORM_HTML (before ++ lit "secret" ++ after)%list
                      (lit "bob") [] (lit "138595249"), 500)).
Proof.
  exists (lit "Failed to generate report: GET /login.aspx?login=bob&code="), [].
  by vm_compute.
Qed.

Lemma serialize_game_shape_witness :
  ∃ h w hv wv,
    teams small_game = [h; w] ∧
    serialize_game Z VInt VInt unit (λ _, VNone) small_game
    = Some (VDict [ ("teamHome", hv); ("teamAway", wv);
                    ("events", VList (map (λ _, VNone) (baseevents small_game))) ]) ∧
    team_shape h hv ∧ team_shape w wv.
Proof.
  apply (serialize_game_shape VInt VInt (λ _ : unit, VNone) small_game).
  exists (small_team 10 "H"), (small_team 20 "A").
  split; [reflexivity|].
  split; (split; [reflexivity|]); repeat constructor.
Defined.

(** * Further properties of the report script *)

(** ** Slots and rosters *)

(** X1: a slot resolved to an integer index is a valid index of the
    roster, so the player read by [resolvePlayerName] exists; the answer
    is that player's name, or the fallback when the name is empty. *)
Theorem resolved_slot_names_player (t : team) (s : Wide.val) (i : Z) (fallback : string) :
  Wide.normalizeSlot s (length (players t)) = Some (Wide.of_Z i) →
  0 ≤ i < Z.of_nat (length (players t)) ∧
  ∃ p, Wide.index (players t) (Wide.of_Z i) = Some p ∧
       players t !! Z.to_nat i = Some p ∧
       Wide.resolvePlayerName (Some t) s fallback
       = (if decide (player_name p = "") then fallback else player_name p).
Proof.
  intros Hs.
  assert (0 ≤ i < Z.of_nat (length (players t))) as Hi.
  { apply Wide_normalizeSlot_Some in Hs as (n & _ & H1 & H2 & Hn).
    assert (Qc_of_Z i = (n - 1)%Qc) as Hi by (unfold Wide.of_Z in Hn; congruence).
    assert (n = Qc_of_Z (i + 1)) as ->.
    { rewrite Z2Qc_inj_add, Z2Qc_inj_1, Hi. ring. }
    rewrite <- Z2Qc_inj_1, <- Z2Qc_inj_le in H1. rewrite <- Z2Qc_inj_le in H2. lia. }
  split; [done|].
  destruct (lookup_lt_is_Some_2 (players t) (Z.to_nat i)) as [p Hp]; [lia|].
  exists p. unfold Wide.resolvePlayerName. rewrite Hs, Wide_index_of_Z.
  rewrite decide_True by lia. rewrite Hp. simpl.
  repeat split. by destruct (player_name p).
Qed.

Lemma resolved_slot_names_player_witness :
  0 ≤ 1 < Z.of_nat (length (players trio)) ∧
  ∃ p, Wide.index (players trio) (Wide.of_Z 1) = Some p ∧
       players trio !! Z.to_nat 1 = Some p ∧
       Wide.resolvePlayerName (Some trio) (Wide.Str "2" (Wide.of_Z 2)) "#2"
       = (if decide (player_name p = "") then "#2" else player_name p).
Proof.
  apply (resolved_slot_names_player trio (Wide.Str "2" (Wide.of_Z 2)) 1 "#2").
  by rewrite (Wide_normalizeSlot_integer _ _ 2).
Defined.

(** X2: every roster index is reached by exactly one slot number: slot
    i + 1 resolves to index i, and any raw slot resolving to i has the
    number i + 1. *)
Theorem one_slot_per_player (N i : nat) (s : JS.val) :
  (i < N)%nat →
  normalizeSlot (JS.Num (JS.Fin (Z.of_nat i + 1))) N = Some (Z.of_nat i) ∧
  (normalizeSlot s N = Some (Z.of_nat i) → JS.Number s = JS.Fin (Z.of_nat i + 1)).
Proof.
  intros Hi. split.
  - apply normalizeSlot_Some. exists (Z.of_nat i + 1). simpl. split; [done|lia].
  - intros Hs. apply normalizeSlot_Some in Hs as (z & -> & _ & Hz). f_equal. lia.
Qed.

Lemma one_slot_per_player_witness :
  normalizeSlot (JS.Num (JS.Fin (Z.of_nat 4 + 1))) 5 = Some (Z.of_nat 4) ∧
  (normalizeSlot JS.Null 5 = Some (Z.of_nat 4) → JS.Number JS.Null = JS.Fin (Z.of_nat 4 + 1)).
Proof. apply (one_slot_per_player 5 4 JS.Null). lia. Defined.

(** ** Shot ranges of every code *)

Lemma decimal_no_PT (s : string) (c : ascii) :
  decimal_string s = true → JS.includes s (String.String c "PT") = false.
Proof.
  induction s as [|c1 s IH]; [done|].
  simpl. intros H. apply andb_true_iff in H as [Hc1 Hs].
  rewrite (IH Hs), orb_false_r.
  destruct (ascii_dec c c1); [|done].
  destruct s as [|c2 s]; [done|].
  simpl in Hs. apply andb_true_iff in Hs as [Hc2 _].
  simpl. case_match; [|done]. subst c2. by vm_compute in Hc2.
Qed.

Lemma prop_decimal_keys (table : list (Z * string)) (z : Z) :
  JS.prop (map (λ kl, (pretty kl.1, kl.2)) table) (pretty z) ≠ None →
  z ∈ map fst table.
Proof.
  induction table as [|[k l] table IH]; simpl; [done|].
  case_decide as Hk.
  - apply (inj pretty) in Hk. subst. intros _. left.
  - intros H. right. by apply IH.
Qed.

Lemma shotTypeLabel_decimal_key (z : Z) :
  JS.prop shotTypeLabel (pretty z) ≠ None →
  100 ≤ z ≤ 105 ∨ 200 ≤ z ≤ 204 ∨ 401 ≤ z ≤ 411.
Proof.
  intros H.
  apply (prop_decimal_keys
           [ (100, "3PT Default"); (101, "3PT Top Key"); (102, "3PT Wing");
             (103, "3PT Corner"); (104, "3PT Long"); (105, "3PT Halfcourt");
             (200, "2PT Default"); (201, "2PT Elbow"); (202, "2PT Wing");
             (203, "2PT Baseline"); (204, "2PT Top Key");
             (401, "Dunk"); (402, "Layup"); (403, "Post Move");
             (404, "Fade Away"); (405, "Hook"); (406, "Off Dribble J");
             (407, "Putback Dunk"); (408, "Tip-in"); (409, "Rebound Shot");
             (410, "Dunk"); (411, "Driving Layup") ]) in H.
  simpl in H. rewrite !elem_of_cons, elem_of_nil in H. lia.
Qed.

Lemma getShotRange_by_code_aux_three (z : Z) :
  100 ≤ z ≤ 105 → getShotRange (JS.Num (JS.Fin z)) = "three".
Proof.
  intros Hz.
  assert (z = 100 ∨ z = 101 ∨ z = 102 ∨ z = 103 ∨ z = 104 ∨ z = 105) as Hcase by lia.
  repeat (destruct Hcase as [->|Hcase]; [by vm_compute|]). by subst.
Qed.

Lemma getShotRange_by_code_aux_jump (z : Z) :
  200 ≤ z ≤ 204 → getShotRange (JS.Num (JS.Fin z)) = "jump".
Proof.
  intros Hz.
  assert (z = 200 ∨ z = 201 ∨ z = 202 ∨ z = 203 ∨ z = 204) as Hcase by lia.
  repeat (destruct Hcase as [->|Hcase]; [by vm_compute|]). by subst.
Qed.

Lemma getShotRange_by_code_aux_paint (z : Z) :
  401 ≤ z ≤ 411 → getShotRange (JS.Num (JS.Fin z)) = "paint".
Proof.
  intros Hz.
  assert (z = 401 ∨ z = 402 ∨ z = 403 ∨ z = 404 ∨ z = 405 ∨ z = 406 ∨ z = 407
          ∨ z = 408 ∨ z = 409 ∨ z = 410 ∨ z = 411) as Hcase by lia.
  repeat (destruct Hcase as [->|Hcase]; [by vm_compute|]). by subst.
Qed.

Lemma getShotRange_other_paint (z : Z) :
  ¬ 100 ≤ z ≤ 105 → ¬ 200 ≤ z ≤ 204 → getShotRange (JS.Num (JS.Fin z)) = "paint".
Proof.
  intros H3 H2.
  destruct (decide (401 ≤ z ≤ 411)) as [H4|H4];
    [by apply getShotRange_by_code_aux_paint|].
  unfold getShotRange.
  change (JS.String (JS.Num (JS.Fin z))) with (pretty z).
  destruct (JS.prop shotTypeLabel (pretty z)) as [l|] eqn:El.
  { assert (JS.prop shotTypeLabel (pretty z) ≠ None) as Hk by congruence.
    apply shotTypeLabel_decimal_key in Hk. lia. }
  unfold JS.or_str. by rewrite !decimal_no_PT by apply pretty_Z_decimal.
Qed.

(** X3: the range of every value: three exactly for the codes 100..105,
    jump exactly for 200..204, and paint for everything else - the codes
    401..411, any code that is not in the label table, null and an absent
    shot type. *)
Theorem getShotRange_of_every_code (code : JS.val) :
  (getShotRange code = "three" ↔ ∃ z, code = JS.Num (JS.Fin z) ∧ 100 ≤ z ≤ 105) ∧
  (getShotRange code = "jump" ↔ ∃ z, code = JS.Num (JS.Fin z) ∧ 200 ≤ z ≤ 204) ∧
  (getShotRange code = "paint" ↔
     ¬ ∃ z, code = JS.Num (JS.Fin z) ∧ (100 ≤ z ≤ 105 ∨ 200 ≤ z ≤ 204)).
Proof.
  assert ((∃ z, code = JS.Num (JS.Fin z)) ∨ ¬ ∃ z, code = JS.Num (JS.Fin z))
    as [[z ->]|Hother].
  { destruct code as [[z| |?]| |]; eauto; right; by intros (? & ?). }
  - destruct (decide (100 ≤ z ≤ 105)) as [H3|H3];
      [|destruct (decide (200 ≤ z ≤ 204)) as [H2|H2]].
    + rewrite (getShotRange_by_code_aux_three z H3).
      split; [|split]; split; intros H;
        first [ done | by eauto | by destruct H as (? & [= <-] & ?); lia
              | by destruct H; eauto ].
    + rewrite (getShotRange_by_code_aux_jump z H2).
      split; [|split]; split; intros H;
        first [ done | by eauto | by destruct H as (? & [= <-] & ?); lia
              | by destruct H; eauto ].
    + rewrite (getShotRange_other_paint z H3 H2).
      split; [|split]; split; intros H;
        first [ done | by destruct H as (? & [= <-] & ?); lia
              | by intros (? & [= <-] & ?); lia ].
  - assert (getShotRange code = "paint") as ->.
    { destruct code as [[z| |[]]| |]; try by vm_compute. destruct Hother. eauto. }
    split; [|split]; split; intros H;
      first [ done | by destruct H as (? & -> & ?); destruct Hother; eauto
            | by intros (? & -> & ?); destruct Hother; eauto ].
Qed.

(** ** The offense shot profile as a table *)

Lemma balanced_zero : balanced zeroOffCell.
Proof. done. Qed.

Lemma balanced_addOffStat (c : offCell) (rc : JS.val) :
  balanced c → balanced (addOffStat c rc).
Proof.
  unfold balanced. rewrite addOffStat_credit.
  destruct (outcome_of rc); simpl; lia.
Qed.

Lemma balanced_addCell (x y : offCell) : balanced x → balanced y → balanced (addCell x y).
Proof. unfold balanced. simpl. lia. Qed.

Lemma balanced_cellAt (cells : gmap string offCell) (c : string) :
  map_Forall (λ _ cell, balanced cell) cells → balanced (cellAt cells c).
Proof.
  intros H. unfold cellAt. destruct (cells !! c) as [cell|] eqn:E; simpl.
  - by apply (H c).
  - apply balanced_zero.
Qed.

Lemma balanced_zeroCounts (codes : list string) :
  map_Forall (λ _ cell, balanced cell) (zeroCounts codes).
Proof.
  intros c cell. rewrite zeroCounts_lookup. case_decide; [|done].
  intros [= <-]. apply balanced_zero.
Qed.

Lemma balanced_playerCounts (codes : list string) (side : Z) (len i : nat)
    (shots : list event) :
  map_Forall (λ _ cell, balanced cell) (playerCounts codes side len i shots).
Proof.
  unfold playerCounts. generalize (balanced_zeroCounts codes).
  generalize (zeroCounts codes) as counts.
  induction shots as [|ev shots IH]; intros counts Hc; simpl; [done|].
  apply IH. unfold countShot.
  repeat case_match; try done.
  apply map_Forall_insert_2; [|done].
  apply balanced_addOffStat. by eapply (Hc _).
Qed.

Lemma balanced_sumOffCells (cells : gmap string offCell) (codes : list string) :
  map_Forall (λ _ cell, balanced cell) cells → balanced (sumOffCells cells codes).
Proof.
  intros H. unfold sumOffCells.
  generalize balanced_zero. generalize zeroOffCell as out.
  induction codes as [|c codes IH]; intros out Hout; simpl; [done|].
  apply IH, balanced_addCell; [done|by apply balanced_cellAt].
Qed.

Lemma balanced_addCounts (codes : list string) (teamCounts counts : gmap string offCell) :
  map_Forall (λ _ cell, balanced cell) teamCounts →
  map_Forall (λ _ cell, balanced cell) counts →
  map_Forall (λ _ cell, balanced cell) (addCounts codes teamCounts counts).
Proof.
  intros Ht Hc. unfold addCounts. revert teamCounts Ht.
  induction codes as [|c codes IH]; intros teamCounts Ht; simpl; [done|].
  apply IH, map_Forall_insert_2; [|done].
  apply balanced_addCell; by apply balanced_cellAt.
Qed.

Lemma balanced_teamPass (codes : list string) (t : team) (side : Z)
    (shots : list event) :
  Forall (λ r, balanced (row_total r)
               ∧ map_Forall (λ _ cell, balanced cell) (row_counts r))
         (teamPass codes t side shots).1
  ∧ map_Forall (λ _ cell, balanced cell) (teamPass codes t side shots).2.
Proof.
  unfold teamPass. split.
  - rewrite teamPass_rows. apply Forall_forall. intros r Hr.
    apply elem_of_lookup_imap in Hr as (i & p & -> & _). simpl.
    split; [apply balanced_sumOffCells|]; apply balanced_playerCounts.
  - induction (players t) as [|p l IH] using rev_ind;
      [apply balanced_zeroCounts|].
    rewrite imap_app, foldl_app. simpl.
    apply balanced_addCounts; [done|apply balanced_playerCounts].
Qed.

(** X4: in the offense shot profile every cell adds up: attempts = made +
    missed + blocked, in every cell and total of every player row, in every
    cell and total of both team rows, and in the game total. *)
Theorem offense_profile_cells_add_up (home away : team) (events : list event) :
  Forall (λ r, balanced (row_total r)
               ∧ map_Forall (λ _ cell, balanced cell) (row_counts r))
         (osp_playerRowsData (renderOffenseShotProfile home away events)) ∧
  map_Forall (λ _ cell, balanced cell)
             (osp_teamCounts0 (renderOffenseShotProfile home away events)) ∧
  map_Forall (λ _ cell, balanced cell)
             (osp_teamCounts1 (renderOffenseShotProfile home away events)) ∧
  balanced (osp_homeTotal (renderOffenseShotProfile home away events)) ∧
  balanced (osp_awayTotal (renderOffenseShotProfile home away events)) ∧
  balanced (osp_gameTotal (renderOffenseShotProfile home away events)).
Proof.
  unfold renderOffenseShotProfile. simpl.
  destruct (balanced_teamPass (typeCodes (shotEvents events)) home 0 (shotEvents events))
    as [Hr0 Hc0].
  destruct (balanced_teamPass (typeCodes (shotEvents events)) away 1 (shotEvents events))
    as [Hr1 Hc1].
  split; [by apply Forall_app|].
  split; [done|]. split; [done|].
  assert (balanced (sumOffCells (teamPass (typeCodes (shotEvents events)) home 0
                                   (shotEvents events)).2
                                (typeCodes (shotEvents events)))) as H0
    by by apply balanced_sumOffCells.
  assert (balanced (sumOffCells (teamPass (typeCodes (shotEvents events)) away 1
                                   (shotEvents events)).2
                                (typeCodes (shotEvents events)))) as H1
    by by apply balanced_sumOffCells.
  split; [done|]. split; [done|]. by apply balanced_addCell.
Qed.

Lemma playerRowsData_rosters (home away : team) (events : list event) :
  (λ r, (row_side r, row_team r, row_name r))
    <$> osp_playerRowsData (renderOffenseShotProfile home away events)
  = (((λ p, (0, team_name home, player_name p)) <$> players home)
     ++ ((λ p, (1, team_name away, player_name p)) <$> players away))%list.
Proof.
  unfold renderOffenseShotProfile, teamPass. simpl.
  rewrite fmap_app, !teamPass_rows. f_equal.
  - generalize (length (players home)) as len. intros len.
    induction (players home) as [|p l IH] using rev_ind; [done|].
    rewrite imap_app, !fmap_app, IH. done.
  - generalize (length (players away)) as len. intros len.
    induction (players away) as [|p l IH] using rev_ind; [done|].
    rewrite imap_app, !fmap_app, IH. done.
Qed.

Lemma Forall2_imap_same {A B C} (R : B → C → Prop) (f : nat → A → B)
    (g : nat → A → C) (l : list A) :
  (∀ i x, l !! i = Some x → R (f i x) (g i x)) →
  Forall2 R (imap f l) (imap g l).
Proof.
  induction l as [|x l IH] using rev_ind; intros H; [constructor|].
  rewrite !imap_app. apply Forall2_app.
  - apply IH. intros i y Hy. apply H. by apply lookup_app_l_Some.
  - simpl. constructor; [|constructor]. apply H.
    rewrite Nat.add_0_r. by apply list_lookup_middle.
Qed.

(** X6: the row of the player at roster index i of a side counts exactly
    the shots of that side whose attacker slot resolves to i: its total is
    their tally, its cell for a shot type is the tally of those of that
    type, and it has a cell for every shot type of the game and no other. *)
Theorem offense_profile_row_counts (home away : team) (events : list event) :
  Forall2
    (λ r slot,
       row_side r = slot.1.1 ∧
       row_total r
       = tally (filter (λ ev, attributed slot.1.1 slot.1.2 slot.2 ev) (shotEvents events)) ∧
       ∀ code,
         row_counts r !! code
         = if decide (code ∈ typeCodes (shotEvents events))
           then Some (tally (filter (λ ev, attributed slot.1.1 slot.1.2 slot.2 ev
                                           && has_type code ev)
                                    (shotEvents events)))
           else None)
    (osp_playerRowsData (renderOffenseShotProfile home away events))
    (roster_slots home away).
Proof.
  unfold renderOffenseShotProfile, roster_slots, teamPass. simpl.
  rewrite !teamPass_rows.
  apply Forall2_app; apply Forall2_imap_same; intros i p _; simpl;
    (split; [done|]); (split; [apply row_total_tally|]);
    intros code; apply playerCounts_lookup.
Qed.

Lemma tally_attempts (shots : list event) : Off.a (tally shots) = length shots.
Proof.
  rewrite tally_cellSum. induction shots as [|ev shots IH]; simpl; [done|].
  rewrite IH. unfold unitCell. by destruct (outcome_of (shot_result ev)).
Qed.

Lemma cellSum_app (l1 l2 : list offCell) :
  cellSum (l1 ++ l2) = addCell (cellSum l1) (cellSum l2).
Proof.
  induction l1 as [|x l1 IH]; simpl; [by rewrite addCell_zero_l|].
  by rewrite IH, addCell_assoc.
Qed.

Lemma team_rows_sum (t : team) (side : Z) (shots : list event) :
  cellSum (row_total <$> (teamPass (typeCodes shots) t side shots).1)
  = tally (filter (λ ev, resolved side (length (players t)) ev) shots).
Proof.
  rewrite team_rows_tally, <- tally_by_player.
  generalize (seq 0 (length (players t))) as l.
  induction l as [|i l IH]; simpl; [done|]. by rewrite <- IH.
Qed.

Lemma resolved_sides_disjoint (n0 n1 : nat) (ev : event) :
  resolved 0 n0 ev → resolved 1 n1 ev → False.
Proof.
  unfold resolved. rewrite !andb_True.
  intros [H0 _] [H1 _].
  destruct (JS.Number (attacking_team ev)) as [z| |sg]; simpl in *; try done.
  apply bool_decide_unpack in H0, H1. lia.
Qed.

(** X7: a team's total in the offense shot profile is the tally of the
    shots of its side whose attacker resolves to one of its players; the
    game total is the sum of all the player rows' totals, and its attempts
    never exceed the number of shot events. *)
Theorem offense_profile_totals (home away : team) (events : list event) :
  osp_homeTotal (renderOffenseShotProfile home away events)
  = tally (filter (λ ev, resolved 0 (length (players home)) ev) (shotEvents events)) ∧
  osp_awayTotal (renderOffenseShotProfile home away events)
  = tally (filter (λ ev, resolved 1 (length (players away)) ev) (shotEvents events)) ∧
  osp_gameTotal (renderOffenseShotProfile home away events)
  = cellSum (row_total <$> osp_playerRowsData (renderOffenseShotProfile home away events)) ∧
  (Off.a (osp_gameTotal (renderOffenseShotProfile home away events))
   ≤ length (shotEvents events))%nat.
Proof.
  unfold renderOffenseShotProfile. simpl.
  rewrite !team_total_tally, fmap_app, cellSum_app, !team_rows_sum.
  repeat split. simpl. rewrite !tally_attempts.
  rewrite <- (length_filter_or (resolved 0 (length (players home)))
                               (resolved 1 (length (players away))))
    by apply resolved_sides_disjoint.
  apply length_filter.
Qed.

(** X8: the columns of the profile: the shot type strings of the shot
    events, each once; every shot has its column, and no column is without
    a shot. *)
Theorem typeCodes_are_the_shot_types (events : list event) (code : string) :
  NoDup (typeCodes (shotEvents events)) ∧
  (code ∈ typeCodes (shotEvents events) ↔
   ∃ ev, ev ∈ events ∧ event_type ev = "shot" ∧ JS.String (shot_type ev) = code).
Proof.
  split; [apply typeCodes_NoDup|].
  rewrite typeCodes_spec. unfold shotEvents.
  split.
  - intros (ev & Hev & <-). apply list_elem_of_filter in Hev as [? ?]. eauto.
  - intros (ev & Hev & Hshot & <-). exists ev. split; [|done].
    by apply list_elem_of_filter.
Qed.

(** ** Strengths and weaknesses: the tables by range *)

Lemma emptyByRange_lookup (t : team) (range : string) :
  emptyByRange t !! range
  = if decide (range ∈ ranges)
    then Some (map (λ p, {| re_name := player_name p; re_a := 0; re_m := 0 |}) (players t))
    else None.
Proof.
  unfold emptyByRange, ranges. simpl.
  destruct (decide (range = "three")) as [->|H3]; [by rewrite lookup_insert_eq|].
  rewrite lookup_insert_ne by done.
  destruct (decide (range = "jump")) as [->|H2]; [by rewrite lookup_insert_eq|].
  rewrite lookup_insert_ne by done.
  destruct (decide (range = "paint")) as [->|H1]; [by rewrite lookup_insert_eq|].
  rewrite lookup_insert_ne by done. rewrite lookup_empty.
  rewrite decide_False; [done|].
  rewrite !elem_of_cons, elem_of_nil. tauto.
Qed.

Lemma credited_snoc_count {A} (P : A → bool) (shots : list A) (ev : A) :
  length (filter (λ e, P e) (shots ++ [ev])%list)
  = (length (filter (λ e, P e) shots) + (if P ev then 1 else 0))%nat.
Proof.
  rewrite filter_app, length_app, filter_cons. simpl.
  by destruct (P ev).
Qed.

Lemma byRange_fold (side_of slot_of : event → JS.val) (teamSide : Z) (t : team)
    (shots : list event) (range : string) :
  foldl (creditRange side_of slot_of teamSide (length (players t)))
        (emptyByRange t) shots !! range
  = if decide (range ∈ ranges)
    then Some (rangeEntries side_of slot_of teamSide t range shots)
    else None.
Proof.
  revert range. induction shots as [|ev shots IH] using rev_ind; intros range.
  { simpl. rewrite emptyByRange_lookup. case_decide; [|done]. f_equal.
    unfold rangeEntries. simpl.
    induction (players t) as [|p l IHl] using rev_ind; [done|].
    by rewrite imap_app, map_app, IHl. }
  rewrite foldl_app. simpl. unfold creditRange at 1.
  set (out := foldl _ _ shots) in *.
  assert (∀ i r, credited side_of slot_of teamSide (length (players t)) i r ev = false →
            rangeEntries side_of slot_of teamSide t r (shots ++ [ev])%list !! i
            = rangeEntries side_of slot_of teamSide t r shots !! i) as Hsame.
  { intros i r Hc. unfold rangeEntries. rewrite !list_lookup_imap.
    destruct (players t !! i) as [p|]; simpl; [|done].
    rewrite !credited_snoc_count, Hc. simpl. by rewrite !Nat.add_0_r. }
  destruct (JS.seq (JS.Number (side_of ev)) (JS.Fin teamSide)) eqn:Eside; simpl.
  2:{ rewrite IH. case_decide; [|done]. f_equal. apply list_eq. intros i.
      symmetry. apply Hsame. unfold credited. by rewrite Eside. }
  destruct (normalizeSlot (slot_of ev) (length (players t))) as [idx|] eqn:Eslot.
  2:{ rewrite IH. case_decide; [|done]. f_equal. apply list_eq. intros i.
      symmetry. apply Hsame. unfold credited. by rewrite Eside, Eslot. }
  pose proof (normalizeSlot_range _ _ _ Eslot) as Hidx.
  pose proof (getShotRange_total (shot_type ev)) as Hr.
  rewrite decide_True by (rewrite IH, decide_True by done; eauto).
  rewrite lookup_alter, IH.
  destruct (decide (getShotRange (shot_type ev) = range)) as [<-|Hne].
  - rewrite decide_True by done. rewrite decide_True by done.
    simpl. f_equal. apply list_eq. intros i.
    rewrite list_lookup_alter.
    destruct (decide (Z.to_nat idx = i)) as [<-|Hi].
    + unfold rangeEntries. rewrite !list_lookup_imap.
      destruct (players t !! Z.to_nat idx) as [p|]; simpl; [|done].
      assert (credited side_of slot_of teamSide (length (players t)) (Z.to_nat idx)
                (getShotRange (shot_type ev)) ev = true) as Hc.
      { unfold credited. rewrite Eside, Eslot, Z2Nat.id by lia.
        by rewrite !bool_decide_eq_true_2 by done. }
      rewrite !credited_snoc_count, Hc. unfold bumpEntry, is_made. simpl.
      f_equal. destruct (bool_decide (JS.String (shot_result ev) ∈ madeResults));
        f_equal; lia.
    + symmetry. apply Hsame. unfold credited. rewrite Eside, Eslot. simpl.
      rewrite bool_decide_eq_false_2; [done|]. intros [= ->]. lia.
  - rewrite IH. case_decide; [|done]. f_equal. apply list_eq. intros i.
    symmetry. apply Hsame. unfold credited.
    rewrite (bool_decide_eq_false_2 (getShotRange _ = _)) by done.
    by rewrite andb_false_r.
Qed.

Lemma length_filter_and_le {A} (P Q : A → bool) (l : list A) :
  (length (filter (λ x, P x && Q x) l) ≤ length (filter (λ x, P x) l))%nat.
Proof.
  induction l as [|x l IH]; [done|].
  rewrite !filter_cons. destruct (P x), (Q x); simpl; lia.
Qed.

Lemma rangeEntries_made_le (side_of slot_of : event → JS.val) (teamSide : Z)
    (t : team) (range : string) (shots : list event) :
  Forall (λ e, (re_m e ≤ re_a e)%nat)
         (rangeEntries side_of slot_of teamSide t range shots).
Proof.
  apply Forall_forall. intros e He.
  apply elem_of_lookup_imap in He as (i & p & -> & _). simpl.
  apply (length_filter_and_le
           (credited side_of slot_of teamSide (length (players t)) i range) is_made).
Qed.

Lemma count_by_range (P : event → bool) (shots : list event) :
  (length (filter (λ ev, P ev && bool_decide (getShotRange (shot_type ev) = "three")) shots)
   + length (filter (λ ev, P ev && bool_decide (getShotRange (shot_type ev) = "jump")) shots)
   + length (filter (λ ev, P ev && bool_decide (getShotRange (shot_type ev) = "paint")) shots)
   = length (filter (λ ev, P ev) shots))%nat.
Proof.
  induction shots as [|ev shots IH]; [done|].
  rewrite !filter_cons.
  pose proof (getShotRange_total (shot_type ev)) as Hr.
  rewrite !elem_of_cons, elem_of_nil in Hr.
  destruct (P ev); simpl; [|done].
  destruct Hr as [-> | [-> | [-> | []]]]; simpl; lia.
Qed.

Lemma credited_attributed (teamSide : Z) (len i : nat) (range : string) (ev : event) :
  credited attacking_team attacker teamSide len i range ev
  = attributed teamSide len i ev && bool_decide (getShotRange (shot_type ev) = range).
Proof. done. Qed.

Lemma filter_pointwise {A} (P Q : A → bool) (l : list A) :
  (∀ x, P x = Q x) → filter (λ x, P x) l = filter (λ x, Q x) l.
Proof. intros H. apply list_filter_iff. intros x. by rewrite H. Qed.

Lemma tally_made (P : event → bool) (shots : list event) :
  Off.m (tally (filter (λ ev, P ev) shots))
  = length (filter (λ ev, P ev && is_made ev) shots).
Proof.
  rewrite tally_filter. induction shots as [|ev shots IH]; [done|].
  rewrite filter_cons. simpl. rewrite IH. unfold is_made.
  destruct (P ev); simpl; [|done].
  unfold unitCell.
  destruct (decide (JS.String (shot_result ev) ∈ madeResults)) as [Hm|Hm].
  - rewrite bool_decide_eq_true_2 by done. apply String_made in Hm. by rewrite Hm.
  - rewrite bool_decide_eq_false_2 by done. rewrite String_made in Hm.
    by destruct (outcome_of (shot_result ev)).
Qed.

(** The attempts and the made shots of a player over the three ranges. *)
Lemma rangeEntries_sum (teamSide : Z) (t : team) (shots : list event) (i : nat)
    (p : player) :
  players t !! i = Some p →
  ∃ e3 e2 e1,
    rangeEntries attacking_team attacker teamSide t "three" shots !! i = Some e3 ∧
    rangeEntries attacking_team attacker teamSide t "jump" shots !! i = Some e2 ∧
    rangeEntries attacking_team attacker teamSide t "paint" shots !! i = Some e1 ∧
    (re_a e3 + re_a e2 + re_a e1)%nat
    = Off.a (tally (filter (λ ev, attributed teamSide (length (players t)) i ev) shots)) ∧
    (re_m e3 + re_m e2 + re_m e1)%nat
    = Off.m (tally (filter (λ ev, attributed teamSide (length (players t)) i ev) shots)).
Proof.
  intros Hp. unfold rangeEntries. rewrite !list_lookup_imap, Hp. simpl.
  eexists _, _, _. repeat (split; [reflexivity|]). simpl.
  rewrite tally_attempts, tally_made. split.
  - rewrite <- (count_by_range (attributed teamSide (length (players t)) i)).
    done.
  - rewrite <- (count_by_range
                  (λ ev, attributed teamSide (length (players t)) i ev && is_made ev)).
    f_equal; [f_equal|]; f_equal; apply filter_pointwise; intros ev;
      rewrite credited_attributed;
      destruct (attributed _ _ _ _), (is_made ev); simpl; try done;
      by rewrite ?andb_true_r, ?andb_false_r.
Qed.

Lemma offense_rows_home (home away : team) (events : list event) (i : nat) (p : player) :
  players home !! i = Some p →
  ∃ r, osp_playerRowsData (renderOffenseShotProfile home away events) !! i = Some r ∧
       row_total r
       = tally (filter (λ ev, attributed 0 (length (players home)) i ev)
                       (shotEvents events)).
Proof.
  intros Hp. unfold renderOffenseShotProfile, teamPass. simpl.
  rewrite !teamPass_rows.
  rewrite lookup_app_l by (rewrite length_imap; by eapply lookup_lt_Some).
  rewrite list_lookup_imap, Hp. simpl. eexists. split; [reflexivity|].
  simpl. apply row_total_tally.
Qed.

Lemma buildOffenseByRange_lookup (home away : team) (teamSide : Z)
    (events : list event) (range : string) :
  buildOffenseByRange home away teamSide events !! range
  = if decide (range ∈ ranges)
    then Some (rangeEntries attacking_team attacker teamSide
                 (getTeamBySide home away (JS.Fin teamSide)) range (shotEvents events))
    else None.
Proof. apply (byRange_fold attacking_team attacker). Qed.

(** ** The tables by range over raw slots *)

Section WideTables.

Variable side_of : event → JS.val.
Variable slot_of : Wide.event → Wide.val.
Variable teamSide : Z.
Variable t : team.

Local Abbreviation len := (length (players t)).
Local Abbreviation the_credited := (Wide.credited side_of slot_of teamSide len).
Local Abbreviation the_entries := (Wide.rangeEntries side_of slot_of teamSide t).
Local Abbreviation the_table := (Wide.tableOf side_of slot_of teamSide t).
Local Abbreviation the_step :=
  (λ acc ev, out ← acc; Wide.creditRange side_of slot_of teamSide len out ev).

Lemma tableOf_lookup (shots : list Wide.event) (range : string) :
  the_table shots !! range
  = if decide (range ∈ ranges) then Some (the_entries range shots) else None.
Proof.
  unfold Wide.tableOf, ranges. simpl.
  destruct (decide (range = "three")) as [->|H3]; [by rewrite lookup_insert_eq|].
  rewrite lookup_insert_ne by done.
  destruct (decide (range = "jump")) as [->|H2]; [by rewrite lookup_insert_eq|].
  rewrite lookup_insert_ne by done.
  destruct (decide (range = "paint")) as [->|H1]; [by rewrite lookup_insert_eq|].
  rewrite lookup_insert_ne by done. rewrite lookup_empty.
  rewrite decide_False; [done|].
  rewrite !elem_of_cons, elem_of_nil. tauto.
Qed.

Lemma tableOf_nil : the_table [] = emptyByRange t.
Proof.
  apply map_eq. intros range. rewrite tableOf_lookup, emptyByRange_lookup.
  case_decide; [|done]. f_equal. unfold Wide.rangeEntries. simpl.
  induction (players t) as [|p l IHl] using rev_ind; [done|].
  by rewrite imap_app, map_app, IHl.
Qed.

Lemma length_the_entries (range : string) (shots : list Wide.event) :
  length (the_entries range shots) = len.
Proof. unfold Wide.rangeEntries. by rewrite length_imap. Qed.

Lemma the_entries_snoc (range : string) (shots : list Wide.event) (ev : Wide.event)
    (i : nat) :
  the_entries range (shots ++ [ev])%list !! i
  = (λ e, if the_credited i range ev
          then bumpEntry (is_made (Wide.base ev)) e else e)
    <$> the_entries range shots !! i.
Proof.
  unfold Wide.rangeEntries. rewrite !list_lookup_imap.
  destruct (players t !! i) as [p|]; simpl; [|done].
  rewrite !credited_snoc_count.
  destruct (the_credited i range ev); simpl.
  - unfold bumpEntry. simpl. f_equal. f_equal; [lia|].
    destruct (is_made (Wide.base ev)); simpl; lia.
  - by rewrite !Nat.add_0_r.
Qed.

Lemma tableOf_snoc_same (shots : list Wide.event) (ev : Wide.event) :
  (∀ i range, the_credited i range ev = false) →
  the_table (shots ++ [ev])%list = the_table shots.
Proof.
  intros Hc. apply map_eq. intros range. rewrite !tableOf_lookup.
  case_decide; [|done]. f_equal. apply list_eq. intros i.
  rewrite the_entries_snoc, Hc. by destruct (the_entries range shots !! i).
Qed.

Lemma slot_index_bounds (v : Wide.val) (z : Z) :
  Wide.normalizeSlot v len = Some (Wide.of_Z z) → 0 ≤ z < Z.of_nat len.
Proof.
  intros Hs. apply Wide_normalizeSlot_Some in Hs as (n & _ & H1 & H2 & Hn).
  assert (Qc_of_Z z = (n - 1)%Qc) as Hi by (unfold Wide.of_Z in Hn; congruence).
  assert (n = Qc_of_Z (z + 1)) as ->.
  { rewrite Z2Qc_inj_add, Z2Qc_inj_1, Hi. ring. }
  rewrite <- Z2Qc_inj_1, <- Z2Qc_inj_le in H1. rewrite <- Z2Qc_inj_le in H2. lia.
Qed.

Lemma wide_byRange_fold (shots : list Wide.event) :
  foldl the_step (Some (emptyByRange t)) shots
  = if existsb (Wide.fractional_slot side_of slot_of teamSide len) shots
    then None else Some (the_table shots).
Proof.
  induction shots as [|ev shots IH] using rev_ind.
  { simpl. by rewrite tableOf_nil. }
  rewrite foldl_app, existsb_app, IH. simpl.
  destruct (existsb _ shots); [done|]. simpl. rewrite orb_false_r.
  unfold Wide.creditRange, Wide.fractional_slot.
  destruct (JS.seq (JS.Number (side_of (Wide.base ev))) (JS.Fin teamSide)) eqn:Eside; simpl.
  2:{ rewrite tableOf_snoc_same; [done|]. intros i r. unfold Wide.credited.
      by rewrite Eside. }
  destruct (Wide.normalizeSlot (slot_of ev) len) as [idx|] eqn:Eslot.
  2:{ rewrite tableOf_snoc_same; [done|]. intros i r. unfold Wide.credited.
      by rewrite Eside, Eslot. }
  assert (∃ q, idx = Wide.Fin q) as [q ->].
  { apply Wide_normalizeSlot_Some in Eslot as (n & _ & _ & _ & ->). eauto. }
  pose proof (getShotRange_total (shot_type (Wide.base ev))) as Hr.
  rewrite tableOf_lookup, decide_True by done.
  unfold Wide.bumpAt.
  destruct (Wide.is_integer q) eqn:Eint; simpl; [|done].
  apply is_integer_spec in Eint as [z ->].
  pose proof (slot_index_bounds _ _ Eslot) as Hz.
  rewrite Qfloor_of_Z, bool_decide_eq_true_2 by lia.
  destruct (lookup_lt_is_Some_2
              (the_entries (getShotRange (shot_type (Wide.base ev))) shots) (Z.to_nat z))
    as [e He]; [rewrite length_the_entries; lia|].
  rewrite He. simpl. f_equal.
  apply map_eq. intros range. rewrite tableOf_lookup.
  destruct (decide (getShotRange (shot_type (Wide.base ev)) = range)) as [<-|Hne].
  - rewrite lookup_insert_eq, decide_True by done. f_equal.
    apply list_eq. intros i. rewrite the_entries_snoc.
    destruct (decide (Z.to_nat z = i)) as [<-|Hi].
    + rewrite list_lookup_insert_eq by (by eapply lookup_lt_Some).
      rewrite He. simpl. unfold Wide.credited.
      rewrite Eside, Eslot, Z2Nat.id by lia.
      rewrite (bool_decide_eq_true_2 (Some _ = Some _)) by done.
      by rewrite (bool_decide_eq_true_2 (getShotRange _ = _)) by done.
    + rewrite list_lookup_insert_ne by done.
      assert (the_credited i (getShotRange (shot_type (Wide.base ev))) ev = false) as ->.
      { unfold Wide.credited. rewrite Eside, Eslot. simpl.
        rewrite bool_decide_eq_false_2; [done|].
        intros [= Heq]. lia. }
      by destruct (_ !! i).
  - rewrite lookup_insert_ne, tableOf_lookup by done.
    case_decide; [|done]. f_equal. apply list_eq. intros i.
    rewrite the_entries_snoc.
    assert (the_credited i range ev = false) as ->.
    { unfold Wide.credited.
      rewrite (bool_decide_eq_false_2 (getShotRange _ = _)) by done.
      by rewrite andb_false_r. }
    by destruct (_ !! i).
Qed.

Lemma the_entries_made_le (range : string) (shots : list Wide.event) :
  Forall (λ e, (re_m e ≤ re_a e)%nat) (the_entries range shots).
Proof.
  apply Forall_forall. intros e He.
  apply elem_of_lookup_imap in He as (i & p & -> & _). simpl.
  apply (length_filter_and_le (the_credited i range) (λ ev, is_made (Wide.base ev))).
Qed.

End WideTables.

(** On the events of the payload model the tables over raw slots are
    those of [buildOffenseByRange] and [buildDefenseByRange]. *)
Lemma shotEvents_embed (events : list event) :
  Wide.shotEvents (Wide.embed <$> events) = Wide.embed <$> shotEvents events.
Proof.
  unfold Wide.shotEvents, shotEvents.
  induction events as [|ev events IH]; [done|].
  rewrite fmap_cons, !filter_cons. simpl.
  case_decide; by rewrite IH.
Qed.

Lemma length_filter_fmap {A B} (f : A → B) (P : B → bool) (l : list A) :
  length (filter (λ y, P y) (f <$> l)) = length (filter (λ x, P (f x)) l).
Proof.
  induction l as [|x l IH]; [done|].
  rewrite fmap_cons, !filter_cons. destruct (P (f x)); simpl; by rewrite IH.
Qed.

Lemma normalizeSlot_widen_Some (v : JS.val) (N : nat) (z : Z) :
  Wide.normalizeSlot (Wide.widen v) N = Some (Wide.of_Z z) ↔ normalizeSlot v N = Some z.
Proof.
  rewrite normalizeSlot_widen. destruct (normalizeSlot v N) as [i|]; simpl; [|done].
  split; [|by intros [= ->]]. by intros [= ->].
Qed.

Section Refinement.

Variable side_of : event → JS.val.
Variable slot_of : Wide.event → Wide.val.
Variable payload_slot : event → JS.val.
Hypothesis slot_of_embed : ∀ ev, slot_of (Wide.embed ev) = Wide.widen (payload_slot ev).
Variable teamSide : Z.
Variable t : team.

Lemma credited_embed (i : nat) (range : string) (ev : event) :
  Wide.credited side_of slot_of teamSide (length (players t)) i range (Wide.embed ev)
  = credited side_of payload_slot teamSide (length (players t)) i range ev.
Proof.
  unfold Wide.credited, credited. simpl. rewrite slot_of_embed. f_equal. f_equal.
  apply bool_decide_ext, normalizeSlot_widen_Some.
Qed.

Lemma fractional_slot_embed (shots : list event) :
  existsb (Wide.fractional_slot side_of slot_of teamSide (length (players t)))
          (Wide.embed <$> shots) = false.
Proof.
  induction shots as [|ev shots IH]; [done|].
  rewrite fmap_cons. simpl. rewrite IH, orb_false_r.
  unfold Wide.fractional_slot. rewrite slot_of_embed, normalizeSlot_widen.
  destruct (normalizeSlot _ _) as [i|]; simpl; [|by rewrite andb_false_r].
  by rewrite is_integer_of_Z, andb_false_r.
Qed.

Lemma wide_fold_embed (shots : list event) :
  foldl (λ acc ev,
           out ← acc;
           Wide.creditRange side_of slot_of teamSide (length (players t)) out ev)
        (Some (emptyByRange t)) (Wide.embed <$> shots)
  = Some (foldl (creditRange side_of payload_slot teamSide (length (players t)))
                (emptyByRange t) shots).
Proof.
  rewrite wide_byRange_fold, fractional_slot_embed. f_equal.
  apply map_eq. intros range. rewrite tableOf_lookup, byRange_fold.
  case_decide; [|done]. f_equal.
  unfold Wide.rangeEntries, rangeEntries. apply imap_ext. intros i p _.
  rewrite !length_filter_fmap. f_equal.
  - f_equal. apply filter_pointwise. intros ev. apply credited_embed.
  - f_equal. apply filter_pointwise. intros ev. by rewrite credited_embed.
Qed.

End Refinement.

(** X9: [buildOffenseByRange] over raw slots.  It stops with a TypeError
    exactly when a shot of the side has an attacker slot whose number is a
    fraction between 1 and the roster size.  Otherwise the table has
    exactly the keys three, jump and paint; under each, one entry per
    player of the side in roster order, the attempts counting the side's
    shots whose attacker resolves to that player in that range and the
    made counting those of them with a made result, so made never exceeds
    attempts.  For events of the payload model it never stops. *)
Theorem buildOffenseByRange_entries (home away : team) (teamSide : Z)
    (events : list Wide.event) :
  let t := getTeamBySide home away (JS.Fin teamSide) in
  let shots := Wide.shotEvents events in
  (Wide.buildOffenseByRange home away teamSide events = None ↔
   ∃ ev, ev ∈ shots ∧
         Wide.fractional_slot attacking_team Wide.attacker teamSide
                              (length (players t)) ev = true) ∧
  (∀ out range,
     Wide.buildOffenseByRange home away teamSide events = Some out →
     out !! range
     = if decide (range ∈ ranges)
       then Some (Wide.rangeEntries attacking_team Wide.attacker teamSide t range shots)
       else None) ∧
  (∀ range,
     Forall (λ e, (re_m e ≤ re_a e)%nat)
            (Wide.rangeEntries attacking_team Wide.attacker teamSide t range shots)) ∧
  (∀ payload,
     events = Wide.embed <$> payload →
     Wide.buildOffenseByRange home away teamSide events
     = Some (buildOffenseByRange home away teamSide payload)).
Proof.
  intros t shots. unfold Wide.buildOffenseByRange. fold t shots.
  rewrite wide_byRange_fold.
  split; [|split; [|split]].
  - destruct (existsb _ shots) eqn:E.
    + split; [intros _|done]. apply existsb_exists in E as (ev & Hev & Hfrac).
      exists ev. split; [by apply list_elem_of_In|done].
    + split; [done|]. intros (ev & Hev & Hfrac).
      apply not_true_iff_false in E. destruct E. apply existsb_exists.
      exists ev. split; [by apply list_elem_of_In|done].
  - intros out range. destruct (existsb _ shots); [done|].
    intros [= <-]. apply tableOf_lookup.
  - intros range. apply the_entries_made_le.
  - intros payload ->. unfold shots. rewrite shotEvents_embed.
    rewrite <- wide_byRange_fold.
    apply (wide_fold_embed attacking_team Wide.attacker attacker); done.
Qed.

(** X10: [buildDefenseByRange] over raw slots, likewise: a TypeError
    exactly when a shot against the side has a defender slot whose number
    is a fraction between 1 and the roster size; otherwise the keys three,
    jump and paint, one entry per player of the side in roster order,
    attempts counting the shots against the side whose defender resolves
    to that player in that range, made counting the made ones among
    them. *)
Theorem buildDefenseByRange_entries (home away : team) (teamSide : Z)
    (events : list Wide.event) :
  let t := getTeamBySide home away (JS.Fin teamSide) in
  let shots := Wide.shotEvents events in
  (Wide.buildDefenseByRange home away teamSide events = None ↔
   ∃ ev, ev ∈ shots ∧
         Wide.fractional_slot defending_team Wide.defender teamSide
                              (length (players t)) ev = true) ∧
  (∀ out range,
     Wide.buildDefenseByRange home away teamSide events = Some out →
     out !! range
     = if decide (range ∈ ranges)
       then Some (Wide.rangeEntries defending_team Wide.defender teamSide t range shots)
       else None) ∧
  (∀ range,
     Forall (λ e, (re_m e ≤ re_a e)%nat)
            (Wide.rangeEntries defending_team Wide.defender teamSide t range shots)) ∧
  (∀ payload,
     events = Wide.embed <$> payload →
     Wide.buildDefenseByRange home away teamSide events
     = Some (buildDefenseByRange home away teamSide payload)).
Proof.
  intros t shots. unfold Wide.buildDefenseByRange. fold t shots.
  rewrite wide_byRange_fold.
  split; [|split; [|split]].
  - destruct (existsb _ shots) eqn:E.
    + split; [intros _|done]. apply existsb_exists in E as (ev & Hev & Hfrac).
      exists ev. split; [by apply list_elem_of_In|done].
    + split; [done|]. intros (ev & Hev & Hfrac).
      apply not_true_iff_false in E. destruct E. apply existsb_exists.
      exists ev. split; [by apply list_elem_of_In|done].
  - intros out range. destruct (existsb _ shots); [done|].
    intros [= <-]. apply tableOf_lookup.
  - intros range. apply the_entries_made_le.
  - intros payload ->. unfold shots. rewrite shotEvents_embed.
    rewrite <- wide_byRange_fold.
    apply (wide_fold_embed defending_team Wide.defender defender); done.
Qed.

Lemma buildOffenseByRange_entries_witness :
  Wide.buildOffenseByRange trio (one_man "A") 0 [fractional_shot] = None.
Proof.
  apply (buildOffenseByRange_entries trio (one_man "A") 0 [fractional_shot]).
  exists fractional_shot. split; [left|]. by vm_compute.
Defined.

Lemma buildDefenseByRange_entries_witness :
  ∃ out, Wide.buildDefenseByRange trio (one_man "A") 1 [fractional_shot] = Some out ∧
         out !! "paint" = Some [ {| re_name := "P1"; re_a := 1; re_m := 0 |} ].
Proof.
  destruct (buildDefenseByRange_entries trio (one_man "A") 1 [fractional_shot])
    as (Hnone & Hsome & _).
  destruct (Wide.buildDefenseByRange trio (one_man "A") 1 [fractional_shot])
    as [out|] eqn:E.
  - exists out. split; [done|]. rewrite (Hsome out "paint" eq_refl). by vm_compute.
  - destruct Hnone as [Hnone _]. destruct (Hnone eq_refl) as (ev & Hev & Hfrac).
    apply elem_of_cons in Hev as [->|Hev]; [by vm_compute in Hfrac|].
    by apply elem_of_nil in Hev.
Defined.

(** X11: the two offensive views agree.  For the events of the payload
    model [buildOffenseByRange] returns its table, and for every player of
    the home team the attempts (and the made shots) of the three ranges
    of that table add up to the attempts (and the made shots) of the
    player's total in the offense shot profile. *)
Theorem ranges_add_up_to_profile_total (home away : team) (events : list event)
    (i : nat) (p : player) :
  players home !! i = Some p →
  ∃ out r e3 e2 e1,
    Wide.buildOffenseByRange home away 0 (Wide.embed <$> events) = Some out ∧
    osp_playerRowsData (renderOffenseShotProfile home away events) !! i = Some r ∧
    out !! "three" ≫= (.!! i) = Some e3 ∧
    out !! "jump" ≫= (.!! i) = Some e2 ∧
    out !! "paint" ≫= (.!! i) = Some e1 ∧
    (re_a e3 + re_a e2 + re_a e1)%nat = Off.a (row_total r) ∧
    (re_m e3 + re_m e2 + re_m e1)%nat = Off.m (row_total r).
Proof.
  intros Hp.
  destruct (rangeEntries_sum 0 home (shotEvents events) i p Hp)
    as (e3 & e2 & e1 & H3 & H2 & H1 & Ha & Hm).
  pose proof (offense_rows_home home away events i p Hp) as (r & Hr & Htot).
  exists (buildOffenseByRange home away 0 events), r, e3, e2, e1.
  split.
  { unfold Wide.buildOffenseByRange. rewrite shotEvents_embed.
    apply (wide_fold_embed attacking_team Wide.attacker attacker); done. }
  split; [done|].
  rewrite !buildOffenseByRange_lookup.
  change (getTeamBySide home away (JS.Fin 0)) with home.
  rewrite !decide_True by (unfold ranges; rewrite !elem_of_cons; tauto).
  cbn [mbind option_bind]. rewrite H3, H2, H1. repeat (split; [done|]).
  by rewrite Htot.
Qed.

(** ** The shot range charts *)

Lemma rangeCounts_eq (x y : rangeCounts) :
  three x = three y → jump x = jump y → paint x = paint y → x = y.
Proof. destruct x, y; simpl; congruence. Qed.

Lemma range_fold_slices (P : event → bool) (shots : list event) (init : rangeCounts) :
  foldl (λ counts ev, if P ev then bumpRange counts (getShotRange (shot_type ev))
                      else counts) init shots
  = {| three := three init + three (rangeSlices P shots);
       jump := jump init + jump (rangeSlices P shots);
       paint := paint init + paint (rangeSlices P shots) |}.
Proof.
  revert init. induction shots as [|ev shots IH]; intros init; simpl.
  { apply rangeCounts_eq; simpl; lia. }
  rewrite IH. unfold rangeSlices. rewrite !filter_cons.
  destruct (P ev); simpl; [|done].
  pose proof (getShotRange_total (shot_type ev)) as Hr.
  rewrite !elem_of_cons, elem_of_nil in Hr.
  destruct Hr as [-> | [-> | [-> | []]]]; apply rangeCounts_eq; simpl; lia.
Qed.

Lemma length_filter_imp {A} (P Q : A → bool) (l : list A) :
  (∀ x, P x → Q x) →
  (length (filter (λ x, P x) l) ≤ length (filter (λ x, Q x) l))%nat.
Proof.
  intros H. induction l as [|x l IH]; [done|].
  rewrite !filter_cons. specialize (H x).
  destruct (P x), (Q x); simpl in *; try lia.
Qed.

(** X12: the team chart of the shot ranges: each slice counts the shot
    events of the selected side whose shot type falls in the range, and
    the three slices together are all the shot events of that side. *)
Theorem teamRangeCounts_slices (tside : JS.num) (events : list event) :
  teamRangeCounts tside events = rangeSlices (by_side tside) (shotEvents events) ∧
  sumRangeCounts (teamRangeCounts tside events)
  = length (filter (λ ev, by_side tside ev) (shotEvents events)).
Proof.
  assert (teamRangeCounts tside events = rangeSlices (by_side tside) (shotEvents events))
    as E.
  { unfold teamRangeCounts.
    rewrite (foldl_pointwise _
      (λ counts ev, if by_side tside ev
                    then bumpRange counts (getShotRange (shot_type ev)) else counts)).
    - rewrite range_fold_slices. by apply rangeCounts_eq.
    - intros counts ev. unfold by_side. by destruct (JS.seq _ _). }
  split; [done|]. rewrite E. unfold sumRangeCounts, rangeSlices. simpl.
  apply count_by_range.
Qed.

(** X13: the player chart of the shot ranges, for the player at roster
    index i of a side: each slice is the attempts of that player in that
    range - the same number as in the table by range - and never more than
    the team's slice for the side. *)
Theorem playerRangeCounts_slices (home away : team) (side : Z) (i : nat)
    (events : list event) :
  let len := length (players (getTeamBySide home away (JS.Fin side))) in
  playerRangeCounts home away (JS.Fin side) (JS.Fin (Z.of_nat i)) events
  = rangeSlices (attributed side len i) (shotEvents events) ∧
  (three (playerRangeCounts home away (JS.Fin side) (JS.Fin (Z.of_nat i)) events)
   ≤ three (teamRangeCounts (JS.Fin side) events))%nat ∧
  (jump (playerRangeCounts home away (JS.Fin side) (JS.Fin (Z.of_nat i)) events)
   ≤ jump (teamRangeCounts (JS.Fin side) events))%nat ∧
  (paint (playerRangeCounts home away (JS.Fin side) (JS.Fin (Z.of_nat i)) events)
   ≤ paint (teamRangeCounts (JS.Fin side) events))%nat.
Proof.
  intros len.
  assert (playerRangeCounts home away (JS.Fin side) (JS.Fin (Z.of_nat i)) events
          = rangeSlices (attributed side len i) (shotEvents events)) as E.
  { unfold playerRangeCounts. fold len.
    rewrite (foldl_pointwise _
      (λ counts ev, if attributed side len i ev
                    then bumpRange counts (getShotRange (shot_type ev)) else counts)).
    - rewrite range_fold_slices. by apply rangeCounts_eq.
    - intros counts ev. unfold attributed.
      destruct (JS.seq (JS.Number (attacking_team ev)) (JS.Fin side)); simpl; [|done].
      destruct (normalizeSlot (attacker ev) len) as [idx|]; simpl.
      2:{ by rewrite ?bool_decide_eq_false_2 by done. }
      destruct (decide (idx = Z.of_nat i)) as [->|Hne].
      + by rewrite !bool_decide_eq_true_2.
      + rewrite (bool_decide_eq_false_2 (idx = _)) by done.
        by rewrite (bool_decide_eq_false_2 (Some idx = _)) by congruence. }
  split; [done|]. rewrite E.
  assert (teamRangeCounts (JS.Fin side) events
          = rangeSlices (by_side (JS.Fin side)) (shotEvents events)) as ->.
  { unfold teamRangeCounts.
    rewrite (foldl_pointwise _
      (λ counts ev, if by_side (JS.Fin side) ev
                    then bumpRange counts (getShotRange (shot_type ev)) else counts)).
    - rewrite range_fold_slices. by apply rangeCounts_eq.
    - intros counts ev. unfold by_side. by destruct (JS.seq _ _). }
  unfold rangeSlices. simpl.
  assert (∀ r, (length (filter (λ ev, attributed side len i ev
                                      && bool_decide (getShotRange (shot_type ev) = r))
                               (shotEvents events))
                ≤ length (filter (λ ev, by_side (JS.Fin side) ev
                                        && bool_decide (getShotRange (shot_type ev) = r))
                                 (shotEvents events)))%nat) as Hle.
  { intros r. apply length_filter_imp. intros ev. unfold attributed, by_side.
    rewrite !andb_True. tauto. }
  repeat split; apply Hle.
Qed.

(** ** The defender shot panel *)




Lemma length_filter_all {A} (P : A → bool) (l : list A) :
  (∀ x, x ∈ l → P x) → length (filter (λ x, P x) l) = length l.
Proof.
  induction l as [|x l IH]; intros H; [done|].
  rewrite filter_cons, decide_True by (apply H; left).
  simpl. rewrite IH; [done|]. intros y Hy. apply H. by right.
Qed.

(** X15: while at least one result box is ticked - the boxes are the six
    known result codes - every shown shot has a known result, and made
    plus missed is the total of shots shown. *)
Theorem defender_panel_made_plus_missed (home away : team)
    (selectedDefenders selectedShotTypes selectedResults : gset string)
    (events : list event) :
  selectedResults ≠ ∅ →
  selectedResults ⊆ allSelected resultOptions →
  let panel := renderDefenderShotPanel home away selectedDefenders
                 selectedShotTypes selectedResults events in
  Forall (λ ev, known_result ev) (ds_filtered panel) ∧
  (ds_madeCount panel + ds_missedCount panel)%nat = length (ds_filtered panel).
Proof.
  intros Hne Hsub panel.
  assert (Forall (λ ev, known_result ev) (ds_filtered panel)) as Hknown.
  { apply Forall_forall. intros ev Hev. unfold panel, renderDefenderShotPanel in Hev.
    simpl in Hev. apply list_elem_of_filter in Hev as [Hpass _].
    unfold passesFilters in Hpass.
    assert (0 < size selectedResults)%nat as Hsize.
    { destruct (decide (size selectedResults = 0%nat)) as [H0|]; [|lia].
      apply size_empty_inv in H0. destruct Hne. by apply leibniz_equiv. }
    destruct (bool_decide (0 < size selectedShotTypes)%nat && _); [done|].
    rewrite (bool_decide_eq_true_2 _ Hsize) in Hpass. simpl in Hpass.
    destruct (bool_decide_reflect (JS.String (shot_result ev) ∈ selectedResults))
      as [Hin|]; [|done].
    apply Hsub in Hin. unfold known_result. apply bool_decide_pack.
    unfold allSelected, resultOptions in Hin. simpl in Hin.
    set_solver. }
  split; [done|].
  unfold panel, renderDefenderShotPanel in *. simpl in *.
  rewrite <- (length_filter_or (resultIn ["1"; "2"; "5"]) (resultIn ["0"; "3"; "4"])).
  - apply length_filter_all. intros ev Hev.
    rewrite Forall_forall in Hknown. specialize (Hknown ev Hev).
    unfold known_result, resultIn in *. rewrite orb_True, !bool_decide_spec in *.
    rewrite !elem_of_cons, !elem_of_nil in *. tauto.
  - intros ev. unfold resultIn. rewrite !bool_decide_spec.
    rewrite !elem_of_cons, !elem_of_nil.
    intros [->|[->|[->|[]]]] [?|[?|[?|[]]]]; done.
Qed.

Lemma string_app_nil (s : string) : "" +:+ s = s.
Proof. reflexivity. Qed.

Lemma string_app_cons (c : ascii) (a s : string) :
  String.String c a +:+ s = String.String c (a +:+ s).
Proof. reflexivity. Qed.

Lemma app_colon_inj (a b x y : string) :
  no_colon a → no_colon b →
  a +:+ ":" +:+ x = b +:+ ":" +:+ y → a = b ∧ x = y.
Proof.
  revert b. induction a as [|c a IH]; intros [|d b];
    repeat (rewrite string_app_nil || rewrite string_app_cons); simpl.
  - intros _ _ [= ->]. done.
  - intros _ Hb [= <- _]. by vm_compute in Hb.
  - intros Ha _ [= -> _]. by vm_compute in Ha.
  - rewrite !andb_True. intros [_ Ha] [_ Hb] [= -> H].
    destruct (IH b Ha Hb H) as [-> ->]. done.
Qed.

Lemma decimal_no_colon (s : string) : decimal_string s = true → no_colon s.
Proof.
  induction s as [|c s IH]; simpl; [done|].
  intros H. apply andb_true_iff in H as [Hc Hs].
  rewrite andb_True. split; [|by apply IH].
  unfold decimal_char in Hc. apply bool_decide_eq_true in Hc.
  rewrite !elem_of_cons, elem_of_nil in Hc.
  destruct Hc as [->|[->|[->|[->|[->|[->|[->|[->|[->|[->|[->|[]]]]]]]]]]]]; done.
Qed.

Lemma String_num_no_colon (n : JS.num) : no_colon (JS.String (JS.Num n)).
Proof.
  destruct n as [z| |[]]; try done.
  apply decimal_no_colon, pretty_Z_decimal.
Qed.

(** The key of a check box names one side and one index. *)
Lemma defender_key_inj (n : JS.num) (idx : Z) (s : Z) (i : nat) :
  JS.String (JS.Num n) +:+ ":" +:+ pretty idx
  = pretty s +:+ ":" +:+ pretty (Z.of_nat i)
  ↔ n = JS.Fin s ∧ idx = Z.of_nat i.
Proof.
  split; [|by intros [-> ->]].
  intros H. apply app_colon_inj in H as [Hn Hi].
  - apply (String_is_code (JS.Num n) s) in Hn. apply (inj pretty) in Hi.
    split; congruence.
  - apply String_num_no_colon.
  - apply decimal_no_colon, pretty_Z_decimal.
Qed.

(** X16: with exactly one defender box ticked - the box of the player at
    index i of side s - the panel's defender shots are exactly the shots
    defended by side s whose defender slot resolves to i: a box never
    stands for two players. *)
Theorem one_defender_ticked (home away : team)
    (selectedShotTypes selectedResults : gset string) (events : list event)
    (s : Z) (i : nat) :
  ds_defenderShots
    (renderDefenderShotPanel home away {[ pretty s +:+ ":" +:+ pretty (Z.of_nat i) ]}
       selectedShotTypes selectedResults events)
  = filter (λ ev, defended_by home away s i ev) (shotEvents events).
Proof.
  unfold renderDefenderShotPanel. cbn [ds_defenderShots].
  apply filter_pointwise. intros ev.
  unfold defendedBySelected, defended_by.
  rewrite size_singleton.
  destruct (JS.seq (JS.Number (defending_team ev)) (JS.Fin s)) eqn:Eside; cbn [andb].
  - rewrite <- (getTeamBySide_seq home away _ _ Eside).
    assert (JS.Number (defending_team ev) = JS.Fin s) as En.
    { destruct (JS.Number (defending_team ev)); try done.
      simpl in Eside. apply bool_decide_eq_true in Eside. by subst. }
    destruct (normalizeSlot _ _) as [idx|]; [|done].
    rewrite decide_False by done.
    apply bool_decide_ext. rewrite elem_of_singleton, defender_key_inj.
    rewrite En. split; [by intros [_ ->]|by intros [= ->]].
  - destruct (normalizeSlot _ _) as [idx|]; [|done].
    rewrite decide_False by done.
    apply bool_decide_eq_false_2. rewrite elem_of_singleton, defender_key_inj.
    intros [En _]. rewrite En in Eside. simpl in Eside.
    by rewrite bool_decide_eq_true_2 in Eside.
Qed.

Lemma pretty_Z_of_nat (n : nat) : pretty (Z.of_nat n) = pretty n.
Proof. by destruct n. Qed.

Lemma filter_pointwise_in {A} (P Q : A → bool) (l : list A) :
  (∀ x, x ∈ l → P x = Q x) → filter (λ x, P x) l = filter (λ x, Q x) l.
Proof.
  induction l as [|x l IH]; intros H; [done|].
  rewrite !filter_cons, (H x) by left.
  rewrite IH; [done|]. intros y Hy. apply H. by right.
Qed.

Lemma filter_twice {A} (P Q : A → bool) (l : list A) :
  filter (λ x, Q x) (filter (λ x, P x) l) = filter (λ x, P x && Q x) l.
Proof.
  induction l as [|x l IH]; [done|].
  rewrite !filter_cons. destruct (P x) eqn:EP; simpl.
  - rewrite filter_cons. destruct (Q x); simpl; by rewrite IH.
  - done.
Qed.

Lemma defender_box_exists (home away : team) (s : Z) (idx : Z) :
  s = 0 ∨ s = 1 →
  0 ≤ idx < Z.of_nat (length (players (getTeamBySide home away (JS.Fin s)))) →
  pretty s +:+ ":" +:+ pretty idx ∈ allSelected (defenderOptions home away).
Proof.
  intros Hs Hidx. unfold allSelected, defenderOptions.
  rewrite elem_of_list_to_set, fmap_app, elem_of_app, !list_elem_of_fmap.
  destruct (lookup_lt_is_Some_2 (players (getTeamBySide home away (JS.Fin s)))
              (Z.to_nat idx)) as [p Hp]; [lia|].
  assert (pretty idx = pretty (Z.to_nat idx)) as ->.
  { rewrite <- pretty_Z_of_nat. f_equal. lia. }
  destruct Hs as [-> | ->]; [left|right]; eexists; (split; [|by eapply elem_of_lookup_imap_2]);
    done.
Qed.

(** X17: when the page loads every box of the three filters is ticked, and
    (for events whose defending team is 0 or 1) the panel then shows
    exactly the shot events whose defender resolves to a player and whose
    result is one of the six known codes. *)
Theorem panel_with_every_box_ticked (home away : team) (events : list event) :
  Forall (λ ev, JS.Number (defending_team ev) = JS.Fin 0
                ∨ JS.Number (defending_team ev) = JS.Fin 1) (shotEvents events) →
  ds_filtered
    (renderDefenderShotPanel home away
       (allSelected (defenderOptions home away))
       (allSelected (shotTypeOptions events))
       (allSelected resultOptions) events)
  = filter (λ ev, defender_resolved home away ev && known_result ev) (shotEvents events).
Proof.
  intros Hsides. unfold renderDefenderShotPanel. cbn [ds_filtered].
  rewrite filter_twice. apply filter_pointwise_in. intros ev Hev.
  rewrite Forall_forall in Hsides. specialize (Hsides ev Hev).
  f_equal.
  - unfold defendedBySelected, defender_resolved.
    destruct (normalizeSlot _ _) as [idx|] eqn:Eslot; [|done].
    rewrite (bool_decide_eq_true_2 (is_Some _)) by eauto.
    case_decide; [done|]. apply bool_decide_eq_true_2.
    pose proof (normalizeSlot_range _ _ _ Eslot) as Hidx.
    destruct Hsides as [E|E]; rewrite E in *.
    + by apply (defender_box_exists home away 0); [left|].
    + by apply (defender_box_exists home away 1); [right|].
  - unfold passesFilters, known_result.
    assert (JS.String (shot_type ev) ∈ allSelected (shotTypeOptions events)) as Ht.
    { unfold allSelected, shotTypeOptions.
      rewrite elem_of_list_to_set, list_elem_of_fmap.
      eexists {| opt_value := _; opt_label := _ |}. split; [reflexivity|].
      apply list_elem_of_fmap. eexists. split; [reflexivity|].
      by apply typeCodes_elem. }
    rewrite (bool_decide_eq_true_2 _ Ht), andb_false_r.
    assert (0 < size (allSelected resultOptions))%nat as Hsz by (vm_compute; lia).
    rewrite (bool_decide_eq_true_2 _ Hsz). cbn [andb].
    destruct (bool_decide_reflect (JS.String (shot_result ev) ∈ allSelected resultOptions))
      as [Hin|Hin]; simpl; symmetry.
    + apply bool_decide_eq_true_2. unfold allSelected, resultOptions in Hin.
      simpl in Hin. set_solver.
    + apply bool_decide_eq_false_2. intros Hk. apply Hin.
      unfold allSelected, resultOptions. simpl. set_solver.
Qed.

(** ** The event feed *)

Ltac compute_string_tests :=
  repeat match goal with
         | |- context [bool_decide (?a ≠ ?b)] =>
             let v := eval vm_compute in (bool_decide (a ≠ b)) in
             change (bool_decide (a ≠ b)) with v
         end.

Lemma eventShown_one_team (toLowerCase : string → string) (textVal : string)
    (fe : feedEvent) :
  eventShown toLowerCase "all" textVal fe
  = eventShown toLowerCase "home" textVal fe || eventShown toLowerCase "away" textVal fe
  ∧ (eventShown toLowerCase "home" textVal fe →
     eventShown toLowerCase "away" textVal fe → False).
Proof.
  unfold eventShown, eventSide.
  destruct (strictEqNum _ _); compute_string_tests; simpl;
    destruct (bool_decide (textVal = "")); simpl; try done;
    destruct (JS.includes _ _); simpl; try done; by rewrite ?orb_false_r.
Qed.

(** X19: in the event feed every event that matches the search text is
    listed under exactly one of the two teams, so the count for "all"
    is the sum of the counts for "home" and "away"; with "all" and no
    search text every event is shown; and the article numbered n is the
    n-th shown event in feed order, the newest first. *)
Theorem event_feed_lists (toLowerCase : string → string) (textVal : string)
    (events : list feedEvent) :
  length (shownEvents toLowerCase "all" textVal events)
  = (length (shownEvents toLowerCase "home" textVal events)
     + length (shownEvents toLowerCase "away" textVal events))%nat ∧
  shownEvents toLowerCase "all" "" events = events ∧
  ∀ teamVal,
    (snd <$> renderEvents toLowerCase teamVal textVal events
     = reverse (shownEvents toLowerCase teamVal textVal events)) ∧
    ∀ n fe, (n, fe) ∈ renderEvents toLowerCase teamVal textVal events →
            (1 ≤ n)%nat ∧
            shownEvents toLowerCase teamVal textVal events !! (n - 1)%nat = Some fe.
Proof.
  split; [|split].
  - unfold shownEvents.
    rewrite <- (length_filter_or (eventShown toLowerCase "home" textVal)
                                 (eventShown toLowerCase "away" textVal))
      by (intros fe; apply eventShown_one_team).
    f_equal. apply filter_pointwise. intros fe. apply eventShown_one_team.
  - unfold shownEvents. induction events as [|fe events IH]; [done|].
    rewrite filter_cons, IH. by rewrite decide_True.
  - intros teamVal. unfold renderEvents.
    set (filtered := shownEvents toLowerCase teamVal textVal events).
    split.
    { rewrite fmap_imap. simpl. apply list_eq. intros i.
      rewrite list_lookup_imap. by destruct (reverse filtered !! i). }
    intros n fe Hin.
    apply elem_of_lookup_imap in Hin as (idx & fe' & [= -> ->] & Hidx).
    pose proof (lookup_lt_Some _ _ _ Hidx) as Hlt. rewrite length_reverse in Hlt.
    split; [lia|].
    rewrite reverse_lookup in Hidx by done.
    rewrite <- Hidx. f_equal. lia.
Qed.

Lemma length_filter_le_pointwise {A} (P Q : A → bool) (l : list A) :
  (∀ x, P x = true → Q x = true) →
  (length (filter (λ x, P x) l) ≤ length (filter (λ x, Q x) l))%nat.
Proof.
  intros H. induction l as [|x l IH]; [done|].
  rewrite !filter_cons. destruct (P x) eqn:E.
  - rewrite (H x E). simpl. lia.
  - destruct (Q x); simpl; lia.
Qed.

Lemma shotEvents_fmap (events : list feedEvent) :
  shotEvents (fe_event <$> events)
  = fe_event <$> filter (λ fe, event_type (fe_event fe) = "shot") events.
Proof.
  unfold shotEvents. induction events as [|fe events IH]; [done|].
  rewrite fmap_cons, !filter_cons. case_decide; by rewrite IH.
Qed.

Lemma eventShown_home (toLowerCase : string → string) (fe : feedEvent) :
  eventShown toLowerCase "home" "" fe
  = strictEqNum (attacking_team (fe_event fe)) (JS.Fin 0).
Proof. unfold eventShown, eventSide. by destruct (strictEqNum _ _). Qed.

Lemma eventShown_away (toLowerCase : string → string) (fe : feedEvent) :
  eventShown toLowerCase "away" "" fe
  = negb (strictEqNum (attacking_team (fe_event fe)) (JS.Fin 0)).
Proof. unfold eventShown, eventSide. by destruct (strictEqNum _ _). Qed.

(** X18: the event feed and the shot charts read the attacking team in
    two ways - the feed by [teamId === 0], the charts by
    [Number(ev.attacking_team) === side] - and can disagree.  Every shot
    that the feed lists as home is counted by the team chart of side 0,
    and every shot counted by the team chart of side 1 is listed as away;
    a shot whose attacking team is null is listed as away by the feed and
    counted by the team chart of side 0. *)
Theorem feed_and_chart_sides (toLowerCase : string → string) (events : list feedEvent)
    (fe : feedEvent) :
  let shots := filter (λ fe, event_type (fe_event fe) = "shot") events in
  (length (shownEvents toLowerCase "home" "" shots)
   ≤ sumRangeCounts (teamRangeCounts (JS.Fin 0) (fe_event <$> events)))%nat ∧
  (sumRangeCounts (teamRangeCounts (JS.Fin 1) (fe_event <$> events))
   ≤ length (shownEvents toLowerCase "away" "" shots))%nat ∧
  (event_type (fe_event fe) = "shot" → attacking_team (fe_event fe) = JS.Null →
   shownEvents toLowerCase "home" "" [fe] = [] ∧
   shownEvents toLowerCase "away" "" [fe] = [fe] ∧
   sumRangeCounts (teamRangeCounts (JS.Fin 0) [fe_event fe]) = 1%nat ∧
   sumRangeCounts (teamRangeCounts (JS.Fin 1) [fe_event fe]) = 0%nat).
Proof.
  intros shots. rewrite !teamRangeCounts_total, shotEvents_fmap. fold shots.
  rewrite !length_filter_fmap. unfold shownEvents.
  split; [|split].
  - apply length_filter_le_pointwise. intros x. rewrite eventShown_home.
    by destruct (attacking_team (fe_event x)) as [[]| |].
  - apply length_filter_le_pointwise. intros x. rewrite eventShown_away.
    destruct (attacking_team (fe_event x)) as [[z| |]| |]; simpl; try done.
    intros Hz%bool_decide_eq_true. subst z. done.
  - intros Hshot Hnull. unfold shotEvents.
    rewrite !filter_cons, !filter_nil.
    rewrite (decide_True (P := event_type (fe_event fe) = "shot")) by done.
    rewrite !filter_cons, !filter_nil.
    by rewrite eventShown_home, eventShown_away, Hnull.
Qed.

Lemma feed_and_chart_sides_witness :
  shownEvents (λ s, s) "away" "" [ {| fe_event := null_team_shot; fe_comments := None |} ]
  = [ {| fe_event := null_team_shot; fe_comments := None |} ] ∧
  sumRangeCounts (teamRangeCounts (JS.Fin 0) [null_team_shot]) = 1%nat.
Proof.
  destruct (feed_and_chart_sides (λ s, s) []
              {| fe_event := null_team_shot; fe_comments := None |})
    as (_ & _ & H); destruct H as (_ & Haway & Hhome & _); [reflexivity..|].
  split; [exact Haway|exact Hhome].
Defined.

(** ** Playing time *)

Lemma twoDigits_table :
  Forall (λ r, String.length (twoDigits r) = 2%nat) (seq 0 60)
  ∧ NoDup (twoDigits <$> seq 0 60).
Proof.
  split.
  - apply Forall_forall. intros r Hr. apply elem_of_seq in Hr.
    do 60 (destruct r as [|r]; [by vm_compute|]). lia.
  - apply (bool_decide_unpack _). by vm_compute.
Qed.

Lemma twoDigits_inj (r1 r2 : nat) :
  (r1 < 60)%nat → (r2 < 60)%nat → twoDigits r1 = twoDigits r2 → r1 = r2.
Proof.
  intros H1 H2 Heq. destruct twoDigits_table as [_ Hnd].
  apply (NoDup_lookup _ r1 r2 (twoDigits r1)) in Hnd; [done|..].
  - rewrite list_lookup_fmap, lookup_seq_lt by done. done.
  - rewrite list_lookup_fmap, lookup_seq_lt by done. simpl. by rewrite Heq.
Qed.

(** X20: for a whole number of seconds, zero or more and a safe integer,
    the playing time reads minutes, a colon, and the seconds past the
    minute in exactly two characters; two different numbers of seconds
    never read the same. *)
Theorem secsToMin_minutes_and_seconds (z1 z2 : Z) :
  0 ≤ z1 < 2 ^ 53 → 0 ≤ z2 < 2 ^ 53 →
  secsToMin (JS.Num (JS.Fin z1))
  = Some (pretty (z1 `div` 60) +:+ ":" +:+ twoDigits (Z.to_nat (z1 `mod` 60))) ∧
  String.length (twoDigits (Z.to_nat (z1 `mod` 60))) = 2%nat ∧
  (secsToMin (JS.Num (JS.Fin z1)) = secsToMin (JS.Num (JS.Fin z2)) → z1 = z2).
Proof.
  intros H1 H2.
  assert (∀ z, 0 ≤ z < 2 ^ 53 →
            secsToMin (JS.Num (JS.Fin z))
            = Some (pretty (z `div` 60) +:+ ":" +:+ twoDigits (Z.to_nat (z `mod` 60))))
    as Hform.
  { intros z Hz. unfold secsToMin, twoDigits.
    rewrite decide_True by (unfold safe_integer; lia).
    rewrite Z.rem_mod_nonneg by lia. rewrite Z2Nat.id; [done|].
    apply Z.mod_pos_bound. lia. }
  destruct twoDigits_table as [Htab _]. rewrite Forall_forall in Htab.
  assert (∀ z, (Z.to_nat (z `mod` 60) < 60)%nat) as Hlt.
  { intros z. pose proof (Z.mod_pos_bound z 60). lia. }
  split; [by apply Hform|]. split.
  - apply Htab, elem_of_seq. specialize (Hlt z1). lia.
  - rewrite !Hform by done. intros [= Heq].
    apply app_colon_inj in Heq as [Hq Hr].
    + apply (inj pretty) in Hq. apply twoDigits_inj in Hr; [|apply Hlt..].
      rewrite (Z.div_mod z1 60), (Z.div_mod z2 60) by lia.
      pose proof (Z.mod_pos_bound z1 60). pose proof (Z.mod_pos_bound z2 60). lia.
    + apply decimal_no_colon, pretty_Z_decimal.
    + apply decimal_no_colon, pretty_Z_decimal.
Qed.

(** ** The sorted player tables *)

Section Sorting.

Context {A : Type}.
Variable cmp : A → A → Z.
Hypothesis cmp_anti : ∀ x y, 0 < cmp x y → cmp y x ≤ 0.
Hypothesis cmp_trans : ∀ x y z, cmp x y ≤ 0 → cmp y z ≤ 0 → cmp x z ≤ 0.

Lemma sortInsert_sorted (x : A) (l : list A) :
  StronglySorted (λ a b, cmp a b ≤ 0) l →
  StronglySorted (λ a b, cmp a b ≤ 0) (sortInsert cmp x l).
Proof.
  induction 1 as [|y l Hl IH Hy]; simpl; [repeat constructor|].
  case_decide as Hxy.
  - constructor; [done|].
    rewrite sortInsert_perm. constructor; [by apply cmp_anti|done].
  - constructor; [by constructor|].
    constructor; [lia|].
    eapply Forall_impl; [exact Hy|]. intros z Hz. apply (cmp_trans x y z); [lia|done].
Qed.

Lemma jsSort_sorted (l : list A) : StronglySorted (λ a b, cmp a b ≤ 0) (jsSort cmp l).
Proof.
  unfold jsSort. induction l as [|x l IH]; simpl; [constructor|].
  by apply sortInsert_sorted.
Qed.

End Sorting.

Lemma StronglySorted_impl {A} (R S : A → A → Prop) (l : list A) :
  (∀ x y, R x y → S x y) → StronglySorted R l → StronglySorted S l.
Proof.
  intros H. induction 1 as [|x l Hl IH Hx]; constructor; [done|].
  eapply Forall_impl; [exact Hx|]. auto.
Qed.

Lemma StronglySorted_take_drop {A} (R : A → A → Prop) (n : nat) (l : list A) :
  StronglySorted R l →
  StronglySorted R (take n l) ∧
  ∀ x y, x ∈ take n l → y ∈ drop n l → R x y.
Proof.
  intros Hs. rewrite <- (take_drop n l) in Hs.
  split; [by eapply StronglySorted_app_1_l|].
  intros x y Hx Hy. by eapply StronglySorted_app_1_elem_of.
Qed.

Lemma cmpTopScorers_order (a b : scoreRow) :
  cmpTopScorers a b ≤ 0 ↔ topScorerOrder a b.
Proof. unfold cmpTopScorers, or_num, topScorerOrder. case_decide; lia. Qed.

Lemma cmpPlayersTable_order (a b : scoreRow) :
  cmpPlayersTable a b ≤ 0 ↔ playersTableOrder a b.
Proof.
  unfold cmpPlayersTable, or_num, playersTableOrder. repeat case_decide; lia.
Qed.

(** X21: the top scorers table shows at most twelve of the players, in
    descending order of points and, level on points, of assists; nobody
    left out has more points than anybody shown. *)
Theorem top_scorers_are_the_best (allPlayers : list scoreRow) :
  length (renderTopScorers allPlayers) = (12 `min` length allPlayers)%nat ∧
  StronglySorted topScorerOrder (renderTopScorers allPlayers) ∧
  ∃ rest,
    (renderTopScorers allPlayers ++ rest)%list ≡ₚ allPlayers ∧
    ∀ x y, x ∈ renderTopScorers allPlayers → y ∈ rest → topScorerOrder x y.
Proof.
  pose proof (jsSort_sorted cmpTopScorers) as Hsorted.
  pose proof (jsSort_perm cmpTopScorers allPlayers) as Hperm.
  assert (StronglySorted topScorerOrder (jsSort cmpTopScorers allPlayers)) as Hs.
  { eapply StronglySorted_impl; [|apply Hsorted].
    - intros x y. apply cmpTopScorers_order.
    - intros x y. rewrite !cmpTopScorers_order. unfold cmpTopScorers, or_num.
      case_decide; unfold topScorerOrder; lia.
    - intros x y z. rewrite !cmpTopScorers_order. unfold topScorerOrder. lia. }
  destruct (StronglySorted_take_drop _ 12 _ Hs) as [Htake Hcross].
  unfold renderTopScorers. split.
  - rewrite length_take. by rewrite (Permutation_length Hperm).
  - split; [done|]. exists (drop 12 (jsSort cmpTopScorers allPlayers)).
    split; [by rewrite take_drop|done].
Qed.

(** X22: the players table shows every player exactly once, in descending
    order of points, then of rebounds, then of assists. *)
Theorem players_table_is_sorted (allPlayers : list scoreRow) :
  renderPlayersTable allPlayers ≡ₚ allPlayers ∧
  StronglySorted playersTableOrder (renderPlayersTable allPlayers).
Proof.
  unfold renderPlayersTable. split; [apply jsSort_perm|].
  eapply StronglySorted_impl; [|apply jsSort_sorted].
  - intros x y. apply cmpPlayersTable_order.
  - intros x y. rewrite !cmpPlayersTable_order. unfold cmpPlayersTable, or_num.
    repeat case_decide; unfold playersTableOrder; lia.
  - intros x y z. rewrite !cmpPlayersTable_order. unfold playersTableOrder. lia.
Qed.

(** ** The rows shown in the offense shot profile *)

Lemma filter_pointwise_true {A} (P : A → bool) (l : list A) :
  (∀ x, x ∈ l → P x = true) → filter (λ x, P x) l = l.
Proof.
  induction l as [|x l IH]; intros H; [done|].
  rewrite filter_cons, (H x) by left. simpl. f_equal. apply IH. intros y Hy. apply H. by right.
Qed.

Lemma teamPass_row_side (codes : list string) (t : team) (side : Z) (shots : list event) :
  length (teamPass codes t side shots).1 = length (players t) ∧
  ∀ r, r ∈ (teamPass codes t side shots).1 → row_side r = side.
Proof.
  unfold teamPass. rewrite teamPass_rows. split; [by rewrite length_imap|].
  intros r Hr. apply elem_of_lookup_imap in Hr as (i & p & -> & _). done.
Qed.

Lemma compareCodes_le (a b : string) : compareCodes a b ≤ 0 ↔ (a ≤ b)%string.
Proof.
  unfold compareCodes, String.le.
  destruct (String.leb a b), (String.leb b a); simpl; split; try done; lia.
Qed.

Lemma compareCodes_anti (x y : string) : 0 < compareCodes x y → compareCodes y x ≤ 0.
Proof.
  intros H. apply compareCodes_le.
  destruct (total (≤)%string x y) as [Hxy|Hyx]; [|done].
  apply compareCodes_le in Hxy. lia.
Qed.

Lemma compareCodes_trans (x y z : string) :
  compareCodes x y ≤ 0 → compareCodes y z ≤ 0 → compareCodes x z ≤ 0.
Proof. rewrite !compareCodes_le. intros ??. by etrans. Qed.

Section VisiblePlayers.

Variable localeCompare : string → string → Z.
Hypothesis localeCompare_anti : ∀ x y, 0 < localeCompare x y → localeCompare y x ≤ 0.
Hypothesis localeCompare_trans :
  ∀ x y z, localeCompare x y ≤ 0 → localeCompare y z ≤ 0 → localeCompare x z ≤ 0.

Lemma cmpVisible_order (a b : playerRow) :
  cmpVisible localeCompare a b ≤ 0 ↔ shownOrder localeCompare a b.
Proof. unfold cmpVisible, or_num, shownOrder. case_decide; lia. Qed.

Lemma cmpVisible_anti (x y : playerRow) :
  0 < cmpVisible localeCompare x y → cmpVisible localeCompare y x ≤ 0.
Proof.
  unfold cmpVisible, or_num. repeat case_decide; try lia.
  apply localeCompare_anti.
Qed.

Lemma cmpVisible_trans (x y z : playerRow) :
  cmpVisible localeCompare x y ≤ 0 → cmpVisible localeCompare y z ≤ 0 →
  cmpVisible localeCompare x z ≤ 0.
Proof.
  rewrite !cmpVisible_order. unfold shownOrder.
  intros [?|[? Hxy]] [?|[? Hyz]]; try (left; lia).
  right. split; [lia|]. by eapply localeCompare_trans.
Qed.

(** X5: the profile builds one row per player, whether the player shot
    or not: the home roster first, then the away roster, in roster order.
    The player table shows the rows of the team chosen in the select -
    all rows for "all", the home rows for "0", the away rows for "1" -
    each once, sorted by attempts, the most first, and by name among rows
    with the same attempts. *)
Theorem offense_profile_rows_follow_rosters (home away : team) (events : list event) :
  let rows := osp_playerRowsData (renderOffenseShotProfile home away events) in
  (λ r, (row_side r, row_team r, row_name r)) <$> rows
  = (((λ p, (0, team_name home, player_name p)) <$> players home)
     ++ ((λ p, (1, team_name away, player_name p)) <$> players away))%list ∧
  visiblePlayers localeCompare "all" rows ≡ₚ rows ∧
  visiblePlayers localeCompare "0" rows ≡ₚ take (length (players home)) rows ∧
  visiblePlayers localeCompare "1" rows ≡ₚ drop (length (players home)) rows ∧
  ∀ teamFilterVal,
    StronglySorted (shownOrder localeCompare)
                   (visiblePlayers localeCompare teamFilterVal rows).
Proof.
  intros rows. split; [apply playerRowsData_rosters|].
  assert (∃ h w, rows = (h ++ w)%list ∧ length h = length (players home) ∧
                 (∀ r, r ∈ h → row_side r = 0) ∧ (∀ r, r ∈ w → row_side r = 1))
    as (h & w & -> & Hlen & Hh & Hw).
  { unfold rows, renderOffenseShotProfile. cbn [osp_playerRowsData].
    eexists _, _. split; [reflexivity|].
    destruct (teamPass_row_side (typeCodes (shotEvents events)) home 0 (shotEvents events))
      as [Hl0 Hs0].
    destruct (teamPass_row_side (typeCodes (shotEvents events)) away 1 (shotEvents events))
      as [_ Hs1].
    done. }
  unfold visiblePlayers.
  split; [|split; [|split]].
  - rewrite jsSort_perm. by rewrite filter_pointwise_true.
  - rewrite jsSort_perm, <- Hlen, take_app_length, filter_app.
    rewrite (filter_pointwise_true _ h), (filter_pointwise_false _ w), app_nil_r; [done|..].
    + intros r Hr. by rewrite (Hw r Hr).
    + intros r Hr. by rewrite (Hh r Hr).
  - rewrite jsSort_perm, <- Hlen, drop_app_length, filter_app.
    rewrite (filter_pointwise_false _ h), (filter_pointwise_true _ w); [done|..].
    + intros r Hr. by rewrite (Hw r Hr).
    + intros r Hr. by rewrite (Hh r Hr).
  - intros teamFilterVal.
    eapply StronglySorted_impl; [|apply (jsSort_sorted _ cmpVisible_anti cmpVisible_trans)].
    intros x y. apply cmpVisible_order.
Qed.

End VisiblePlayers.

Lemma offense_profile_rows_follow_rosters_witness :
  let rows := osp_playerRowsData
                (renderOffenseShotProfile trio (one_man "A") [blocked_shot; unresolved_shot]) in
  visiblePlayers compareCodes "0" rows ≡ₚ take (length (players trio)) rows ∧
  StronglySorted (shownOrder compareCodes) (visiblePlayers compareCodes "all" rows).
Proof.
  destruct (offense_profile_rows_follow_rosters compareCodes compareCodes_anti
              compareCodes_trans trio (one_man "A") [blocked_shot; unresolved_shot])
    as (_ & _ & H0 & _ & Hsorted).
  split; [exact H0|exact (Hsorted "all")].
Defined.

(** ** The order of the shot type columns *)

Lemma is_nat_pretty_N_char (d : N) :
  (d < 10)%N → Ascii.is_nat (pretty_N_char d) = Some (N.to_nat d).
Proof.
  intros Hd.
  assert (d = 0 ∨ d = 1 ∨ d = 2 ∨ d = 3 ∨ d = 4 ∨ d = 5 ∨ d = 6 ∨ d = 7 ∨ d = 8 ∨ d = 9)%N
    as H by lia.
  destruct H as [->|[->|[->|[->|[->|[->|[->|[->|[->| ->]]]]]]]]]; reflexivity.
Qed.

Lemma digits_value_pretty_N_go (x : N) :
  ∃ k : Z, 0 ≤ k ∧
    ∀ acc s, JS.digits_value acc (pretty_N_go x s)
             = JS.digits_value (acc * 10 ^ k + Z.of_N x) s.
Proof.
  induction (N.lt_wf_0 x) as [x _ IH].
  destruct (decide (x = 0%N)) as [->|Hx].
  { exists 0. split; [done|]. intros acc s. rewrite pretty_N_go_0. f_equal. lia. }
  destruct (IH (x `div` 10)%N) as (k & Hk & Hgo); [apply N.div_lt; lia|].
  exists (k + 1). split; [lia|]. intros acc s.
  rewrite pretty_N_go_step by lia. rewrite Hgo. simpl.
  rewrite is_nat_pretty_N_char by (apply N.mod_lt; lia).
  f_equal. rewrite Z.pow_add_r by lia.
  rewrite N_nat_Z. rewrite (N.div_mod x 10) at 3 by lia.
  rewrite N2Z.inj_add, N2Z.inj_mul. lia.
Qed.

Lemma digits_value_pretty_N (x : N) : JS.digits_value 0 (pretty x) = Some (Z.of_N x).
Proof.
  unfold pretty, pretty_N. case_decide as Hx; [by subst|].
  destruct (digits_value_pretty_N_go x) as (k & _ & Hgo). rewrite Hgo. simpl. f_equal.
Qed.

Lemma Number_str_digits (s : string) (v : Z) :
  s ≠ "" → JS.digits_value 0 s = Some v → JS.Number_str s = JS.Fin v.
Proof.
  intros Hs Hv. destruct s as [|c s']; [done|].
  assert (JS.unsigned_str (String.String c s') = JS.Fin v) as Hu.
  { unfold JS.unsigned_str. case_decide as HI; [by rewrite HI in Hv|]. by rewrite Hv. }
  simpl in Hv. destruct (Ascii.is_nat c) as [d|] eqn:Hc; [|done].
  rewrite <- Hu. clear -Hc.
  destruct c as [[] [] [] [] [] [] [] []]; try done.
Qed.

Lemma Number_str_pretty (z : Z) : JS.Number_str (pretty z) = JS.Fin z.
Proof.
  destruct z as [|p|p].
  - reflexivity.
  - apply Number_str_digits; [apply (pretty_N_nonempty (N.pos p))|].
    apply (digits_value_pretty_N (N.pos p)).
  - unfold pretty, pretty_Z.
    change (JS.Number_str ("-" +:+ pretty p))
      with (match JS.unsigned_str (pretty p) with
            | JS.Fin z => JS.Fin (- z)
            | JS.Infinity b => JS.Infinity (negb b)
            | JS.NaN => JS.NaN
            end).
    assert (JS.unsigned_str (pretty p) = JS.Fin (Z.pos p)) as ->; [|done].
    pose proof (digits_value_pretty_N (N.pos p)) as Hv.
    pose proof (pretty_N_nonempty (N.pos p)) as Hne.
    change (pretty (N.pos p)) with (pretty p) in *.
    unfold JS.unsigned_str. case_decide as HI; [by rewrite HI in Hv|].
    rewrite Hv. by destruct (pretty p).
Qed.

Lemma cmpCodes_pretty (a b : Z) : cmpCodes (pretty a) (pretty b) = a - b.
Proof. unfold cmpCodes. by rewrite !Number_str_pretty. Qed.

Lemma jsSort_fmap {A B} (f : A → B) (cmpA : A → A → Z) (cmpB : B → B → Z) (l : list A) :
  (∀ x y, cmpB (f x) (f y) = cmpA x y) →
  jsSort cmpB (f <$> l) = f <$> jsSort cmpA l.
Proof.
  intros Hcmp. unfold jsSort. induction l as [|x l IH]; [done|].
  rewrite fmap_cons. cbn [foldr]. rewrite IH.
  generalize (foldr (sortInsert cmpA) [] l). intros sorted.
  induction sorted as [|y sorted IHs]; [done|].
  rewrite fmap_cons. cbn [sortInsert]. rewrite Hcmp.
  case_decide; [|done]. by rewrite IHs.
Qed.

Lemma remove_dups_fmap_inj {A B} `{EqDecision A, EqDecision B} (f : A → B) (l : list A) :
  Inj (=) (=) f → remove_dups (f <$> l) = f <$> remove_dups l.
Proof.
  intros Hf. induction l as [|x l IH]; [done|].
  rewrite fmap_cons. cbn [remove_dups].
  destruct (decide_rel elem_of x l) as [Hin|Hout],
           (decide_rel elem_of (f x) (f <$> l)) as [Hin'|Hout']; [done|..].
  - destruct Hout'. by apply list_elem_of_fmap_2.
  - destruct Hout. apply list_elem_of_fmap in Hin' as (y & Hy & Hyl).
    apply Hf in Hy. by subst.
  - by rewrite fmap_cons, IH.
Qed.

(** X28: when the shot type of every shot is an integer code, the
    columns of the offense shot profile (and the shot type boxes of the
    defender panel) are the codes in strictly ascending numeric order. *)
Theorem typeCodes_ascending (events : list event) :
  Forall (λ ev, ∃ z, shot_type ev = JS.Num (JS.Fin z)) (shotEvents events) →
  ∃ codes : list Z,
    typeCodes (shotEvents events) = pretty <$> codes ∧
    StronglySorted Z.lt codes ∧
    opt_value <$> shotTypeOptions events = pretty <$> codes.
Proof.
  intros Hint.
  assert (∃ zs : list Z,
            map (λ ev, JS.String (shot_type ev)) (shotEvents events) = pretty <$> zs)
    as [zs Hzs].
  { induction Hint as [|ev shots [z Hz] _ [zs IH]]; [by exists []|].
    exists (z :: zs). simpl. by rewrite Hz, IH. }
  exists (jsSort (λ a b, a - b) (remove_dups zs)).
  assert (typeCodes (shotEvents events)
          = pretty <$> jsSort (λ a b, a - b) (remove_dups zs)) as Hcodes.
  { unfold typeCodes. rewrite Hzs.
    assert (filter (λ s : string, s ≠ "") (pretty <$> zs) = pretty <$> zs) as ->.
    { clear. induction zs as [|z zs IH]; [done|].
      rewrite fmap_cons, filter_cons, IH. rewrite decide_True; [done|].
      destruct z as [|p|p]; [done|apply (pretty_N_nonempty (N.pos p))|done]. }
    rewrite remove_dups_fmap_inj by apply _.
    apply jsSort_fmap. intros x y. apply cmpCodes_pretty. }
  split; [done|]. split.
  - assert (StronglySorted (λ a b : Z, a - b ≤ 0) (jsSort (λ a b, a - b) (remove_dups zs)))
      as Hsorted by (apply jsSort_sorted; intros; lia).
    assert (NoDup (jsSort (λ a b : Z, a - b) (remove_dups zs))) as Hnd.
    { rewrite jsSort_perm. apply NoDup_remove_dups. }
    revert Hsorted Hnd. generalize (jsSort (λ a b : Z, a - b) (remove_dups zs)).
    intros l. induction 1 as [|x l Hl IH Hx]; intros Hnd; constructor.
    + apply IH. by apply NoDup_cons in Hnd as [_ ?].
    + apply NoDup_cons in Hnd as [Hxl _].
      apply Forall_forall. intros y Hy. rewrite Forall_forall in Hx.
      specialize (Hx y Hy). assert (x ≠ y) by (by intros ->). lia.
  - unfold shotTypeOptions. rewrite Hcodes.
    rewrite <- list_fmap_compose. by rewrite <- list_fmap_compose.
Qed.

Lemma typeCodes_ascending_witness :
  ∃ codes : list Z,
    typeCodes (shotEvents [blocked_shot; unresolved_shot]) = pretty <$> codes ∧
    StronglySorted Z.lt codes ∧
    opt_value <$> shotTypeOptions [blocked_shot; unresolved_shot] = pretty <$> codes.
Proof.
  apply (typeCodes_ascending [blocked_shot; unresolved_shot]).
  repeat constructor; eexists; reflexivity.
Defined.

(** * Further properties of the Python side *)

Section SerializationMore.

Context {Stat BaseEvent : Type}.
Variable player_stats team_stats : Stat → value.
Variable to_json : BaseEvent → value.

Local Abbreviation the_serialize_game :=
  (serialize_game Stat player_stats team_stats BaseEvent to_json).

(** X23: [serialize_game] fails (with the IndexError of [teams[0]] or
    [teams[1]]) exactly when the game has fewer than two teams; otherwise
    it reads the first two teams only: any further team is left out of
    the payload. *)
Theorem serialize_game_first_two_teams (g : Game Stat BaseEvent) :
  (the_serialize_game g = None ↔ (length (teams g) < 2)%nat) ∧
  the_serialize_game g
  = the_serialize_game {| teams := take 2 (teams g); baseevents := baseevents g |}.
Proof.
  unfold serialize_game. simpl.
  destruct (teams g) as [|h [|w rest]]; simpl.
  - split; [|done]. split; [lia|done].
  - split; [|done]. split; [lia|done].
  - split; [|done]. split; [done|lia].
Qed.

Lemma dict_get_lookup (d : list (string * value)) (i : nat) (k : string) (v : value) :
  NoDup (keys d) → d !! i = Some (k, v) → dict_get d k = Some v.
Proof.
  revert i. induction d as [|[k' v'] d IH]; intros i Hnd Hi; [done|].
  simpl in *. apply NoDup_cons in Hnd as [Hk' Hnd].
  destruct i as [|i]; simpl in Hi.
  - injection Hi as -> ->. by rewrite decide_True.
  - rewrite decide_False; [by eapply IH|].
    intros ->. apply Hk'. unfold keys. apply list_elem_of_fmap.
    exists (k, v). split; [done|]. by eapply list_elem_of_lookup_2.
Qed.

Lemma quarters_fold_entries (sheet : Stat → value) (l : list Stat) :
  foldl (λ d qs, dict_set d ("q" +:+ pretty qs.1) (sheet qs.2)) [] (enumerate1 l)
  = imap (λ i s, ("q" +:+ pretty (S i), sheet s)) l.
Proof.
  induction l as [|x l IH] using rev_ind; [done|].
  pose proof (quarter_keys_fold sheet l) as Hkeys.
  unfold enumerate1 in *. rewrite !imap_app, foldl_app. simpl.
  rewrite dict_set_fresh.
  - rewrite IH. by rewrite Nat.add_0_r.
  - rewrite Hkeys. intros Hin. apply list_elem_of_fmap in Hin as (i & Heq & Hi).
    apply elem_of_seq in Hi.
    apply (inj (String.app "q")) in Heq. apply pretty_nat_inj in Heq. lia.
Qed.

(** X24: the stats object of a player or a team has one key q<i> per
    quarter sheet, in order, then total; reading q<i+1> gives the sheet
    of the quarter at index i, and reading total gives the full-game
    sheet, however many quarter sheets there are. *)
Theorem stats_dict_reads_back (sheet : Stat → value) (s : Stats Stat) :
  keys (stats_dict Stat sheet s)
  = (map (λ i : nat, "q" +:+ pretty i) (seq 1 (length (qtr s))) ++ ["total"])%list ∧
  dict_get (stats_dict Stat sheet s) "total" = Some (sheet (full s)) ∧
  ∀ i q, qtr s !! i = Some q →
         dict_get (stats_dict Stat sheet s) ("q" +:+ pretty (S i)) = Some (sheet q).
Proof.
  pose proof (stats_dict_keys sheet s) as Hkeys.
  assert (NoDup (keys (stats_dict Stat sheet s))) as Hnd.
  { rewrite Hkeys. apply NoDup_app. split; [|split].
    - apply NoDup_fmap_2; [|apply NoDup_seq].
      intros i j Hij. apply (inj (String.app "q")) in Hij. by apply pretty_nat_inj.
    - intros k Hk Ht. apply elem_of_cons in Ht as [->|Ht]; [|by apply elem_of_nil in Ht].
      by apply list_elem_of_fmap in Hk as (i & Heq & _).
    - apply NoDup_singleton. }
  assert (stats_dict Stat sheet s
          = (imap (λ i q, ("q" +:+ pretty (S i), sheet q)) (qtr s)
             ++ [("total", sheet (full s))])%list) as E.
  { unfold stats_dict. rewrite dict_set_fresh.
    - by rewrite quarters_fold_entries.
    - rewrite quarter_keys_fold. intros Hin.
      by apply list_elem_of_fmap in Hin as (i & Heq & _). }
  split; [done|]. split.
  - apply (dict_get_lookup _ (length (qtr s))); [done|].
    rewrite E. rewrite lookup_app_r by (by rewrite length_imap).
    by rewrite length_imap, Nat.sub_diag.
  - intros i q Hq. apply (dict_get_lookup _ i); [done|].
    rewrite E. rewrite lookup_app_l by (rewrite length_imap; by eapply lookup_lt_Some).
    by rewrite list_lookup_imap, Hq.
Qed.

End SerializationMore.

Section HandlerMore.

Context {Stat BaseEvent Api Xml Parsed : Type}.
Variable player_stats team_stats : Stat → value.
Variable to_json : BaseEvent → value.
Variable isspace isdigit_char : N → bool.
Variable BBApi : str → str → exn + Api.
Variable logged_in : Api → bool.
Variable boxscore : Api → Z → exn + unit.
Variable int : str → exn + Z.
Variable get_xml_text : str → exn + Xml.
Variable parse_xml : Xml → exn + Parsed.
Variable new_Game : str → Parsed → exn + Game Stat BaseEvent.
Variable play : Game Stat BaseEvent → exn + Game Stat BaseEvent.

Local Abbreviation the_report :=
  (report Stat player_stats team_stats BaseEvent to_json isspace isdigit_char
          Api Xml Parsed BBApi logged_in boxscore int get_xml_text parse_xml
          new_Game play).

Local Abbreviation the_generate_report :=
  (generate_report Stat player_stats team_stats BaseEvent to_json
                   Api Xml Parsed BBApi logged_in boxscore int get_xml_text
                   parse_xml new_Game play).

Ltac run_generate_report :=
  unfold generate_report, mbind, M_bind, bind, perform, raise, ret; simpl.

(** X25: [generate_report] always starts with the one BBAPI login; it
    asks for the match feed only after the login was accepted, the match
    id converted to an integer and the boxscore call succeeded; it builds
    the game only after the feed was parsed; and when it returns, it made
    exactly the six calls in their order. *)
Theorem generate_report_call_order (matchid username password : str) :
  let run := the_generate_report matchid username password in
  (∃ rest, run.1 = CBBApi username password :: rest) ∧
  (CGetXml matchid ∈ run.1 →
   ∃ api n, BBApi username password = inr api ∧ logged_in api = true ∧
            int matchid = inr n ∧ boxscore api n = inr ()) ∧
  (CGame matchid ∈ run.1 →
   ∃ text parsed, get_xml_text matchid = inr text ∧ parse_xml text = inr parsed) ∧
  (∀ v, run.2 = inr v → ∃ n, int matchid = inr n ∧
                             run.1 = full_run matchid username password n).
Proof.
  run_generate_report.
  destruct (BBApi username password) as [e|api] eqn:Eapi; simpl.
  { split; [eauto|]. repeat split; try done; intros H;
      apply elem_of_cons in H as [?|H]; try done; by apply elem_of_nil in H. }
  destruct (logged_in api) eqn:Elog; simpl.
  2:{ split; [eauto|]. repeat split; try done; intros H;
      apply elem_of_cons in H as [?|H]; try done; by apply elem_of_nil in H. }
  destruct (int matchid) as [e|n] eqn:Eint; simpl.
  { split; [eauto|]. repeat split; try done; intros H;
      apply elem_of_cons in H as [?|H]; try done; by apply elem_of_nil in H. }
  destruct (boxscore api n) as [e|[]] eqn:Ebox; simpl.
  { split; [eauto|]. repeat split; try done; intros H;
      repeat (apply elem_of_cons in H as [?|H]; try done); by apply elem_of_nil in H. }
  destruct (get_xml_text matchid) as [e|text] eqn:Etext; simpl.
  { split; [eauto|]. split; [eauto 10|]. split; [|done]. intros H.
    repeat (apply elem_of_cons in H as [?|H]; try done). by apply elem_of_nil in H. }
  destruct (parse_xml text) as [e|parsed] eqn:Eparse; simpl.
  { split; [eauto|]. split; [eauto 10|]. split; [|done]. intros H.
    repeat (apply elem_of_cons in H as [?|H]; try done). by apply elem_of_nil in H. }
  destruct (new_Game matchid parsed) as [e|game]; simpl.
  { split; [eauto|]. split; [eauto 10|]. split; [eauto|done]. }
  destruct (play game) as [e|game']; simpl.
  { split; [eauto|]. split; [eauto 10|]. split; [eauto|done]. }
  destruct (serialize_game _ _ _ _ _ game') as [out|]; simpl;
    (split; [eauto|]); (split; [eauto 10|]); (split; [eauto|]); [|done].
  intros ? _. eauto.
Qed.

Lemma lstrip_all_space (s : str) : forallb isspace s = true → lstrip isspace s = [].
Proof.
  induction s as [|c s IH]; simpl; [done|].
  intros H. apply andb_true_iff in H as [-> Hs]. by apply IH.
Qed.

Lemma strip_all_space (s : str) : forallb isspace s = true → strip isspace s = [].
Proof. intros H. unfold strip. by rewrite (lstrip_all_space s H). Qed.

(** X26: a field that is absent from the form, or made of white space
    only, counts as empty: the answer is the form with "All fields are
    required." under status 400, and no call is made. *)
Theorem report_blank_field (form : list (string * str)) (field : string) :
  field ∈ ["username"; "password"; "matchid"] →
  forallb isspace (form_get form field) = true →
  the_report form
  = ([], inr (FORM_HTML (lit "All fields are required.")
                        (strip isspace (form_get form "username"))
                        (strip isspace (form_get form "password"))
                        (strip isspace (form_get form "matchid")), 400)).
Proof.
  intros Hfield Hblank. apply strip_all_space in Hblank.
  unfold report.
  assert (bool_decide (strip isspace (form_get form "username") = [])
          || bool_decide (strip isspace (form_get form "password") = [])
          || bool_decide (strip isspace (form_get form "matchid") = []) = true) as ->;
    [|done].
  rewrite !orb_true_iff, !bool_decide_eq_true.
  rewrite !elem_of_cons, elem_of_nil in Hfield.
  destruct Hfield as [->|[->|[->|[]]]]; auto.
Qed.

(** X27: what the handler gives back.  It answers with the form under
    status 400 exactly when a trimmed field is empty or the match id is
    not all digits; with the form under status 500 exactly when the fields
    are valid and [generate_report] raises an [Exception]; with the report
    template under status 200 - its context being the report, the match id
    and the user name - exactly when the fields are valid and
    [generate_report] returns.  What [generate_report] raises that is not
    an [Exception] is not caught: the handler raises it.  Its calls are
    those of [generate_report], and none when the fields are not valid. *)
Theorem report_status (form : list (string * str)) :
  let username := strip isspace (form_get form "username") in
  let password := strip isspace (form_get form "password") in
  let matchid := strip isspace (form_get form "matchid") in
  let valid := username ≠ [] ∧ password ≠ [] ∧ isdigit isdigit_char matchid = true in
  let run := the_generate_report matchid username password in
  (the_report form).1 = (if decide valid then run.1 else []) ∧
  match (the_report form).2 with
  | inl exc => valid ∧ run.2 = inl exc ∧ is_Exception exc = false
  | inr (page, status) =>
      (status = 400 ∨ status = 500 ∨ status = 200) ∧
      (status = 400 ↔ ¬ valid) ∧
      (status = 500 ↔ valid ∧ ∃ exc, run.2 = inl exc ∧ is_Exception exc = true) ∧
      (status = 200 ↔
       valid ∧ ∃ v, run.2 = inr v ∧ page = REPORT_HTML v matchid username)
  end.
Proof.
  intros username password matchid valid run.
  unfold report. fold username password matchid.
  destruct (decide (username = [])) as [Hu|Hu].
  { rewrite (bool_decide_eq_true_2 _ Hu). simpl.
    rewrite decide_False by (unfold valid; tauto).
    split; [done|]. unfold valid.
    repeat split; try done; try tauto; auto; by intros [? _]. }
  destruct (decide (password = [])) as [Hp|Hp].
  { rewrite (bool_decide_eq_true_2 _ Hp), orb_true_r. simpl.
    rewrite decide_False by (unfold valid; tauto).
    split; [done|]. unfold valid.
    repeat split; try done; try tauto; auto; by intros [? _]. }
  destruct (decide (matchid = [])) as [Hm|Hm].
  { rewrite (bool_decide_eq_true_2 _ Hm), orb_true_r. simpl.
    assert (¬ valid) as Hnv.
    { unfold valid. rewrite Hm. simpl. by intros (_ & _ & ?). }
    rewrite decide_False by done.
    split; [done|].
    repeat split; try done; try tauto; auto; by intros [? _]. }
  rewrite !bool_decide_eq_false_2 by done. simpl.
  destruct (isdigit isdigit_char matchid) eqn:Ed; simpl.
  2:{ assert (¬ valid) as Hnv by (unfold valid; by intros (_ & _ & ?)).
      rewrite decide_False by done.
      split; [done|].
      repeat split; try done; try tauto; auto; by intros [? _]. }
  assert valid as Hv by done.
  rewrite decide_True by done.
  unfold attempt, mbind, M_bind, bind. fold run.
  destruct run as [log [exc|v]]; simpl.
  - destruct (is_Exception exc) eqn:Hexc; simpl; [|done].
    rewrite app_nil_r. split; [done|].
    repeat split; try done; eauto.
    intros (_ & v & ? & _). done.
  - rewrite app_nil_r. split; [done|].
    repeat split; try done; eauto.
    intros (_ & exc & ? & _). done.
Qed.

End HandlerMore.

(** ** Instances of the further properties *)

Lemma ranges_add_up_to_profile_total_witness :
  ∃ out r e3 e2 e1,
    Wide.buildOffenseByRange trio (one_man "A") 0
      (Wide.embed <$> [blocked_shot; unresolved_shot]) = Some out ∧
    osp_playerRowsData
      (renderOffenseShotProfile trio (one_man "A") [blocked_shot; unresolved_shot])
      !! 0%nat = Some r ∧
    out !! "three" ≫= (.!! 0%nat) = Some e3 ∧
    out !! "jump" ≫= (.!! 0%nat) = Some e2 ∧
    out !! "paint" ≫= (.!! 0%nat) = Some e1 ∧
    (re_a e3 + re_a e2 + re_a e1)%nat = Off.a (row_total r) ∧
    (re_m e3 + re_m e2 + re_m e1)%nat = Off.m (row_total r).
Proof.
  apply (ranges_add_up_to_profile_total trio (one_man "A")
           [blocked_shot; unresolved_shot] 0
           {| player_name := "A"; player_starter := true |}).
  reflexivity.
Defined.

Lemma defender_panel_made_plus_missed_witness :
  let panel := renderDefenderShotPanel trio (one_man "A")
                 (allSelected (defenderOptions trio (one_man "A")))
                 (allSelected (shotTypeOptions [blocked_shot; unresolved_shot]))
                 {[ "3" ]} [blocked_shot; unresolved_shot] in
  Forall (λ ev, known_result ev) (ds_filtered panel) ∧
  (ds_madeCount panel + ds_missedCount panel)%nat = length (ds_filtered panel).
Proof.
  apply (defender_panel_made_plus_missed trio (one_man "A")
           (allSelected (defenderOptions trio (one_man "A")))
           (allSelected (shotTypeOptions [blocked_shot; unresolved_shot]))
           {[ "3" ]} [blocked_shot; unresolved_shot]).
  - apply (bool_decide_unpack _). vm_compute. exact I.
  - apply (bool_decide_unpack _). vm_compute. exact I.
Defined.

Lemma panel_with_every_box_ticked_witness :
  ds_filtered
    (renderDefenderShotPanel trio (one_man "A")
       (allSelected (defenderOptions trio (one_man "A")))
       (allSelected (shotTypeOptions [blocked_shot; unresolved_shot]))
       (allSelected resultOptions) [blocked_shot; unresolved_shot])
  = filter (λ ev, defender_resolved trio (one_man "A") ev && known_result ev)
           (shotEvents [blocked_shot; unresolved_shot]).
Proof.
  apply (panel_with_every_box_ticked trio (one_man "A") [blocked_shot; unresolved_shot]).
  apply (bool_decide_unpack _). vm_compute. exact I.
Defined.

Lemma secsToMin_minutes_and_seconds_witness :
  secsToMin (JS.Num (JS.Fin 75))
  = Some (pretty (75 `div` 60) +:+ ":" +:+ twoDigits (Z.to_nat (75 `mod` 60))) ∧
  String.length (twoDigits (Z.to_nat (75 `mod` 60))) = 2%nat ∧
  (secsToMin (JS.Num (JS.Fin 75)) = secsToMin (JS.Num (JS.Fin 130)) → 75 = 130).
Proof. apply (secsToMin_minutes_and_seconds 75 130); lia. Defined.

Lemma report_blank_field_witness :
  refused_report [ ("username", lit "bob"); ("password", lit "   ") ]
  = ([], inr (FORM_HTML (lit "All fields are required.")
                (strip ascii_space (lit "bob")) (strip ascii_space (lit "   "))
                (strip ascii_space []), 400)).
Proof.
  apply (report_blank_field VInt VInt (λ _ : unit, VNone) ascii_space ascii_digit
           (λ _ _, inr ()) (λ _ : unit, false) (λ _ _, inr ()) (λ _, inr 0)
           (λ _, inr ()) (λ _ : unit, inr ())
           (λ _ (_ : unit), inr {| teams := []; baseevents := [] |}) (λ g, inr g)
           [ ("username", lit "bob"); ("password", lit "   ") ] "password").
  - apply (bool_decide_unpack _). vm_compute. exact I.
  - reflexivity.
Defined.
